(** * Verification of the transcription pipeline of saas-aws-srt

    Shallow embedding of [src/lib/transcription.ts], of the handler of the
    page and of the computations of the result card, with proofs of the
    properties that the specification states and of further properties of
    the code.

    Conventions of the embedding:
    - a JavaScript string is a [string]; its characters are taken in the
      ASCII range ([ascii_text]) wherever a statement depends on what
      [trim] or [toLowerCase] do to a character, these two being defined
      on that range;
    - a JavaScript number is an IEEE 754 binary64 value: [NaN], an infinity
      or a finite rational, every arithmetic result being rounded to the
      nearest representable value, ties to even ([round64]); the negative
      zero is identified with zero;
    - counters that the code only increments from a small constant
      ([index], [attempt], [pollCount]) are integers in [Z];
    - a value that may be [undefined] is an [option];
    - a byte of a digest is a [Byte.byte];
    - asynchronous code is sequential state passing over the state of the
      outside world, a thrown value being the left injection of a sum. *)

From Stdlib Require Import ZArith QArith Qround Qabs Qpower Lqa String Ascii List Lia Bool.
From Stdlib Require Import DecimalString SpecFloat.
From Stdlib Require DecimalZ.
From stdpp Require Import gmap strings.

Import ListNotations.
Local Open Scope string_scope.
Local Open Scope Z_scope.

(* ===================================================================== *)
(** ** JavaScript strings *)
(* ===================================================================== *)

Module JsString.

Notation "a +++ b" := (String.append a b)
  (at level 60, right associativity) : string_scope.

(** The line feed. *)
Definition nl : string := String (ascii_of_nat 10) EmptyString.

Fixpoint concat_all (l : list string) : string :=
  match l with
  | [] => ""
  | s :: r => s +++ concat_all r
  end.

(** White space and line terminators, for a text of the ASCII range. *)
Definition is_white (c : ascii) : bool :=
  let n := nat_of_ascii c in
  ((9 <=? n)%nat && (n <=? 13)%nat) || (n =? 32)%nat.

Fixpoint trimStart (s : string) : string :=
  match s with
  | String c r => if is_white c then trimStart r else s
  | EmptyString => EmptyString
  end.

Fixpoint trimEnd (s : string) : string :=
  match s with
  | EmptyString => EmptyString
  | String c r =>
      match trimEnd r with
      | EmptyString => if is_white c then EmptyString else String c EmptyString
      | r' => String c r'
      end
  end.

(** [String.prototype.trim], for a text of the ASCII range *)
Definition trim (s : string) : string := trimEnd (trimStart s).

Fixpoint repeat_char (c : ascii) (n : nat) : string :=
  match n with
  | O => EmptyString
  | S k => String c (repeat_char c k)
  end.

(** [s.padStart(n, c)] for a one-character filler [c] *)
Definition padStart (n : nat) (c : ascii) (s : string) : string :=
  repeat_char c (n - String.length s) +++ s.

(** [String.prototype.toLowerCase], for a text of the ASCII range *)
Definition lower_char (c : ascii) : ascii :=
  let n := nat_of_ascii c in
  if ((65 <=? n)%nat && (n <=? 90)%nat)%bool then ascii_of_nat (n + 32) else c.

Fixpoint toLowerCase (s : string) : string :=
  match s with
  | EmptyString => EmptyString
  | String c r => String (lower_char c) (toLowerCase r)
  end.

(** A text of the ASCII range.  On such a text [trim] strips what
    [String.prototype.trim] strips (the characters 9 to 13 and 32) and
    [toLowerCase] is [String.prototype.toLowerCase]. *)
Definition ascii_char (c : ascii) : bool := (nat_of_ascii c <? 128)%nat.

Definition ascii_text (s : string) : bool := forallb ascii_char (list_ascii_of_string s).

(** A capital letter of the ASCII range, and a text without one. *)
Definition capital (c : ascii) : bool :=
  let n := nat_of_ascii c in ((65 <=? n)%nat && (n <=? 90)%nat)%bool.

Definition no_capital (s : string) : bool :=
  forallb (fun c => negb (capital c)) (list_ascii_of_string s).

(** [s.split(c)] for a one-character separator: never the empty list. *)
Fixpoint split (sep : ascii) (s : string) : list string :=
  match s with
  | EmptyString => [EmptyString]
  | String c r =>
      if Ascii.eqb c sep then EmptyString :: split sep r
      else match split sep r with
           | h :: t => String c h :: t
           | [] => [String c EmptyString]
           end
  end.

(** [parts.join(c)] *)
Fixpoint join (sep : string) (l : list string) : string :=
  match l with
  | [] => ""
  | [s] => s
  | s :: r => s +++ sep +++ join sep r
  end.

(** [Array.prototype.pop]: the last element, [undefined] on [[]] *)
Definition pop (l : list string) : option string := List.last (map Some l) None.

Definition contains_char (c : ascii) (s : string) : bool :=
  existsb (Ascii.eqb c) (list_ascii_of_string s).

(** Decimal rendering of an integer, as [Number.prototype.toString]
    renders an integral number below [2^53]. *)
Definition Z_toString (z : Z) : string := NilZero.string_of_int (Z.to_int z).

(** Truthiness of a string that may be [undefined] *)
Definition truthy (v : option string) : bool :=
  match v with
  | Some s => negb (String.eqb s "")
  | None => false
  end.

End JsString.
Import JsString.

(* ===================================================================== *)
(** ** JavaScript numbers: IEEE 754 binary64 *)
(* ===================================================================== *)

Module JsNumber.

Inductive number : Type :=
| NaN
| Inf (negative : bool)
| Fin (q : Q).

Definition Qpow2 (e : Z) : Q :=
  if 0 <=? e then inject_Z (2 ^ e) else (1 # Z.to_pos (2 ^ (- e)))%Q.

Definition Qpow10 (e : Z) : Q :=
  if 0 <=? e then inject_Z (10 ^ e) else (1 # Z.to_pos (10 ^ (- e)))%Q.

(** [ilog2 q] is the integer [k] with [2^k <= q < 2^(k+1)], for [0 < q]. *)
Definition ilog2 (q : Q) : Z :=
  let k := Z.log2 (Qnum q) - Z.log2 (Zpos (Qden q)) in
  if Qle_bool (Qpow2 k) q then k else k - 1.

(** Nearest integer, ties to even. *)
Definition round_half_even (q : Q) : Z :=
  let f := Qfloor q in
  match Qcompare (q - inject_Z f)%Q (1 # 2)%Q with
  | Lt => f
  | Gt => f + 1
  | Eq => if Z.even f then f else f + 1
  end.

(** Exponent of the unit in the last place of a positive rational:
    53 significant bits, subnormals below [2^-1022]. *)
Definition ulp_exp (a : Q) : Z := Z.max (ilog2 a - 52) (-1074).

(** Rounding of an exact result to binary64, round to nearest even;
    overflows to an infinity. *)
Definition round64 (q : Q) : number :=
  match Qcompare q 0%Q with
  | Eq => Fin 0%Q
  | c =>
      let a := Qabs q in
      let e := ulp_exp a in
      let m := round_half_even (a / Qpow2 e)%Q in
      let v := (inject_Z m * Qpow2 e)%Q in
      let neg := match c with Lt => true | _ => false end in
      if Qle_bool (Qpow2 1024) v then Inf neg
      else Fin (Qred (if neg then (- v)%Q else v))
  end.

Definition of_Z (z : Z) : number := round64 (inject_Z z).

Definition is_zero (q : Q) : bool := Qeq_bool q 0%Q.
Definition is_neg (q : Q) : bool := negb (Qle_bool 0%Q q).

(** [x / y] *)
Definition div (x y : number) : number :=
  match x, y with
  | NaN, _ | _, NaN => NaN
  | Inf _, Inf _ => NaN
  | Inf s, Fin b => Inf (xorb s (is_neg b))
  | Fin _, Inf _ => Fin 0%Q
  | Fin a, Fin b =>
      if is_zero b then (if is_zero a then NaN else Inf (is_neg a))
      else round64 (a / b)%Q
  end.

(** [x * y] *)
Definition mul (x y : number) : number :=
  match x, y with
  | NaN, _ | _, NaN => NaN
  | Inf s, Inf t => Inf (xorb s t)
  | Inf s, Fin b | Fin b, Inf s => if is_zero b then NaN else Inf (xorb s (is_neg b))
  | Fin a, Fin b => round64 (a * b)%Q
  end.

(** Truncation towards zero. *)
Definition Qtrunc (q : Q) : Z := if Qle_bool 0%Q q then Qfloor q else Qceiling q.

(** [x % y]: the remainder has the sign of the dividend and is exact. *)
Definition rem (x y : number) : number :=
  match x, y with
  | NaN, _ | _, NaN => NaN
  | Inf _, _ => NaN
  | Fin a, Inf _ => Fin a
  | Fin a, Fin b =>
      if is_zero b then NaN
      else Fin (Qred (a - b * inject_Z (Qtrunc (a / b)))%Q)
  end.

(** [x > y] *)
Definition gt (x y : number) : bool :=
  match x, y with
  | NaN, _ | _, NaN => false
  | Inf s, Inf t => negb s && t
  | Inf s, Fin _ => negb s
  | Fin _, Inf t => t
  | Fin a, Fin b => negb (Qle_bool a b)
  end.

(** An integral number: what [Math.floor] returns. *)
Inductive integral : Type :=
| INaN
| IInf (negative : bool)
| IInt (z : Z).

(** [Math.floor] *)
Definition floor (x : number) : integral :=
  match x with
  | NaN => INaN
  | Inf s => IInf s
  | Fin q => IInt (Qfloor q)
  end.

Definition number_eqb (x y : number) : bool :=
  match x, y with
  | NaN, NaN => true
  | Inf s, Inf t => Bool.eqb s t
  | Fin a, Fin b => Qeq_bool a b
  | _, _ => false
  end.

(** Number of decimal digits of a positive integer. *)
Definition ndigits (z : Z) : nat := String.length (Z_toString z).

(** The digits [s] and the decimal exponent [n] of the shortest decimal
    [s * 10^(n-k)] with [k] digits that rounds to the integral number [z],
    the nearer one when two do (Number::toString, step 5), searched for
    [k] from [k0] up.  [shortest_form] writes it as the standard does: the
    digits followed by zeros when [n <= 21], the exponent form beyond. *)
Fixpoint shortest_from (fuel : nat) (z : Z) (n0 : Z) (k : Z) : Z * Z :=
  match fuel with
  | O => (z, n0)
  | S fuel' =>
      let p := 10 ^ (n0 - k) in
      let lo := z / p in
      let hi := lo + 1 in
      let ok s := number_eqb (of_Z (s * p)) (Fin (inject_Z z)) in
      let nearer_lo := (z - lo * p <=? hi * p - z) in
      let norm s := if s =? 10 ^ k then (10 ^ (k - 1), n0 + 1) else (s, n0) in
      match ok lo, ok hi with
      | true, true => if nearer_lo then norm lo else norm hi
      | true, false => norm lo
      | false, true => norm hi
      | false, false => shortest_from fuel' z n0 (k + 1)
      end
  end.

Definition shortest_form (z : Z) : string :=
  let n0 := Z.of_nat (ndigits z) in
  let '(s, n) := shortest_from 17 z n0 1 in
  let digits := Z_toString s in
  if n <=? 21 then
    digits +++ repeat_char "0" (Z.to_nat n - String.length digits)
  else
    let mantissa :=
      match digits with
      | String d EmptyString => digits
      | String d r => String d ("." +++ r)
      | EmptyString => digits
      end in
    mantissa +++ "e+" +++ Z_toString (n - 1).

(** [Number.prototype.toString] on an integral number.  Below [2^53] every
    integer is a binary64 value, so that the shortest digits that read back
    as the number are all its digits; from [2^53] on the digits are the
    shortest ones, followed by zeros up to 21 digits in all and in exponent
    form beyond. *)
Definition toString (i : integral) : string :=
  match i with
  | INaN => "NaN"
  | IInf false => "Infinity"
  | IInf true => "-Infinity"
  | IInt z =>
      if Z.abs z <? 2 ^ 53 then Z_toString z
      else if z <? 0 then "-" +++ shortest_form (- z)
      else shortest_form z
  end.

(** *** [parseFloat] *)

Definition is_digit (c : ascii) : bool :=
  let n := nat_of_ascii c in ((48 <=? n)%nat && (n <=? 57)%nat)%bool.

Definition digit_val (c : ascii) : Z := Z.of_nat (nat_of_ascii c) - 48.

(** Reads a run of decimal digits: the value read so far, the number of
    digits read, and the rest of the input. *)
Fixpoint read_digits (s : string) (acc : Z) (count : Z) : Z * Z * string :=
  match s with
  | String c r =>
      if is_digit c then read_digits r (10 * acc + digit_val c) (count + 1)
      else (acc, count, s)
  | EmptyString => (acc, count, s)
  end.

Definition read_sign (s : string) : bool * string :=
  match s with
  | String "-" r => (true, r)
  | String "+" r => (false, r)
  | _ => (false, s)
  end.

(** The exponent part [e], [e+] or [e-] followed by digits; [0] when the
    input has none. *)
Definition read_exponent (s : string) : Z :=
  match s with
  | String c r =>
      if (Ascii.eqb c "e" || Ascii.eqb c "E")%bool then
        let '(neg, r1) := read_sign r in
        let '(v, cnt, _) := read_digits r1 0 0 in
        if cnt =? 0 then 0 else if neg then - v else v
      else 0
  | EmptyString => 0
  end.

(** [parseFloat]: the longest prefix that is a decimal literal, after
    leading white space of the ASCII range; [NaN] when there is none. *)
Definition parseFloat (input : string) : number :=
  let '(neg, s1) := read_sign (trimStart input) in
  if String.prefix "Infinity" s1 then Inf neg
  else
    let '(ip, icount, s2) := read_digits s1 0 0 in
    let '(m, fcount, s3) :=
      match s2 with
      | String "." r => read_digits r ip 0
      | _ => (ip, 0, s2)
      end in
    if icount + fcount =? 0 then NaN
    else
      let e := read_exponent s3 in
      let v := (inject_Z m * Qpow10 (e - fcount))%Q in
      round64 (if neg then (- v)%Q else v).

End JsNumber.
Import JsNumber.

(* ===================================================================== *)
(** ** The SRT time formatter (transcription.ts, formatSrtTime) *)
(* ===================================================================== *)

Definition n3600 : number := of_Z 3600.
Definition n60 : number := of_Z 60.
Definition n1 : number := of_Z 1.
Definition n1000 : number := of_Z 1000.

(** [Math.floor(seconds / 3600)] *)
Definition srt_hours (seconds : number) : integral := floor (div seconds n3600).
(** [Math.floor((seconds % 3600) / 60)] *)
Definition srt_minutes (seconds : number) : integral := floor (div (rem seconds n3600) n60).
(** [Math.floor(seconds % 60)] *)
Definition srt_secs (seconds : number) : integral := floor (rem seconds n60).
(** [Math.floor((seconds % 1) * 1000)] *)
Definition srt_milliseconds (seconds : number) : integral := floor (mul (rem seconds n1) n1000).

Definition formatSrtTime (seconds : number) : string :=
  let hours := srt_hours seconds in
  let minutes := srt_minutes seconds in
  let secs := srt_secs seconds in
  let milliseconds := srt_milliseconds seconds in
  padStart 2 "0" (toString hours) +++ ":" +++
  padStart 2 "0" (toString minutes) +++ ":" +++
  padStart 2 "0" (toString secs) +++ "," +++
  padStart 3 "0" (toString milliseconds).

(* ===================================================================== *)
(** ** Effects: thrown values, the observable trace, the outside world *)
(* ===================================================================== *)

(** A thrown value: an [Error] object with its message, or any other value
    with its [String(...)] rendering. *)
Inductive thrown : Type :=
| JsError (message : string)
| JsValue (shown : string).

Definition undefined_value : thrown := JsValue "undefined".

(** What a run does that an observer can see, in order. *)
Inductive event : Type :=
| Invoked (failure : option thrown)
    (* retryOperation called [operation()]; its failure, if it threw *)
| OperationFailed (attempt maxRetries : Z) (error : thrown)
    (* console.warn of retryOperation *)
| Sleep (ms : Z)
    (* await new Promise(resolve => setTimeout(resolve, ms)) *)
| ToastInfo (msg : string)
| ToastSuccess (msg : string)
| ToastError (msg : string)
| Polling (pollCount maxPolls : Z)
    (* console.log of a polling attempt *)
| JobStatus (status : option string)
| PollError (error : thrown)
    (* console.error('Error polling job status:', pollError) *)
| TranscriptionError (error : thrown)
    (* console.error('Transcription error:', error) *)
| FileDetails (name type : string) (size lastModified : Z).
    (* console.log('File details:', ...) *)

(** The outside world passes time. *)
Class World (W : Type) : Type := {
  elapse : Z -> W -> W;     (* the world after a timer of so many milliseconds *)
  Date_now : W -> Z         (* Date.now() *)
}.

Section Effects.
Context {W : Type} `{World W}.

Record state : Type := mkState { world : W; trace : list event }.

(** A computation that may throw, over the world and the trace. *)
Definition M (A : Type) : Type := state -> (thrown + A) * state.

Definition ret {A} (a : A) : M A := fun st => (inr a, st).
Definition throw {A} (e : thrown) : M A := fun st => (inl e, st).
Definition bind {A B} (m : M A) (k : A -> M B) : M B :=
  fun st => match m st with
            | (inr a, st') => k a st'
            | (inl e, st') => (inl e, st')
            end.
(** [try { m } catch (e) { handler e }] *)
Definition try_catch {A} (m : M A) (handler : thrown -> M A) : M A :=
  fun st => match m st with
            | (inr a, st') => (inr a, st')
            | (inl e, st') => handler e st'
            end.
Definition emit (e : event) : M unit :=
  fun st => (inr tt, mkState (world st) (trace st ++ [e])).
(** A call into the outside world. *)
Definition call {A} (f : W -> (thrown + A) * W) : M A :=
  fun st => let '(r, w) := f (world st) in (r, mkState w (trace st)).
Definition sleep (ms : Z) : M unit :=
  fun st => (inr tt, mkState (elapse ms (world st)) (trace st ++ [Sleep ms])).
Definition now : M Z := fun st => (inr (Date_now (world st)), st).
Definition lift_result {A} (r : thrown + A) : M A := fun st => (r, st).

End Effects.

Declare Scope js_scope.
Delimit Scope js_scope with js.
Notation "x <- m ;; k" := (bind m (fun x => k))
  (at level 100, m at next level, right associativity) : js_scope.
Notation "m ;;; k" := (bind m (fun _ => k))
  (at level 100, right associativity) : js_scope.

(* ===================================================================== *)
(** ** The retry wrapper (transcription.ts, retryOperation) *)
(* ===================================================================== *)

Section Retry.
Context {W : Type} `{World W} {T : Type}.
Variable operation : W -> (thrown + T) * W.

(** [attempt = 1, 2, ..., maxRetries] *)
Definition attempt_range (maxRetries : Z) : list Z :=
  map Z.of_nat (seq 1 (Z.to_nat maxRetries)).

(** The [for] loop, over the attempts still to make; after the last one,
    [throw lastError]. *)
Fixpoint retry_loop (maxRetries delay : Z) (attempts : list Z)
    (lastError : option thrown) : M T :=
  match attempts with
  | [] =>
      throw (match lastError with Some e => e | None => undefined_value end)
  | attempt :: rest =>
      fun st =>
        match operation (world st) with
        | (inr v, w) => (inr v, mkState w (trace st ++ [Invoked None]))
        | (inl error, w) =>
            let st1 := mkState w (trace st ++ [Invoked (Some error);
                                               OperationFailed attempt maxRetries error]) in
            if attempt <? maxRetries then
              (sleep (delay * attempt) ;;; retry_loop maxRetries delay rest (Some error))%js st1
            else retry_loop maxRetries delay rest (Some error) st1
        end
  end.

Definition retryOperation (maxRetries delay : Z) : M T :=
  retry_loop maxRetries delay (attempt_range maxRetries) None.

(** Defaults of the source: [maxRetries = 3, delay = 1000]. *)
Definition retryOperation_default : M T := retryOperation 3 1000.

Definition invocations (tr : list event) : nat :=
  List.length (List.filter (fun e => match e with Invoked _ => true | _ => false end) tr).

(** The behaviour the specification describes, as a relation between the
    attempt number, the world before, the events, the outcome and the
    world after. *)
Inductive retry_run (maxRetries delay : Z) :
    Z -> W -> list event -> thrown + T -> W -> Prop :=
| run_success attempt w v w' :
    attempt <= maxRetries ->
    operation w = (inr v, w') ->
    retry_run maxRetries delay attempt w [Invoked None] (inr v) w'
| run_final_failure w e w' :
    operation w = (inl e, w') ->
    retry_run maxRetries delay maxRetries w
      [Invoked (Some e); OperationFailed maxRetries maxRetries e] (inl e) w'
| run_backoff attempt w e w' tr r w'' :
    attempt < maxRetries ->
    operation w = (inl e, w') ->
    retry_run maxRetries delay (attempt + 1) (elapse (delay * attempt) w') tr r w'' ->
    retry_run maxRetries delay attempt w
      (Invoked (Some e) :: OperationFailed attempt maxRetries e
         :: Sleep (delay * attempt) :: tr) r w''.

End Retry.

(* ===================================================================== *)
(** ** Data model *)
(* ===================================================================== *)

(** The provider's transcript, as transcription.ts reads it: the fields the
    code tests for presence are optional. *)
Record Alternative : Type := { content : string }.

Record Item : Type := {
  item_type : string;               (* item.type *)
  start_time : option string;
  end_time : option string;
  alternatives : list Alternative
}.

Record FullTranscript : Type := { transcript : string }.

Record Results : Type := {
  transcripts : option (list FullTranscript);
  items : option (list Item)
}.

Record TranscriptData : Type := { results : option Results }.

(** interface TranscribeResult *)
Record TranscribeResult : Type := {
  srtContent : string;
  duration : string;
  rawTranscriptData : option TranscriptData
}.

(** The browser's [File]. *)
Record File : Type := {
  file_name : string;
  file_type : string;
  file_size : Z;
  lastModified : Z
}.

(* ===================================================================== *)
(** ** The local result cache (cacheTranscriptionResult,
       getCachedTranscription) *)
(* ===================================================================== *)

Record CacheEntry : Type := { result : TranscribeResult; timestamp : Z }.

(** The item ['transcriptionCache'] of [localStorage]: absent, or the JSON
    text of an object from file hashes to entries, kept here as the object
    it parses to, without the order of its keys.  The keys are the
    hexadecimal digests that generateFileHash returns. *)
Abbreviation storage := (option (gmap string CacheEntry)).

(** [JSON.parse(localStorage.getItem('transcriptionCache') || '{}')] *)
Definition load_cache (ls : storage) : gmap string CacheEntry :=
  match ls with
  | Some cache => cache
  | None => ∅
  end.

Definition day_ms : Z := 24 * 60 * 60 * 1000.

(** [now] is the value of [Date.now()] at the call. *)
Definition cacheTranscriptionResult (fileHash : string) (res : TranscribeResult)
    (now : Z) (ls : storage) : storage :=
  let cache := load_cache ls in
  Some (<[fileHash := {| result := res; timestamp := now |}]> cache).

Definition getCachedTranscription (fileHash : string) (now : Z) (ls : storage)
    : option TranscribeResult * storage :=
  let cache := load_cache ls in
  match cache !! fileHash with
  | Some entry =>
      if now - timestamp entry <? day_ms then (Some (result entry), ls)
      else (None, ls)
  | None => (None, ls)
  end.

(* ===================================================================== *)
(** ** The format converter (convertTranscriptToSrt) *)
(* ===================================================================== *)

(** The variables of the item walk. *)
Record LoopState : Type := {
  ls_srtContent : string;
  ls_index : Z;
  ls_currentLine : string;
  ls_startTime : option string;
  ls_endTime : option string
}.

(** One emitted subtitle block, with the position of the item on which it
    was emitted and the raw time stamps it was built from. *)
Record Block : Type := {
  blk_at : nat;
  blk_index : Z;
  blk_startTime : string;
  blk_endTime : string;
  blk_text : string
}.

(** A subtitle block of the output: its number, its two formatted time
    stamps and its text. *)
Record Subtitle : Type := {
  sub_index : Z;
  sub_start : string;
  sub_end : string;
  sub_text : string
}.

Definition render_subtitle (s : Subtitle) : string :=
  Z_toString (sub_index s) +++ nl +++
  sub_start s +++ " --> " +++ sub_end s +++ nl +++
  sub_text s +++ nl +++ nl.

Definition subtitle_of_block (b : Block) : Subtitle :=
  {| sub_index := blk_index b;
     sub_start := formatSrtTime (parseFloat (blk_startTime b));
     sub_end := formatSrtTime (parseFloat (blk_endTime b));
     sub_text := blk_text b |}.

Definition render_block (b : Block) : string := render_subtitle (subtitle_of_block b).

(** The single subtitle over the fixed window, numbered 1. *)
Definition fixed_window_subtitle (fullText : string) : string :=
  ("1" +++ nl +++ "00:00:00,000 --> 00:05:00,000" +++ nl) +++ fullText +++ (nl +++ nl).

(** [item.alternatives[0].content]: a [TypeError] when there is no first
    alternative. *)
Definition first_content (item : Item) : thrown + string :=
  match alternatives item with
  | a :: _ => inr (content a)
  | [] => inl (JsError "Cannot read properties of undefined (reading 'content')")
  end.

Definition is_pronunciation (item : Item) : bool :=
  String.eqb (item_type item) "pronunciation".
Definition is_punctuation (item : Item) : bool :=
  String.eqb (item_type item) "punctuation".

(** ['.', '?', '!'].includes(c) *)
Definition ends_sentence (c : string) : bool :=
  String.eqb c "." || String.eqb c "?" || String.eqb c "!".

Definition or_empty (v : option string) : string :=
  match v with Some s => s | None => "" end.

(** The first half of the loop body: accumulate the item. *)
Definition accumulate (item : Item) (st : LoopState) : thrown + LoopState :=
  if is_pronunciation item then
    let startTime :=
      if String.eqb (ls_currentLine st) "" then start_time item else ls_startTime st in
    match first_content item with
    | inl e => inl e
    | inr c =>
        inr {| ls_srtContent := ls_srtContent st;
               ls_index := ls_index st;
               ls_currentLine := ls_currentLine st +++ c +++ " ";
               ls_startTime := startTime;
               ls_endTime := end_time item |}
    end
  else if is_punctuation item then
    match first_content item with
    | inl e => inl e
    | inr c =>
        inr {| ls_srtContent := ls_srtContent st;
               ls_index := ls_index st;
               ls_currentLine := trim (ls_currentLine st) +++ c;
               ls_startTime := ls_startTime st;
               ls_endTime := ls_endTime st |}
    end
  else inr st.

(** [isEndOfSentence]; the content is read only for a punctuation item. *)
Definition isEndOfSentence (item : Item) : thrown + bool :=
  if is_punctuation item then
    match first_content item with
    | inl e => inl e
    | inr c => inr (ends_sentence c)
    end
  else inr false.

(** The second half of the loop body: emit a block at a sentence end or at
    the last item, when both time stamps are truthy. *)
Definition flush (i : nat) (boundary : bool) (st : LoopState)
    : LoopState * option Block :=
  if boundary && truthy (ls_startTime st) && truthy (ls_endTime st) then
    let srtStartTime := formatSrtTime (parseFloat (or_empty (ls_startTime st))) in
    let srtEndTime := formatSrtTime (parseFloat (or_empty (ls_endTime st))) in
    let s1 := ls_srtContent st +++ (Z_toString (ls_index st) +++ nl) in
    let s2 := s1 +++ (srtStartTime +++ " --> " +++ srtEndTime +++ nl) in
    let s3 := s2 +++ (trim (ls_currentLine st) +++ nl +++ nl) in
    ({| ls_srtContent := s3;
        ls_index := ls_index st + 1;
        ls_currentLine := "";
        ls_startTime := Some "";
        ls_endTime := ls_endTime st |},
     Some {| blk_at := i;
             blk_index := ls_index st;
             blk_startTime := or_empty (ls_startTime st);
             blk_endTime := or_empty (ls_endTime st);
             blk_text := trim (ls_currentLine st) |})
  else (st, None).

(** One iteration, for the item at position [i] of [len]. *)
Definition convert_step (len i : nat) (item : Item) (st : LoopState)
    : thrown + (LoopState * option Block) :=
  match accumulate item st with
  | inl e => inl e
  | inr st1 =>
      match isEndOfSentence item with
      | inl e => inl e
      | inr eos =>
          let isLastItem := (S i =? len)%nat in
          inr (flush i (eos || isLastItem) st1)
      end
  end.

(** The [for] loop from position [i] on; the blocks are listed in the order
    of emission. *)
Fixpoint convert_loop (len i : nat) (rest : list Item) (st : LoopState)
    : thrown + (LoopState * list Block) :=
  match rest with
  | [] => inr (st, [])
  | item :: rest' =>
      match convert_step len i item st with
      | inl e => inl e
      | inr (st1, emitted) =>
          match convert_loop len (S i) rest' st1 with
          | inl e => inl e
          | inr (st2, blocks) =>
              inr (st2, match emitted with Some b => b :: blocks | None => blocks end)
          end
      end
  end.

Definition initial_loop_state : LoopState :=
  {| ls_srtContent := ""; ls_index := 1; ls_currentLine := "";
     ls_startTime := Some ""; ls_endTime := Some "" |}.

(** The walk over all the items. *)
Definition walk (its : list Item) : thrown + (LoopState * list Block) :=
  convert_loop (List.length its) 0 its initial_loop_state.



(** An item whose content, the one of its first alternative, is a text of
    the ASCII range. *)
Definition ascii_item (item : Item) : bool :=
  match alternatives item with
  | a :: _ => ascii_text (content a)
  | [] => true
  end.





Definition no_items (its : option (list Item)) : bool :=
  match its with
  | None | Some [] => true
  | Some (_ :: _) => false
  end.

Definition convertTranscriptToSrt (transcriptData : TranscriptData) : thrown + string :=
  match results transcriptData with
  | None => inr ""
  | Some res =>
      match transcripts res with
      | None => inr ""
      | Some ts =>
          match ts, no_items (items res) with
          | t :: _, true => inr (fixed_window_subtitle (transcript t))
          | _, _ =>
              let its := match items res with Some l => l | None => [] end in
              match walk its with
              | inl e => inl e
              | inr (st, _) =>
                  match String.eqb (ls_srtContent st) "", ts with
                  | true, t :: _ => inr (fixed_window_subtitle (transcript t))
                  | _, _ => inr (ls_srtContent st)
                  end
              end
          end
      end
  end.

(* ===================================================================== *)
(** ** The fallback generator (simulateTranscription) *)
(* ===================================================================== *)

Definition last_segment (l : list string) : string :=
  match pop l with Some s => s | None => "" end.

(** [name.replace(/\.[^/.]+$/, "")]: drops the last dot and what follows
    it, when what follows is not empty and has no slash. *)
Definition strip_extension (name : string) : string :=
  let parts := split "." name in
  let suffix := last_segment parts in
  if (1 <? List.length parts)%nat && negb (String.eqb suffix "")
     && negb (contains_char "/" suffix)
  then join "." (removelast parts)
  else name.

(** The template literal of the source, line by line. *)
Definition simulated_srt (fileName : string) : string :=
  ("1" +++ nl +++
   "00:00:00,000 --> 00:00:05,000" +++ nl +++
   "This is a simulated transcription for ") +++ fileName +++
  ("." +++ nl +++
   nl +++
   "2" +++ nl +++
   "00:00:05,500 --> 00:00:10,000" +++ nl +++
   "The actual transcription service encountered an error." +++ nl +++
   nl +++
   "3" +++ nl +++
   "00:00:10,500 --> 00:00:15,000" +++ nl +++
   "Please check your AWS credentials and try again." +++ nl +++
   nl).

Definition simulated_result (file : File) : TranscribeResult :=
  {| srtContent := simulated_srt (strip_extension (file_name file));
     duration := "0:15";
     rawTranscriptData := None |}.

(* ===================================================================== *)
(** ** The orchestrator (transcribeAudio) *)
(* ===================================================================== *)

(** [file.name.split('.').pop()?.toLowerCase() || 'mp3'] *)
Definition mediaFormat (name : string) : string :=
  match pop (split "." name) with
  | Some ext => if String.eqb (toLowerCase ext) "" then "mp3" else toLowerCase ext
  | None => "mp3"
  end.

Record UploadParams : Type := {
  Bucket : string;
  Key : string;
  Body : File;
  ContentType : string
}.

Inductive LanguageConfig : Type :=
| LanguageCode (code : string)
| IdentifyLanguage (LanguageOptions : list string).

Record TranscriptionParams : Type := {
  TranscriptionJobName : string;
  Language : LanguageConfig;
  MediaFormat : string;
  MediaFileUri : string;
  OutputBucketName : string
}.

Record TranscriptRef : Type := { TranscriptFileUri : option string }.

Record TranscriptionJob : Type := {
  TranscriptionJobStatus : option string;
  FailureReason : option string;
  Transcript : option TranscriptRef
}.

Record GetTranscriptionJobResponse : Type := {
  TranscriptionJob_ : option TranscriptionJob   (* jobResult.TranscriptionJob *)
}.

Record GetObjectOutput : Type := { ObjectBody : option string }.

(** The collaborators of the orchestrator: the object store, the
    transcription service, the configuration and the parsers of the
    platform, each call taking the world to an outcome and a new world.
    [JSON_parse] returns a transcript of the provider's schema, or throws. *)
Class Platform (W : Type) : Type := {
  config_bucket : string;                    (* awsConfig.s3.bucket *)
  s3_upload : UploadParams -> W -> (thrown + unit) * W;
  startTranscriptionJob : TranscriptionParams -> W -> (thrown + unit) * W;
  getTranscriptionJob : string -> W -> (thrown + GetTranscriptionJobResponse) * W;
  s3_getObject : string -> string -> W -> (thrown + GetObjectOutput) * W;
  URL_pathname : string -> thrown + string;  (* new URL(uri).pathname *)
  JSON_parse : string -> thrown + TranscriptData
}.

Definition maxPolls : Z := 60.

Definition show_undefined (v : option string) : string :=
  match v with Some s => s | None => "undefined" end.

Definition option_eqb (v : option string) (s : string) : bool :=
  match v with Some x => String.eqb x s | None => false end.

(** [new Date(t).toISOString()] throws a [RangeError] outside the range of
    time values, 8.64e15 milliseconds either side of the epoch. *)
Definition valid_time_value (t : Z) : bool := Z.abs t <=? 8640000000000000.

Definition Date_toISOString_check (t : Z) : thrown + unit :=
  if valid_time_value t then inr tt else inl (JsError "Invalid time value").

(** [fetchError instanceof Error ? fetchError.message : String(fetchError)] *)
Definition error_text (e : thrown) : string :=
  match e with JsError m => m | JsValue s => s end.

(** [pathParts.slice(2).join('/')] *)
Definition transcript_key (pathname : string) : string :=
  join "/" (skipn 2 (split "/" pathname)).

(** The duration: the largest [end_time] of the items, as minutes:seconds. *)
Definition maxEndTime_of (its : list Item) : number :=
  fold_left (fun maxEndTime item =>
               if truthy (end_time item)
                  && gt (parseFloat (or_empty (end_time item))) maxEndTime
               then parseFloat (or_empty (end_time item)) else maxEndTime)
            its (of_Z 0).

Definition duration_of (transcriptData : TranscriptData) : string :=
  let maxEndTime :=
    match results transcriptData with
    | Some res => match items res with
                  | Some its => maxEndTime_of its
                  | None => of_Z 0
                  end
    | None => of_Z 0
    end in
  let minutes := floor (div maxEndTime n60) in
  let seconds := floor (rem maxEndTime n60) in
  toString minutes +++ ":" +++ padStart 2 "0" (toString seconds).

Section Orchestrator.
Context {W : Type} `{World W} `{Platform W}.

Local Open Scope js_scope.

(** async function simulateTranscription(file) *)
Definition simulateTranscription (file : File) : M TranscribeResult :=
  sleep 2000 ;;;
  ret (simulated_result file).

(** The [try] block of one polling iteration: the local variables after
    it, and the value thrown inside it, if any. *)
Definition poll_try (jobName : string) (jobComplete : bool)
    (transcriptionJob : option TranscriptionJob)
    : M (bool * option TranscriptionJob * option thrown) :=
  fun st =>
    match getTranscriptionJob jobName (world st) with
    | (inl e, w) =>
        (inr (jobComplete, transcriptionJob, Some e), mkState w (trace st))
    | (inr jobResult, w) =>
        let transcriptionJob := TranscriptionJob_ jobResult in
        let status :=
          match transcriptionJob with
          | Some j => TranscriptionJobStatus j
          | None => None
          end in
        let st1 := mkState w (trace st ++ [JobStatus status]) in
        if option_eqb status "COMPLETED" then
          (inr (true, transcriptionJob, None), st1)
        else if option_eqb status "FAILED" then
          let reason :=
            match transcriptionJob with
            | Some j => FailureReason j
            | None => None
            end in
          (inr (jobComplete, transcriptionJob,
                Some (JsError ("Transcription job failed: " +++ show_undefined reason))),
           st1)
        else (inr (jobComplete, transcriptionJob, None), st1)
    end.

(** One iteration of the polling loop, with its [catch]. *)
Definition poll_once (jobName : string) (jobComplete : bool)
    (transcriptionJob : option TranscriptionJob) (pollCount : Z)
    : M (bool * option TranscriptionJob) :=
  sleep 5000 ;;;
  emit (Polling pollCount maxPolls) ;;;
  r <- poll_try jobName jobComplete transcriptionJob ;;
  let '(jobComplete, transcriptionJob, pollError) := r in
  match pollError with
  | Some e => emit (PollError e) ;;; ret (jobComplete, transcriptionJob)
  | None => ret (jobComplete, transcriptionJob)
  end.

(** [while (!jobComplete && pollCount < maxPolls)]; [fuel] bounds the
    iterations still possible and starts at [maxPolls]. *)
Fixpoint poll_loop (fuel : nat) (jobName : string) (jobComplete : bool)
    (transcriptionJob : option TranscriptionJob) (pollCount : Z)
    : M (bool * option TranscriptionJob * Z) :=
  match fuel with
  | O => ret (jobComplete, transcriptionJob, pollCount)
  | S fuel' =>
      if negb jobComplete && (pollCount <? maxPolls) then
        r <- poll_once jobName jobComplete transcriptionJob (pollCount + 1) ;;
        poll_loop fuel' jobName (fst r) (snd r) (pollCount + 1)
      else ret (jobComplete, transcriptionJob, pollCount)
  end.

(** The polling phase: the loop and the time-out check after it. *)
Definition poll_job (jobName : string) : M (option TranscriptionJob) :=
  r <- poll_loop (Z.to_nat maxPolls) jobName false None 0 ;;
  let '(jobComplete, transcriptionJob, _) := r in
  if negb jobComplete then
    throw (JsError "Transcription job timed out after 5 minutes")
  else ret transcriptionJob.

(** The inner [try] block: fetch, parse and convert the transcript. *)
Definition fetch_transcript (bucket transcriptUri : string) : M TranscribeResult :=
  pathname <- lift_result (URL_pathname transcriptUri) ;;
  let transcriptKey := transcript_key pathname in
  transcriptObject <- call (s3_getObject bucket transcriptKey) ;;
  let transcriptContent := or_empty (ObjectBody transcriptObject) in
  transcriptData <- lift_result (JSON_parse transcriptContent) ;;
  srt <- lift_result (convertTranscriptToSrt transcriptData) ;;
  ret {| srtContent := srt;
         duration := duration_of transcriptData;
         rawTranscriptData := Some transcriptData |}.

(** The outer [try] block of transcribeAudio. *)
Definition transcribe_try (file : File) (language : string) : M TranscribeResult :=
  emit (ToastInfo "Uploading audio to AWS S3...") ;;;
  t0 <- now ;;
  let fileKey := "transcription-inputs/" +++ Z_toString t0 +++ "-" +++ file_name file in
  let uploadParams :=
    {| Bucket := config_bucket; Key := fileKey; Body := file;
       ContentType := file_type file |} in
  retryOperation_default (s3_upload uploadParams) ;;;
  emit (ToastSuccess "Audio uploaded successfully") ;;;
  emit (ToastInfo "Starting transcription job...") ;;;
  t1 <- now ;;
  let jobName := "job-" +++ Z_toString t1 in
  let mediaUri := "s3://" +++ Bucket uploadParams +++ "/" +++ fileKey in
  let transcriptionParams :=
    {| TranscriptionJobName := jobName;
       Language := if negb (String.eqb language "auto")
                   then LanguageCode language
                   else IdentifyLanguage ["ta-IN"; "en-US"; "hi-IN"];
       MediaFormat := mediaFormat (file_name file);
       MediaFileUri := mediaUri;
       OutputBucketName := Bucket uploadParams |} in
  call (startTranscriptionJob transcriptionParams) ;;;
  emit (ToastInfo "Processing transcription...") ;;;
  transcriptionJob <- poll_job jobName ;;
  let uri :=
    match transcriptionJob with
    | Some j => match Transcript j with
                | Some t => TranscriptFileUri t
                | None => None
                end
    | None => None
    end in
  if truthy uri then
    try_catch (fetch_transcript (Bucket uploadParams) (or_empty uri))
      (fun fetchError =>
         throw (JsError ("Failed to fetch transcript data: " +++ error_text fetchError)))
  else throw (JsError "Could not retrieve transcription results").

(** The [catch] block of transcribeAudio. *)
Definition transcribe_catch (file : File) (error : thrown) : M TranscribeResult :=
  emit (TranscriptionError error) ;;;
  let errorMessage :=
    match error with
    | JsError message =>
        "AWS Transcribe API error. Using simulation for demo." +++ " Error: " +++ message
    | JsValue _ => "AWS Transcribe API error. Using simulation for demo."
    end in
  emit (ToastError errorMessage) ;;;
  lift_result (Date_toISOString_check (lastModified file)) ;;;
  emit (FileDetails (file_name file) (file_type file) (file_size file) (lastModified file)) ;;;
  simulateTranscription file.

(** export async function transcribeAudio(file, language = 'ta-IN').
    The two calls before the [try], getAwsCredentials and configureAws,
    read the configuration and catch their own errors. *)
Definition transcribeAudio (file : File) (language : string) : M TranscribeResult :=
  try_catch (transcribe_try file language) (transcribe_catch file).

End Orchestrator.

(* ===================================================================== *)
(** ** Definitions that the statements use *)
(* ===================================================================== *)

(** The subtitle of the fixed window. *)
Definition fixed_subtitle (fullText : string) : Subtitle :=
  {| sub_index := 1; sub_start := "00:00:00,000"; sub_end := "00:05:00,000";
     sub_text := fullText |}.

(** The three subtitles of the fallback result. *)
Definition simulated_subtitles (fileName : string) : list Subtitle :=
  [ {| sub_index := 1; sub_start := "00:00:00,000"; sub_end := "00:00:05,000";
       sub_text := "This is a simulated transcription for " +++ fileName +++ "." |};
    {| sub_index := 2; sub_start := "00:00:05,500"; sub_end := "00:00:10,000";
       sub_text := "The actual transcription service encountered an error." |};
    {| sub_index := 3; sub_start := "00:00:10,500"; sub_end := "00:00:15,000";
       sub_text := "Please check your AWS credentials and try again." |} ].


(** The number of polls a trace records. *)
Definition polls (tr : list event) : nat :=
  List.length (List.filter (fun e => match e with Polling _ _ => true | _ => false end) tr).

(** The errors a trace records as swallowed by the polling loop. *)
Definition poll_errors (tr : list event) : list thrown :=
  flat_map (fun e => match e with PollError x => [x] | _ => [] end) tr.



(** Numbers that come one after the other from [from] on. *)
Fixpoint consecutive (from : Z) (l : list Z) : Prop :=
  match l with
  | [] => True
  | x :: r => x = from /\ consecutive (from + 1) r
  end.

(** A rational is a binary64 value when it is an integer of less than 53
    bits times a power of two within the exponent range. *)
Definition representable (q : Q) : Prop :=
  exists m e : Z,
    (q == inject_Z m * Qpow2 e)%Q /\ (Z.abs m < 2 ^ 53)%Z /\ (-1074 <= e <= 971)%Z.

(** A field of the time stamp: exactly [n] characters, all decimal digits. *)
Definition all_digits (s : string) : bool :=
  forallb is_digit (list_ascii_of_string s).

Definition digit_field (n : nat) (s : string) : Prop :=
  String.length s = n /\ all_digits s = true.


(** The number that a value of the reference specification of binary64
    arithmetic denotes. *)
Definition SF_number (x : spec_float) : number :=
  match x with
  | S754_zero _ => Fin 0%Q
  | S754_infinity s => Inf s
  | S754_nan => NaN
  | S754_finite s m e =>
      Fin (Qred (inject_Z (if s then Z.neg m else Z.pos m) * Qpow2 e)%Q)
  end.

Definition SF_of_Z (z : Z) : spec_float := binary_normalize 53 1024 z 0 false.

(** [a / b] and [(a / b) * c] computed by [round64] and by the reference
    specification. *)
Definition agrees_with_SpecFloat (abc : Z * Z * Z) : bool :=
  let '(a, b, c) := abc in
  let x := SFdiv 53 1024 (SF_of_Z a) (SF_of_Z b) in
  number_eqb (div (of_Z a) (of_Z b)) (SF_number x)
  && number_eqb (mul (div (of_Z a) (of_Z b)) (of_Z c))
                (SF_number (SFmul 53 1024 x (SF_of_Z c))).

Definition rounding_samples : list (Z * Z * Z) :=
  [(3661001, 1000, 1000); (655, 10, 1000); (1001, 1000, 1000); (29, 100, 1000);
   (23, 10, 1000); (1, 3, 3); (2, 3, 3600); (1, 10, 60); (7, 60, 60);
   (359999, 3600, 3600); (9007199254740993, 1, 3); (9007199254740995, 2, 1);
   (1, 9007199254740993, 7); (123456789, 987654321, 1000);
   (2 ^ 1023, 1, 2); (2 ^ 1023, 3, 6); (1, 2 ^ 1074, 1); (1, 2 ^ 1075, 1);
   (3, 2 ^ 1075, 1); (5, 2 ^ 1076, 3); (-3661001, 1000, 1000); (-1, 3, -3);
   (0, 5, 7); (4503599627370497, 4503599627370496, 4503599627370497)].


(* ===================================================================== *)
(** ** Sample inputs and scripted collaborators *)
(* ===================================================================== *)

(** A world that only counts the calls made into it. *)
#[local] Instance counter_world : World nat :=
  {| elapse := fun _ w => w; Date_now := fun w => 1700000000000 + Z.of_nat w |}.

(** An operation that fails on its first [failures] calls. *)
Definition flaky_operation (failures : nat) (w : nat) : (thrown + string) * nat :=
  if (w <? failures)%nat then (inl (JsError "transient failure"), S w)
  else (inr "uploaded", S w).

Definition word (text start_ end_ : string) : Item :=
  {| item_type := "pronunciation"; start_time := Some start_; end_time := Some end_;
     alternatives := [ {| content := text |} ] |}.

Definition mark (text : string) : Item :=
  {| item_type := "punctuation"; start_time := None; end_time := None;
     alternatives := [ {| content := text |} ] |}.

(** The transcript of the end-to-end example of the specification. *)
Definition hello_items : list Item := [word "Hello" "0.0" "0.5"; mark "."].

Definition hello_transcript : TranscriptData :=
  {| results := Some {| transcripts := Some [ {| transcript := "Hello." |} ];
                        items := Some hello_items |} |}.

(** A pronunciation item and a punctuation mark of empty content, then a
    word. *)
Definition blank_then_word : list Item :=
  [word "" "1" "2"; mark ""; word "Hi" "3" "4"; mark "."].

Definition sample_result : TranscribeResult :=
  {| srtContent := render_subtitle
       {| sub_index := 1; sub_start := "00:00:00,000"; sub_end := "00:00:00,500";
          sub_text := "Hello." |};
     duration := "0:00";
     rawTranscriptData := None |}.

Definition sample_file (modified : Z) : File :=
  {| file_name := "talk.MP3"; file_type := "audio/mpeg"; file_size := 4096;
     lastModified := modified |}.

Definition job_with (status : string) (reason uri : option string) : GetTranscriptionJobResponse :=
  {| TranscriptionJob_ :=
       Some {| TranscriptionJobStatus := Some status;
               FailureReason := reason;
               Transcript := match uri with
                             | Some u => Some {| TranscriptFileUri := Some u |}
                             | None => None
                             end |} |}.

(** Everything works: the job is in progress on the first poll and
    completed on the second. *)
Definition happy_platform : Platform nat := {|
  config_bucket := "media";
  s3_upload := fun _ w => (inr tt, S w);
  startTranscriptionJob := fun _ w => (inr tt, S w);
  getTranscriptionJob := fun _ w =>
    (inr (if (w <? 3)%nat then job_with "IN_PROGRESS" None None
          else job_with "COMPLETED" None
                 (Some "https://s3.eu-west-1.amazonaws.com/media/job-1.json")),
     S w);
  s3_getObject := fun _ _ w => (inr {| ObjectBody := Some "{...}" |}, S w);
  URL_pathname := fun _ => inr "/media/job-1.json";
  JSON_parse := fun _ => inr hello_transcript
|}.

(** The object store refuses every upload. *)
Definition upload_down_platform : Platform nat := {|
  config_bucket := "media";
  s3_upload := fun _ w => (inl (JsError "Network Failure"), S w);
  startTranscriptionJob := fun _ w => (inr tt, S w);
  getTranscriptionJob := fun _ w => (inr (job_with "IN_PROGRESS" None None), S w);
  s3_getObject := fun _ _ w => (inr {| ObjectBody := None |}, S w);
  URL_pathname := fun _ => inr "/media/job-1.json";
  JSON_parse := fun _ => inr hello_transcript
|}.

(** The provider reports the job as failed on every poll. *)
Definition job_failed_platform : Platform nat := {|
  config_bucket := "media";
  s3_upload := fun _ w => (inr tt, S w);
  startTranscriptionJob := fun _ w => (inr tt, S w);
  getTranscriptionJob := fun _ w =>
    (inr (job_with "FAILED" (Some "Unsupported audio format") None), S w);
  s3_getObject := fun _ _ w => (inr {| ObjectBody := None |}, S w);
  URL_pathname := fun _ => inr "/media/job-1.json";
  JSON_parse := fun _ => inr hello_transcript
|}.

(** The first status query fails, the second one reports the job as
    completed. *)
Definition flaky_status_platform : Platform nat := {|
  config_bucket := "media";
  s3_upload := fun _ w => (inr tt, S w);
  startTranscriptionJob := fun _ w => (inr tt, S w);
  getTranscriptionJob := fun _ w =>
    (if (w <? 1)%nat then inl (JsError "Throttling")
     else inr (job_with "COMPLETED" None (Some "https://s3.amazonaws.com/media/job-1.json")),
     S w);
  s3_getObject := fun _ _ w => (inr {| ObjectBody := None |}, S w);
  URL_pathname := fun _ => inr "/media/job-1.json";
  JSON_parse := fun _ => inr hello_transcript
|}.

Definition initial_state : @state nat := mkState 0%nat [].

(** A transcript whose only item is a comma. *)
Definition comma_results : Results :=
  {| transcripts := Some [ {| transcript := "Hello." |} ]; items := Some [mark ","] |}.

Definition comma_transcript : TranscriptData := {| results := Some comma_results |}.

Definition two_sentences : list Item := (hello_items ++ hello_items)%list.

(* ===================================================================== *)
(** ** The file fingerprint (generateFileHash) *)
(* ===================================================================== *)

(** A digit of [Number.prototype.toString(16)]. *)
Definition hex_digit (n : N) : ascii :=
  nth (N.to_nat n) (list_ascii_of_string "0123456789abcdef") "0"%char.

(** [b.toString(16)] for an element [b] of a [Uint8Array]. *)
Definition byte_toString16 (b : Byte.byte) : string :=
  let n := Byte.to_N b in
  if (n <? 16)%N then String (hex_digit n) ""
  else String (hex_digit (n / 16)) (String (hex_digit (n mod 16)) "").

(** [Array.from(new Uint8Array(hashBuffer))
      .map(b => b.toString(16).padStart(2, '0')).join('')] *)
Definition hex_of_digest (hashBuffer : list Byte.byte) : string :=
  join "" (map (fun b => padStart 2 "0" (byte_toString16 b)) hashBuffer).

(** [digest] stands for [crypto.subtle.digest('SHA-256', ·)], [buffer] for
    the content of the file. *)
Definition generateFileHash (digest : list Byte.byte -> list Byte.byte)
    (buffer : list Byte.byte) : string :=
  hex_of_digest (digest buffer).

(** Reading a hexadecimal rendering back. *)
Definition hex_value (c : ascii) : option N :=
  let n := N_of_ascii c in
  if ((48 <=? n) && (n <=? 57))%N then Some (n - 48)%N
  else if ((97 <=? n) && (n <=? 102))%N then Some (n - 87)%N
  else None.

Fixpoint bytes_of_hex (s : string) : option (list Byte.byte) :=
  match s with
  | EmptyString => Some []
  | String c1 (String c2 r) =>
      match hex_value c1, hex_value c2, bytes_of_hex r with
      | Some a, Some b, Some l =>
          match Byte.of_N (16 * a + b) with
          | Some x => Some (x :: l)
          | None => None
          end
      | _, _, _ => None
      end
  | String _ EmptyString => None
  end.

Definition is_lower_hex (c : ascii) : bool :=
  match hex_value c with Some _ => true | None => false end.

(** A stand-in for a digest function: 32 bytes that depend on the first
    byte of the content only. *)
Definition toy_digest (buffer : list Byte.byte) : list Byte.byte :=
  repeat (hd Byte.x00 buffer) 32.

(* ===================================================================== *)
(** ** The result card (TranscriptionResult.tsx) *)
(* ===================================================================== *)

Definition is_line_feed (c : ascii) : bool := Ascii.eqb c (ascii_of_nat 10).

(** [srtContent.split('\n\n').length - 1], the number of subtitles that the
    card shows: the occurrences of two line feeds, found from the left
    without overlap. *)
Fixpoint subtitles_generated (srtContent : string) : nat :=
  match srtContent with
  | String c1 ((String c2 r) as t) =>
      if is_line_feed c1 && is_line_feed c2 then S (subtitles_generated r)
      else subtitles_generated t
  | _ => 0%nat
  end.

(** A text without a line feed. *)
Definition one_line (s : string) : bool :=
  forallb (fun c => negb (is_line_feed c)) (list_ascii_of_string s).

Definition one_line_subtitle (s : Subtitle) : bool :=
  one_line (sub_start s) && one_line (sub_end s) && one_line (sub_text s).

(** The rest of the output after a block: empty, or a line that is not
    empty first. *)
Definition starts_line (s : string) : Prop :=
  s = "" \/ exists x r, one_line x = true /\ x <> "" /\ s = x +++ r.

(** [srtContent.split('\n')], the lines that the card shows, and
    [index % 4 === 1], the lines it shows in the muted colour. *)
Definition card_lines (srtContent : string) : list string :=
  split (ascii_of_nat 10) srtContent.

Definition muted (index : nat) : bool := (index mod 4 =? 1)%nat.

(** The four lines of a block. *)
Definition lines_of_subtitle (s : Subtitle) : list string :=
  [Z_toString (sub_index s); sub_start s +++ " --> " +++ sub_end s; sub_text s; ""].

(** The names of the two downloads. *)
(** [`${fileName.split('.')[0]}.srt`] *)
Definition srt_download_name (fileName : string) : string :=
  match split "." fileName with
  | first :: _ => first +++ ".srt"
  | [] => "undefined.srt"
  end.

(** [`${fileName.replace(/\.[^/.]+$/, '')}.json`] *)
Definition json_download_name (fileName : string) : string :=
  strip_extension fileName +++ ".json".

(* ===================================================================== *)
(** ** The page (Index) *)
(* ===================================================================== *)

(** The state of the page component. *)
Record PageState : Type := {
  selectedFile : option File;
  isProcessing : bool;
  transcriptionResult : option TranscribeResult;
  selectedLanguage : string
}.

(** [error instanceof Error ? error.message : 'Failed to transcribe audio file'] *)
Definition page_error_text (error : thrown) : string :=
  match error with
  | JsError message => message
  | JsValue _ => "Failed to transcribe audio file"
  end.

Section Page.
Context {W : Type} `{World W} `{Platform W}.

Local Open Scope js_scope.

(** const handleFileSelected = async (file) => ...: the state of the page
    once the handler has run, [finally] included.  The three updates before
    the [try] (the file selected, the result cleared, the processing flag
    set) are what the page shows while the call runs. *)
Definition handleFileSelected (file : File) (page : PageState) : M PageState :=
  let settled (r : option TranscribeResult) :=
    {| selectedFile := Some file; isProcessing := false;
       transcriptionResult := r; selectedLanguage := selectedLanguage page |} in
  try_catch
    (result <- transcribeAudio file (selectedLanguage page) ;;
     emit (ToastSuccess "Transcription completed successfully") ;;;
     ret (settled (Some result)))
    (fun error =>
       emit (TranscriptionError error) ;;;
       emit (ToastError (page_error_text error)) ;;;
       ret (settled None)).

End Page.

Definition initial_page : PageState :=
  {| selectedFile := None; isProcessing := false; transcriptionResult := None;
     selectedLanguage := "ta-IN" |}.

(* ===================================================================== *)
(** ** More definitions that the statements use *)
(* ===================================================================== *)


(** The waits a trace records, in order, and their sum. *)
Definition sleeps (tr : list event) : list Z :=
  flat_map (fun e => match e with Sleep ms => [ms] | _ => [] end) tr.

Definition total (l : list Z) : Z := fold_right Z.add 0 l.

(** The errors of the failed calls of the operation that a trace records. *)
Definition failures (tr : list event) : list thrown :=
  flat_map (fun e => match e with Invoked (Some x) => [x] | _ => [] end) tr.

(** An item whose first alternative the walk reads, and one that has
    none. *)
Definition reads_content (item : Item) : bool :=
  is_pronunciation item || is_punctuation item.

Definition lacks_content (item : Item) : bool :=
  reads_content item && match alternatives item with [] => true | _ :: _ => false end.

Definition content_TypeError : thrown :=
  JsError "Cannot read properties of undefined (reading 'content')".

(** A punctuation item that ends a sentence. *)
Definition sentence_end (item : Item) : bool :=
  match isEndOfSentence item with
  | inr b => b
  | inl _ => false
  end.

Definition items_or_none (res : Results) : list Item :=
  match items res with Some l => l | None => [] end.

(** A number that is not [NaN] and not negative. *)
Definition not_negative (x : number) : Prop :=
  match x with
  | Fin q => (0 <= q)%Q /\ representable q
  | Inf negative => negative = false
  | NaN => False
  end.

(** The [forEach] body of the duration: the new value of [maxEndTime]. *)
Definition later_end (maxEndTime : number) (item : Item) : number :=
  if truthy (end_time item) && gt (parseFloat (or_empty (end_time item))) maxEndTime
  then parseFloat (or_empty (end_time item)) else maxEndTime.

(** Items that end at the given times. *)
Definition items_ending (ends : list string) : list Item :=
  map (fun e => word "w" "0" e) ends.

Definition results_ending (ends : list string) : Results :=
  {| transcripts := None; items := Some (items_ending ends) |}.

Definition items_with_ends (ends : list string) : TranscriptData :=
  {| results := Some (results_ending ends) |}.


Definition last_event (tr : list event) : option event :=
  List.last (map Some tr) None.

(** What an observer sees when every upload attempt fails with [error]. *)
Definition upload_failure_trace (file : File) (message : string) : list event :=
  let error := JsError message in
  [ToastInfo "Uploading audio to AWS S3...";
   Invoked (Some error); OperationFailed 1 3 error; Sleep 1000;
   Invoked (Some error); OperationFailed 2 3 error; Sleep 2000;
   Invoked (Some error); OperationFailed 3 3 error;
   TranscriptionError error;
   ToastError ("AWS Transcribe API error. Using simulation for demo. Error: " +++ message);
   FileDetails (file_name file) (file_type file) (file_size file) (lastModified file);
   Sleep 2000].

(** A text that neither starts nor ends with white space. *)
Definition starts_white (s : string) : bool :=
  match s with
  | String c _ => is_white c
  | EmptyString => false
  end.

Fixpoint ends_white (s : string) : bool :=
  match s with
  | EmptyString => false
  | String c EmptyString => is_white c
  | String _ r => ends_white r
  end.

(** An item whose content, the one of its first alternative, is made of
    characters that satisfy [P]; an item whose content holds no line
    feed. *)
Definition content_all (P : ascii -> bool) (item : Item) : bool :=
  match alternatives item with
  | a :: _ => forallb P (list_ascii_of_string (content a))
  | [] => true
  end.

Definition one_line_item (item : Item) : bool :=
  match alternatives item with
  | a :: _ => one_line (content a)
  | [] => true
  end.

(* ===================================================================== *)
(** ** The calls of a run *)
(* ===================================================================== *)

(** The calls that a run makes into the object store and into the
    transcription service: the parameters of each upload and of each
    request to start a job, the job name of each status query with its
    answer, when it had one, and the bucket and the key of each read. *)
Record Calls : Type := {
  uploads : list UploadParams;
  jobs : list TranscriptionParams;
  queries : list (string * option GetTranscriptionJobResponse);
  reads : list (string * string)
}.

Definition no_calls : Calls := {| uploads := []; jobs := []; queries := []; reads := [] |}.

(** A world together with the calls made into it so far. *)
Record Recorder (W : Type) : Type := { inner : W; calls : Calls }.
Arguments inner {W} _.
Arguments calls {W} _.

Definition recording {W : Type} (w : W) : Recorder W := {| inner := w; calls := no_calls |}.

Section Recording.
Context {W : Type} `{World W} `{Platform W}.

Definition recorder_world : World (Recorder W) := {|
  elapse := fun ms r => {| inner := elapse ms (inner r); calls := calls r |};
  Date_now := fun r => Date_now (inner r)
|}.

Definition answer_of {A : Type} (outcome : thrown + A) : option A :=
  match outcome with inr a => Some a | inl _ => None end.

(** Any platform, with every call written down before it is passed on. *)
Definition recording_platform : Platform (Recorder W) := {|
  config_bucket := config_bucket;
  s3_upload := fun params r =>
    let '(outcome, w) := s3_upload params (inner r) in
    (outcome,
     {| inner := w;
        calls := {| uploads := uploads (calls r) ++ [params]; jobs := jobs (calls r);
                    queries := queries (calls r); reads := reads (calls r) |} |});
  startTranscriptionJob := fun params r =>
    let '(outcome, w) := startTranscriptionJob params (inner r) in
    (outcome,
     {| inner := w;
        calls := {| uploads := uploads (calls r); jobs := jobs (calls r) ++ [params];
                    queries := queries (calls r); reads := reads (calls r) |} |});
  getTranscriptionJob := fun name r =>
    let '(outcome, w) := getTranscriptionJob name (inner r) in
    (outcome,
     {| inner := w;
        calls := {| uploads := uploads (calls r); jobs := jobs (calls r);
                    queries := queries (calls r) ++ [(name, answer_of outcome)];
                    reads := reads (calls r) |} |});
  s3_getObject := fun bucket key r =>
    let '(outcome, w) := s3_getObject bucket key (inner r) in
    (outcome,
     {| inner := w;
        calls := {| uploads := uploads (calls r); jobs := jobs (calls r);
                    queries := queries (calls r);
                    reads := reads (calls r) ++ [(bucket, key)] |} |});
  URL_pathname := URL_pathname;
  JSON_parse := JSON_parse
|}.

End Recording.

(** The upload and the job that transcribeAudio asks for, for a file, a
    language, a bucket and the two readings of the clock. *)
Definition upload_of (bucket : string) (t0 : Z) (file : File) : UploadParams :=
  {| Bucket := bucket;
     Key := "transcription-inputs/" +++ Z_toString t0 +++ "-" +++ file_name file;
     Body := file;
     ContentType := file_type file |}.

Definition job_of (bucket : string) (t0 t1 : Z) (file : File) (language : string)
    : TranscriptionParams :=
  {| TranscriptionJobName := "job-" +++ Z_toString t1;
     Language := if String.eqb language "auto"
                 then IdentifyLanguage ["ta-IN"; "en-US"; "hi-IN"]
                 else LanguageCode language;
     MediaFormat := mediaFormat (file_name file);
     MediaFileUri := "s3://" +++ bucket +++ "/" +++ Key (upload_of bucket t0 file);
     OutputBucketName := bucket |}.





(* ===================================================================== *)
(** ** Transcripts made of sentences *)
(* ===================================================================== *)

(** A spoken word with its two time stamps, a token of a sentence after its
    first word (a word or a mark that does not end the sentence), and a
    sentence: a first word, more tokens and the mark that ends it. *)
Record Word : Type := { word_text : string; word_start : string; word_end : string }.

Inductive Token : Type :=
| TWord (w : Word)
| TMark (c : string).

Record Sentence : Type := {
  first_word : Word;
  more_tokens : list Token;
  terminator : string
}.

Definition word_item (w : Word) : Item := word (word_text w) (word_start w) (word_end w).

Definition token_item (t : Token) : Item :=
  match t with
  | TWord w => word_item w
  | TMark c => mark c
  end.

Definition items_of_sentence (s : Sentence) : list Item :=
  word_item (first_word s) :: (map token_item (more_tokens s) ++ [mark (terminator s)])%list.

(** A text that [trim] leaves as it is and that is not empty.  A word or
    a mark is well formed when its text is such a text of the ASCII range
    and, for a word, both time stamps are present. *)
Definition solid (c : string) : bool :=
  match c with
  | String x _ => negb (is_white x) && String.eqb (trimEnd c) c
  | EmptyString => false
  end.

Definition well_formed_word (w : Word) : bool :=
  solid (word_text w) && ascii_text (word_text w)
  && negb (String.eqb (word_start w) "") && negb (String.eqb (word_end w) "").

Definition well_formed_token (t : Token) : bool :=
  match t with
  | TWord w => well_formed_word w
  | TMark c => solid c && ascii_text c && negb (ends_sentence c)
  end.

Definition well_formed (s : Sentence) : bool :=
  well_formed_word (first_word s) && forallb well_formed_token (more_tokens s)
  && ends_sentence (terminator s).

(** The text of a line: a word follows a word after one space, and follows
    a mark directly; a mark follows directly. *)
Fixpoint line_of (line : string) (spaced : bool) (toks : list Token) : string :=
  match toks with
  | [] => line
  | TWord w :: r => line_of (line +++ (if spaced then " " else "") +++ word_text w) true r
  | TMark c :: r => line_of (line +++ c) false r
  end.

Fixpoint last_word (w : Word) (toks : list Token) : Word :=
  match toks with
  | [] => w
  | TWord w' :: r => last_word w' r
  | TMark _ :: r => last_word w r
  end.

Definition sentence_text (s : Sentence) : string :=
  line_of (word_text (first_word s)) true (more_tokens s) +++ terminator s.

Definition subtitle_of_sentence (index : Z) (s : Sentence) : Subtitle :=
  {| sub_index := index;
     sub_start := formatSrtTime (parseFloat (word_start (first_word s)));
     sub_end := formatSrtTime
                  (parseFloat (word_end (last_word (first_word s) (more_tokens s))));
     sub_text := sentence_text s |}.

Fixpoint subtitles_of (index : Z) (l : list Sentence) : list Subtitle :=
  match l with
  | [] => []
  | s :: r => subtitle_of_sentence index s :: subtitles_of (index + 1) r
  end.

Definition transcript_of (ts : list FullTranscript) (l : list Sentence) : TranscriptData :=
  {| results := Some {| transcripts := Some ts;
                        items := Some (flat_map items_of_sentence l) |} |}.

Definition hello_world : Sentence :=
  {| first_word := {| word_text := "Hello"; word_start := "0.0"; word_end := "0.5" |};
     more_tokens := [TMark ","; TWord {| word_text := "world"; word_start := "0.6";
                                         word_end := "1.25" |}];
     terminator := "." |}.

(** The white space at the end of the line under construction. *)
Definition pad_of (spaced : bool) : string := if spaced then " " else "".

Fixpoint spaced_after (spaced : bool) (toks : list Token) : bool :=
  match toks with
  | [] => spaced
  | TWord _ :: r => spaced_after true r
  | TMark _ :: r => spaced_after false r
  end.

(* ===================================================================== *)
(** ** Proofs: strings *)
(* ===================================================================== *)

Section StringFacts.

Lemma append_cons (x : ascii) (a b : string) : String x a +++ b = String x (a +++ b).
Proof. reflexivity. Qed.

Lemma append_empty_l (a : string) : "" +++ a = a.
Proof. reflexivity. Qed.

Lemma append_assoc (a b c : string) : (a +++ b) +++ c = a +++ (b +++ c).
Proof.
  induction a as [|x a IH]; [reflexivity|].
  now rewrite !append_cons, IH.
Qed.

Lemma append_empty_r (a : string) : a +++ "" = a.
Proof.
  induction a as [|x a IH]; [reflexivity|].
  now rewrite append_cons, IH.
Qed.

Lemma append_eq_empty (a b : string) : a +++ b = "" -> a = "" /\ b = "".
Proof.
  destruct a as [|x a]; [now rewrite append_empty_l|].
  rewrite append_cons. discriminate.
Qed.





Lemma truthy_Some (v : option string) :
  truthy v = true -> v = Some (or_empty v) /\ or_empty v <> "".
Proof.
  destruct v as [s|]; cbn; [|discriminate].
  intros Hs. split; [reflexivity|].
  intros ->. discriminate.
Qed.

Lemma concat_all_app (a b : list string) :
  concat_all (a ++ b) = concat_all a +++ concat_all b.
Proof.
  induction a as [|x a IH]; [reflexivity|].
  cbn [concat_all app]. now rewrite IH, append_assoc.
Qed.

Lemma render_subtitle_not_empty (s : Subtitle) : render_subtitle s <> "".
Proof.
  unfold render_subtitle. intros Hempty.
  repeat (apply append_eq_empty in Hempty as [_ Hempty]).
  discriminate.
Qed.

End StringFacts.

(* ===================================================================== *)
(** ** Proofs: the format converter *)
(* ===================================================================== *)

Section ConverterFacts.

(** What a flush does to the output text and to the counter. *)
Lemma flush_emitted (i : nat) (boundary : bool) (st st' : LoopState) (b : Block) :
  flush i boundary st = (st', Some b) ->
  ls_srtContent st' = ls_srtContent st +++ render_block b /\
  blk_index b = ls_index st /\ blk_at b = i /\
  ls_index st' = ls_index st + 1 /\
  ls_currentLine st' = "" /\ ls_startTime st' = Some "" /\
  ls_endTime st' = ls_endTime st /\
  ls_startTime st = Some (blk_startTime b) /\
  ls_endTime st = Some (blk_endTime b) /\
  blk_startTime b <> "" /\ blk_endTime b <> "".
Proof.
  unfold flush.
  destruct (boundary && truthy (ls_startTime st) && truthy (ls_endTime st)) eqn:Hcond;
    [|discriminate].
  apply andb_prop in Hcond as [Hcond Hend].
  apply andb_prop in Hcond as [_ Hstart].
  apply truthy_Some in Hstart as [Hstart Hstart'].
  apply truthy_Some in Hend as [Hend Hend'].
  intros [= <- <-]. cbn.
  repeat split; try assumption.
  unfold render_block, render_subtitle, subtitle_of_block. cbn.
  now rewrite !append_assoc.
Qed.

Lemma flush_silent (i : nat) (boundary : bool) (st st' : LoopState) :
  flush i boundary st = (st', None) -> st' = st.
Proof.
  unfold flush.
  destruct (boundary && truthy (ls_startTime st) && truthy (ls_endTime st));
    [discriminate | now intros [= <-]].
Qed.

(** Accumulating an item changes neither the output text nor the counter. *)
Lemma accumulate_keeps (item : Item) (st st1 : LoopState) :
  accumulate item st = inr st1 ->
  ls_srtContent st1 = ls_srtContent st /\ ls_index st1 = ls_index st.
Proof.
  unfold accumulate.
  destruct (is_pronunciation item); [|destruct (is_punctuation item)];
    try destruct (first_content item); try discriminate;
    intros [= <-]; auto.
Qed.

Lemma consecutive_seq (l : list Z) (a : nat) :
  consecutive (Z.of_nat a) l -> l = map Z.of_nat (seq a (List.length l)).
Proof.
  revert a. induction l as [|x l IH]; intros a; cbn; [reflexivity|].
  intros [-> Hrest]. f_equal. apply IH.
  now replace (Z.of_nat (S a)) with (Z.of_nat a + 1) by lia.
Qed.

(** The loop appends the rendering of the emitted blocks, numbered from the
    counter on without a gap. *)
Lemma convert_loop_output (len : nat) (rest : list Item) :
  forall (i : nat) (st st' : LoopState) (blocks : list Block),
    convert_loop len i rest st = inr (st', blocks) ->
    ls_srtContent st' = ls_srtContent st +++ concat_all (map render_block blocks) /\
    consecutive (ls_index st) (map blk_index blocks).
Proof.
  induction rest as [|item rest IH]; intros i st st' blocks; cbn [convert_loop].
  - intros [= <- <-]. cbn. now rewrite append_empty_r.
  - unfold convert_step.
    destruct (accumulate item st) as [e|st1] eqn:Hacc; [discriminate|].
    destruct (isEndOfSentence item) as [e|eos]; [discriminate|].
    destruct (flush i (eos || (S i =? len)%nat) st1) as [st2 emitted] eqn:Hflush.
    destruct (convert_loop len (S i) rest st2) as [e|[st3 blocks']] eqn:Hloop;
      [discriminate|].
    intros [= <- <-].
    apply accumulate_keeps in Hacc as [Hsrt Hidx].
    apply IH in Hloop as [Hout Hnum].
    destruct emitted as [b|].
    + apply flush_emitted in Hflush
        as (Hsrt2 & Hb & _ & Hidx2 & _).
      cbn [map concat_all consecutive]. split.
      * rewrite Hout, Hsrt2, Hsrt. now rewrite append_assoc.
      * rewrite Hb, Hidx. split; [reflexivity|]. now rewrite <- Hidx, <- Hidx2.
    + apply flush_silent in Hflush. subst st2.
      rewrite Hout, Hsrt, <- Hidx. auto.
Qed.

Lemma walk_output (its : list Item) (st : LoopState) (blocks : list Block) :
  walk its = inr (st, blocks) ->
  ls_srtContent st = concat_all (map render_block blocks) /\
  map blk_index blocks = map Z.of_nat (seq 1 (List.length blocks)).
Proof.
  unfold walk. intros Hwalk.
  apply convert_loop_output in Hwalk as [Hout Hnum]. cbn in Hout, Hnum.
  split; [exact Hout|].
  apply (consecutive_seq _ 1) in Hnum. now rewrite length_map in Hnum.
Qed.

Lemma walk_silent (its : list Item) (st : LoopState) (blocks : list Block) :
  walk its = inr (st, blocks) ->
  (ls_srtContent st = "" <-> blocks = []).
Proof.
  intros Hwalk. apply walk_output in Hwalk as [Hout _]. rewrite Hout.
  destruct blocks as [|b blocks]; cbn; [tauto|].
  split; [|discriminate].
  intros Hempty. apply append_eq_empty in Hempty as [Hempty _].
  now apply render_subtitle_not_empty in Hempty.
Qed.

(** Items that all have a first alternative are walked without a throw. *)
Lemma convert_loop_returns (len : nat) (rest : list Item) :
  Forall (fun item => alternatives item <> []) rest ->
  forall (i : nat) (st : LoopState),
    exists st' blocks, convert_loop len i rest st = inr (st', blocks).
Proof.
  induction 1 as [|item rest Hitem _ IH]; intros i st; cbn [convert_loop].
  - eauto.
  - unfold convert_step, accumulate, isEndOfSentence, first_content.
    destruct (alternatives item) as [|a alts]; [contradiction|].
    destruct (is_pronunciation item), (is_punctuation item);
      match goal with
      | |- context [flush ?i ?b ?s] => destruct (flush i b s) as [st2 emitted]
      end;
      destruct (IH (S i) st2) as (st' & blocks & ->); eauto.
Qed.

End ConverterFacts.


Section NumberFacts.
Local Open Scope Q_scope.

Lemma Qpow2_power (e : Z) : Qpow2 e == 2 ^ e.
Proof.
  unfold Qpow2. destruct (Z.leb_spec 0 e) as [Hpos|Hneg].
  - now rewrite Zpower_Qpower.
  - assert (Hp : (0 < 2 ^ (- e))%Z) by (apply Z.pow_pos_nonneg; lia).
    replace e with (- - e)%Z at 2 by lia.
    assert (Hz : inject_Z (2 ^ (- e)) == 2 ^ (- e)) by (apply (Zpower_Qpower 2); lia).
    rewrite Qpower_opp, <- Hz.
    destruct (2 ^ (- e))%Z as [|p|p] eqn:Hpow; try lia.
    reflexivity.
Qed.

Lemma Qpow2_pos (e : Z) : 0 < Qpow2 e.
Proof. rewrite Qpow2_power. now apply Qpower_0_lt. Qed.

Lemma Qpow2_add (a b : Z) : Qpow2 (a + b) == Qpow2 a * Qpow2 b.
Proof. rewrite !Qpow2_power. now apply Qpower_plus. Qed.

Lemma Qpow2_le (a b : Z) : (a <= b)%Z -> Qpow2 a <= Qpow2 b.
Proof. intros Hab. rewrite !Qpow2_power. now apply Qpower_le_compat_l. Qed.

Lemma Qpow2_lt (a b : Z) : (a < b)%Z -> Qpow2 a < Qpow2 b.
Proof. intros Hab. rewrite !Qpow2_power. now apply Qpower_lt_compat_l. Qed.

Lemma Qpow2_lt_inv (a b : Z) : Qpow2 a < Qpow2 b -> (a < b)%Z.
Proof.
  rewrite !Qpow2_power. intros Hab. now apply (Qpower_lt_compat_l_inv 2).
Qed.

Lemma Qpow2_inject (e : Z) : (0 <= e)%Z -> Qpow2 e = inject_Z (2 ^ e).
Proof. intros He. unfold Qpow2. now destruct (Z.leb_spec 0 e); [|lia]. Qed.

Lemma Qpow2_cancel (a b : Z) : Qpow2 a / Qpow2 b == Qpow2 (a - b).
Proof.
  pose proof (Qpow2_pos b) as Hb.
  replace a with ((a - b) + b)%Z at 1 by lia.
  rewrite Qpow2_add. field. lra.
Qed.

(** [ilog2] finds the binade of a positive rational. *)
Lemma ilog2_spec (q : Q) : 0 < q -> Qpow2 (ilog2 q) <= q /\ q < Qpow2 (ilog2 q + 1).
Proof.
  intros Hq. destruct q as [n d].
  assert (Hn : (0 < n)%Z) by (unfold Qlt in Hq; cbn in Hq; lia).
  unfold ilog2. cbn [Qnum Qden].
  set (a := Z.log2 n). set (b := Z.log2 (Z.pos d)).
  destruct (Z.log2_spec n Hn) as [Hn1 Hn2]. fold a in Hn1, Hn2.
  destruct (Z.log2_spec (Z.pos d) ltac:(lia)) as [Hd1 Hd2]. fold b in Hd1, Hd2.
  assert (Ha : (0 <= a)%Z) by apply Z.log2_nonneg.
  assert (Hb : (0 <= b)%Z) by apply Z.log2_nonneg.
  rewrite Zle_Qle, <- (Qpow2_inject a) in Hn1 by lia.
  rewrite Zlt_Qlt, <- (Qpow2_inject (Z.succ a)) in Hn2 by lia.
  rewrite Zle_Qle, <- (Qpow2_inject b) in Hd1 by lia.
  rewrite Zlt_Qlt, <- (Qpow2_inject (Z.succ b)) in Hd2 by lia.
  pose proof (Qpow2_pos a) as Pa. pose proof (Qpow2_pos b) as Pb.
  pose proof (Qpow2_pos (Z.succ b)) as Psb.
  assert (Hq' : n # d == inject_Z n / inject_Z (Z.pos d)) by apply Qmake_Qdiv.
  assert (Hdpos : 0 < inject_Z (Z.pos d)) by (unfold Qlt; cbn; lia).
  assert (Hlow : Qpow2 (a - b - 1) <= n # d).
  { rewrite Hq'. apply Qle_shift_div_l; [assumption|].
    replace (a - b - 1)%Z with (a - Z.succ b)%Z by lia.
    rewrite <- Qpow2_cancel.
    set (x := Qpow2 a / Qpow2 (Z.succ b)).
    assert (Hx : 0 < x) by (apply Qlt_shift_div_l; lra).
    assert (Hxp : x * Qpow2 (Z.succ b) == Qpow2 a) by (unfold x; field; lra).
    apply Qle_trans with (x * Qpow2 (Z.succ b)); [|lra].
    apply Qmult_le_l; lra. }
  assert (Hup : n # d < Qpow2 (a - b + 1)).
  { rewrite Hq'. apply Qlt_shift_div_r; [assumption|].
    replace (a - b + 1)%Z with (Z.succ a - b)%Z by lia.
    rewrite <- Qpow2_cancel.
    set (x := Qpow2 (Z.succ a) / Qpow2 b).
    assert (Hx : 0 < x).
    { apply Qlt_shift_div_l; [lra|]. pose proof (Qpow2_pos (Z.succ a)). lra. }
    assert (Hxp : x * Qpow2 b == Qpow2 (Z.succ a)) by (unfold x; field; lra).
    apply Qlt_le_trans with (x * Qpow2 b); [lra|].
    apply Qmult_le_l; lra. }
  destruct (Qle_bool (Qpow2 (a - b)) (n # d)) eqn:Hcmp.
  - apply Qle_bool_iff in Hcmp. split; assumption.
  - split; [assumption|].
    replace (a - b - 1 + 1)%Z with (a - b)%Z by lia.
    apply Qnot_le_lt. intros Hle. apply Qle_bool_iff in Hle. congruence.
Qed.

Lemma ilog2_unique (q : Q) (p : Z) :
  Qpow2 p <= q -> q < Qpow2 (p + 1) -> ilog2 q = p.
Proof.
  intros Hlow Hup.
  assert (Hq : 0 < q) by (pose proof (Qpow2_pos p); lra).
  destruct (ilog2_spec q Hq) as [Hl Hu].
  assert (H1 : (ilog2 q < p + 1)%Z) by (apply Qpow2_lt_inv; lra).
  assert (H2 : (p < ilog2 q + 1)%Z) by (apply Qpow2_lt_inv; lra).
  lia.
Qed.

Lemma ilog2_le (q : Q) (k : Z) : 0 < q -> q <= Qpow2 k -> (ilog2 q <= k)%Z.
Proof.
  intros Hq Hk. destruct (ilog2_spec q Hq) as [Hl _].
  destruct (Z.le_gt_cases (ilog2 q) k) as [|Hgt]; [assumption|].
  apply Qpow2_lt in Hgt. lra.
Qed.


Lemma inject_Z_pred (n : Z) : inject_Z (n - 1) == inject_Z n - 1.
Proof. unfold Z.sub. rewrite inject_Z_plus, inject_Z_opp. reflexivity. Qed.

(** Rounding to the nearest integer stays below an integer bound. *)
Lemma round_half_even_nonneg (q : Q) : 0 <= q -> (0 <= round_half_even q)%Z.
Proof.
  intros Hq. unfold round_half_even.
  assert (Hf : (0 <= Qfloor q)%Z).
  { change 0%Z with (Qfloor 0). now apply Qfloor_resp_le. }
  destruct (q - inject_Z (Qfloor q) ?= 1 # 2); [destruct (Z.even (Qfloor q))| |]; lia.
Qed.

Lemma round_half_even_le (q : Q) (n : Z) :
  q <= inject_Z n -> (round_half_even q <= n)%Z.
Proof.
  intros Hq. unfold round_half_even.
  assert (Hf : (Qfloor q <= n)%Z).
  { rewrite <- (Qfloor_Z n). now apply Qfloor_resp_le. }
  pose proof (Qfloor_le q) as Hfq.
  destruct (Z.eq_dec (Qfloor q) n) as [Heq|Hne].
  - assert (Hlt : q - inject_Z (Qfloor q) < 1 # 2) by (rewrite Heq in *; lra).
    destruct (Qcompare_spec (q - inject_Z (Qfloor q)) (1 # 2)); [lra | lia | lra].
  - destruct (q - inject_Z (Qfloor q) ?= 1 # 2); [destruct (Z.even (Qfloor q))| |]; lia.
Qed.

Lemma round_half_even_lt (q : Q) (n : Z) :
  q < inject_Z n - (1 # 2) -> (round_half_even q <= n - 1)%Z.
Proof.
  intros Hq. unfold round_half_even.
  pose proof (Qfloor_le q) as Hfq.
  assert (Hf : (Qfloor q <= n - 1)%Z).
  { assert (Hlt : inject_Z (Qfloor q) < inject_Z n) by lra.
    rewrite <- Zlt_Qlt in Hlt. lia. }
  destruct (Z.eq_dec (Qfloor q) (n - 1)%Z) as [Heq|Hne].
  - assert (Hlt : q - inject_Z (Qfloor q) < 1 # 2).
    { rewrite Heq, inject_Z_pred. lra. }
    destruct (Qcompare_spec (q - inject_Z (Qfloor q)) (1 # 2)); [lra | lia | lra].
  - destruct (q - inject_Z (Qfloor q) ?= 1 # 2); [destruct (Z.even (Qfloor q))| |]; lia.
Qed.

Lemma round_half_even_Qeq (x y : Q) : x == y -> round_half_even x = round_half_even y.
Proof.
  intros Hxy.
  assert (Hf : Qfloor x = Qfloor y) by now rewrite Hxy.
  assert (Hc : (x - inject_Z (Qfloor x) ?= 1 # 2) = (y - inject_Z (Qfloor y) ?= 1 # 2))
    by now rewrite Hf, Hxy.
  unfold round_half_even. cbv zeta. now rewrite Hc, Hf.
Qed.

Lemma Qabs_of_pos (q : Q) : 0 < q -> Qabs q = q.
Proof.
  destruct q as [n d]. unfold Qlt. cbn. intros Hn.
  rewrite Z.abs_eq by lia. reflexivity.
Qed.

(** The result of rounding a positive rational whose scaled value rounds to
    at most [m], unless that overflows. *)
Lemma round64_bounded (q : Q) (m : Z) :
  0 < q ->
  (round_half_even (q / Qpow2 (ulp_exp q)) <= m)%Z ->
  inject_Z m * Qpow2 (ulp_exp q) < Qpow2 1024 ->
  exists v, round64 q = Fin v /\ 0 <= v /\ v <= inject_Z m * Qpow2 (ulp_exp q).
Proof.
  intros Hq Hm Hover. unfold round64.
  assert (Hgt : (q ?= 0) = Gt) by now apply Qgt_alt.
  rewrite Hgt, (Qabs_of_pos q Hq).
  set (e := ulp_exp q) in *. set (r := round_half_even (q / Qpow2 e)) in *.
  pose proof (Qpow2_pos e) as He.
  assert (Hr : (0 <= r)%Z).
  { apply round_half_even_nonneg, Qlt_le_weak, Qlt_shift_div_l; lra. }
  assert (Hr' : 0 <= inject_Z r) by (rewrite Zle_Qle in Hr; exact Hr).
  assert (Hrm : inject_Z r <= inject_Z m) by (rewrite <- Zle_Qle; exact Hm).
  assert (Hv : inject_Z r * Qpow2 e <= inject_Z m * Qpow2 e) by (apply Qmult_le_r; lra).
  destruct (Qle_bool (Qpow2 1024) (inject_Z r * Qpow2 e)) eqn:Hcmp.
  - apply Qle_bool_iff in Hcmp. lra.
  - eexists. split; [reflexivity|]. rewrite Qred_correct. split; [|exact Hv].
    apply Qmult_le_0_compat; lra.
Qed.

(** A positive rational at most [2^k] rounds to at most [2^k]. *)
Lemma round64_le_pow2 (q : Q) (k : Z) :
  0 < q -> q <= Qpow2 k -> (-1074 <= k < 1024)%Z ->
  exists v, round64 q = Fin v /\ 0 <= v /\ v <= Qpow2 k.
Proof.
  intros Hq Hk Hrange.
  assert (He : (ulp_exp q <= k)%Z).
  { unfold ulp_exp. pose proof (ilog2_le q k Hq Hk). lia. }
  pose proof (Qpow2_pos (ulp_exp q)) as Hpe.
  assert (Hscale : Qpow2 (k - ulp_exp q) * Qpow2 (ulp_exp q) == Qpow2 k).
  { rewrite <- Qpow2_add. now replace (k - ulp_exp q + ulp_exp q)%Z with k by lia. }
  destruct (round64_bounded q (2 ^ (k - ulp_exp q)) Hq) as (v & Hv & Hv0 & Hvk).
  - apply round_half_even_le. rewrite <- Qpow2_inject by lia.
    apply Qle_shift_div_r; [assumption|]. lra.
  - rewrite <- Qpow2_inject by lia. rewrite Hscale. apply Qpow2_lt. lia.
  - exists v. rewrite <- Qpow2_inject in Hvk by lia. repeat split; try assumption. lra.
Qed.

(** A rational in the binade of [2^p] whose multiple of the unit in the
    last place is more than a half below the integer [n] rounds to at
    most [n - 1] units. *)
Lemma round64_in_binade (q : Q) (p n : Z) :
  Qpow2 p <= q -> q < Qpow2 (p + 1) -> (-1022 <= p < 1023)%Z ->
  q * Qpow2 (52 - p) < inject_Z n - (1 # 2) ->
  inject_Z n <= Qpow2 53 ->
  exists v, round64 q = Fin v /\ 0 <= v /\ v <= inject_Z (n - 1) * Qpow2 (p - 52).
Proof.
  intros Hlow Hup Hp Hn Hn53.
  assert (Hq : 0 < q) by (pose proof (Qpow2_pos p); lra).
  assert (He : ulp_exp q = (p - 52)%Z).
  { unfold ulp_exp. rewrite (ilog2_unique q p Hlow Hup). lia. }
  pose proof (Qpow2_pos (p - 52)) as Hpe.
  assert (Hinv : q / Qpow2 (p - 52) == q * Qpow2 (52 - p)).
  { assert (Hone : Qpow2 (52 - p) * Qpow2 (p - 52) == 1).
    { rewrite <- Qpow2_add. now replace (52 - p + (p - 52))%Z with 0%Z by lia. }
    apply Qmult_inj_r with (Qpow2 (p - 52)); [lra|].
    rewrite <- Qmult_assoc, Hone. field. lra. }
  destruct (round64_bounded q (n - 1) Hq) as (v & Hv & Hv0 & Hvk).
  - rewrite He, (round_half_even_Qeq _ _ Hinv). now apply round_half_even_lt.
  - rewrite He.
    apply Qlt_le_trans with (Qpow2 53 * Qpow2 (p - 52)).
    + apply Qmult_lt_r; [assumption|].
      rewrite inject_Z_pred. lra.
    + rewrite <- Qpow2_add. apply Qpow2_le. lia.
  - exists v. rewrite He in Hvk. auto.
Qed.


(** A binary64 value of at least [2^k] is a multiple of [2^(k-52)]. *)
Lemma representable_grid (q : Q) (k : Z) :
  representable q -> Qpow2 k <= q ->
  exists z : Z, q == inject_Z z * Qpow2 (k - 52).
Proof.
  intros (m & e & Hq & Hm & He) Hk.
  pose proof (Qpow2_pos k) as Pk. pose proof (Qpow2_pos e) as Pe.
  assert (Hmq : inject_Z m < Qpow2 53).
  { rewrite (Qpow2_inject 53), <- Zlt_Qlt by lia. lia. }
  assert (Hlt : Qpow2 k < Qpow2 (53 + e)).
  { rewrite Qpow2_add. apply Qle_lt_trans with (inject_Z m * Qpow2 e); [lra|].
    apply Qmult_lt_r; assumption. }
  apply Qpow2_lt_inv in Hlt.
  exists (m * 2 ^ (e - (k - 52)))%Z.
  rewrite inject_Z_mult, <- Qpow2_inject, <- Qmult_assoc, <- Qpow2_add by lia.
  now replace (e - (k - 52) + (k - 52))%Z with e by lia.
Qed.

(** Subtracting an integer multiple of an integer [c] keeps a value on a
    grid finer than one. *)
Lemma grid_sub_multiple (q : Q) (z g c n : Z) :
  q == inject_Z z * Qpow2 g -> (g <= 0)%Z ->
  q - inject_Z c * inject_Z n == inject_Z (z - c * n * 2 ^ (- g)) * Qpow2 g.
Proof.
  intros Hq Hg.
  assert (Hone : Qpow2 (- g) * Qpow2 g == 1).
  { rewrite <- Qpow2_add. now replace (- g + g)%Z with 0%Z by lia. }
  unfold Z.sub at 1.
  rewrite inject_Z_plus, inject_Z_opp, !inject_Z_mult, <- Qpow2_inject by lia.
  rewrite Hq.
  setoid_replace (inject_Z c * inject_Z n)
    with (inject_Z c * inject_Z n * (Qpow2 (- g) * Qpow2 g)) using relation Qeq at 1
    by (rewrite Hone; ring).
  ring.
Qed.

(** A value on a grid finer than one that is below an integer is below it
    by a grid step at least. *)
Lemma grid_gap (x : Q) (z g n : Z) :
  x == inject_Z z * Qpow2 g -> (g <= 0)%Z -> x < inject_Z n ->
  x <= inject_Z n - Qpow2 g.
Proof.
  intros Hx Hg Hn.
  pose proof (Qpow2_pos g) as Pg.
  assert (Hone : Qpow2 (- g) * Qpow2 g == 1).
  { rewrite <- Qpow2_add. now replace (- g + g)%Z with 0%Z by lia. }
  assert (Hn' : inject_Z n == inject_Z (n * 2 ^ (- g)) * Qpow2 g).
  { rewrite inject_Z_mult, <- Qpow2_inject, <- Qmult_assoc, Hone by lia. ring. }
  assert (Hz : (z < n * 2 ^ (- g))%Z).
  { rewrite Zlt_Qlt. apply (Qmult_lt_r _ _ (Qpow2 g)); [assumption|]. lra. }
  assert (Hz' : inject_Z z <= inject_Z (n * 2 ^ (- g)) - 1).
  { rewrite <- inject_Z_pred, <- Zle_Qle. lia. }
  rewrite Hx, Hn'.
  setoid_replace (inject_Z (n * 2 ^ (- g)) * Qpow2 g - Qpow2 g)
    with ((inject_Z (n * 2 ^ (- g)) - 1) * Qpow2 g) using relation Qeq by ring.
  apply Qmult_le_r; assumption.
Qed.

(** [x % c] for a non-negative [x] and a positive [c]. *)
Lemma rem_nonneg (q c : Q) :
  0 <= q -> 0 < c ->
  exists r, rem (Fin q) (Fin c) = Fin r /\
            r == q - c * inject_Z (Qfloor (q / c)) /\ 0 <= r /\ r < c.
Proof.
  intros Hq Hc. unfold rem, is_zero, Qtrunc.
  assert (Hz : Qeq_bool c 0 = false).
  { destruct (Qeq_bool c 0) eqn:Hcmp; [|reflexivity].
    apply Qeq_bool_iff in Hcmp. lra. }
  assert (Hdiv : 0 <= q / c) by (apply Qle_shift_div_l; lra).
  assert (Hp : Qle_bool 0 (q / c) = true) by now apply Qle_bool_iff.
  rewrite Hz, Hp. eexists. split; [reflexivity|]. rewrite Qred_correct.
  split; [reflexivity|].
  pose proof (Qfloor_le (q / c)) as Hf1. pose proof (Qlt_floor (q / c)) as Hf2.
  rewrite inject_Z_plus in Hf2.
  assert (Hqc : q == q / c * c) by (field; lra).
  set (f := inject_Z (Qfloor (q / c))) in *.
  assert (H1 : f * c <= q / c * c) by (apply Qmult_le_r; lra).
  assert (H2 : q / c * c < (f + inject_Z 1) * c) by (apply Qmult_lt_r; lra).
  change (inject_Z 1) with 1 in H2. split; lra.
Qed.


Lemma round64_zero (y : Q) : y == 0 -> round64 y = Fin 0.
Proof.
  intros Hy. unfold round64. apply Qeq_alt in Hy.
  change (y ?= 0) with (Qcompare y 0). now rewrite Hy.
Qed.

Lemma floor_Fin_range (v : Q) (limit : Z) :
  0 <= v -> v < inject_Z limit ->
  exists z, floor (Fin v) = IInt z /\ (0 <= z <= limit - 1)%Z.
Proof.
  intros Hv Hlimit. exists (Qfloor v). split; [reflexivity|].
  pose proof (Qfloor_le v) as Hf.
  assert (H0 : (0 <= Qfloor v)%Z).
  { change 0%Z with (Qfloor 0). now apply Qfloor_resp_le. }
  assert (H1 : inject_Z (Qfloor v) < inject_Z limit) by lra.
  rewrite <- Zlt_Qlt in H1. lia.
Qed.

(** The floor of a rounded value [y] stays below [limit]: either [y] is at
    most [2^p], which is below [limit], or [y] is in the binade of [2^p]
    and far enough below [n] units in the last place. *)
Lemma floor_round64_range (y : Q) (p n limit : Z) :
  0 <= y -> y < Qpow2 (p + 1) ->
  (Qpow2 p < y -> y * Qpow2 (52 - p) < inject_Z n - (1 # 2)) ->
  inject_Z n <= Qpow2 53 ->
  Qpow2 p < inject_Z limit ->
  inject_Z (n - 1) * Qpow2 (p - 52) < inject_Z limit ->
  (-1022 <= p < 1023)%Z ->
  exists z, floor (round64 y) = IInt z /\ (0 <= z <= limit - 1)%Z.
Proof.
  intros Hy Hup Hfar Hn Hp Hlimit Hrange.
  destruct (Qlt_le_dec (Qpow2 p) y) as [Hbig|Hsmall].
  - destruct (round64_in_binade y p n) as (v & -> & Hv0 & Hv); auto; try lra.
    apply floor_Fin_range; lra.
  - destruct (Qlt_le_dec 0 y) as [Hpos|Hzero].
    + destruct (round64_le_pow2 y p Hpos Hsmall) as (v & -> & Hv0 & Hv); [lia|].
      apply floor_Fin_range; lra.
    + rewrite round64_zero by lra.
      apply floor_Fin_range; [lra|]. pose proof (Qpow2_pos p). lra.
Qed.

Lemma constants_exact :
  n3600 = Fin 3600 /\ n60 = Fin 60 /\ n1 = Fin 1 /\ n1000 = Fin 1000.
Proof. vm_compute. repeat split. Qed.

Lemma secs_range (q : Q) :
  0 <= q ->
  exists s, srt_secs (Fin q) = IInt s /\ (0 <= s <= 59)%Z /\
            inject_Z s <= q - 60 * inject_Z (Qfloor (q / 60)) /\
            q - 60 * inject_Z (Qfloor (q / 60)) < inject_Z s + 1.
Proof.
  intros Hq. unfold srt_secs.
  destruct constants_exact as (_ & -> & _ & _).
  destruct (rem_nonneg q 60 Hq) as (r & -> & Hr & Hr0 & Hr1); [lra|].
  destruct (floor_Fin_range r 60 Hr0 Hr1) as (s & Hs & Hrange).
  exists s. split; [exact Hs|]. split; [lia|].
  injection Hs as <-. rewrite <- Hr.
  pose proof (Qfloor_le r). pose proof (Qlt_floor r) as Hlt.
  rewrite inject_Z_plus in Hlt. change (inject_Z 1) with 1 in Hlt. lra.
Qed.

Lemma milliseconds_range (q : Q) :
  representable q -> 0 <= q ->
  exists ms, srt_milliseconds (Fin q) = IInt ms /\ (0 <= ms <= 999)%Z.
Proof.
  intros Hrep Hq. unfold srt_milliseconds.
  destruct constants_exact as (_ & _ & -> & ->).
  destruct (rem_nonneg q 1 Hq) as (r & -> & Hr & Hr0 & Hr1); [lra|].
  unfold mul.
  assert (E10 : Qpow2 (9 + 1) == 1024) by reflexivity.
  assert (E9 : Qpow2 9 == 512) by reflexivity.
  assert (E43 : Qpow2 (52 - 9) == 8796093022208) by reflexivity.
  assert (E43' : Qpow2 (9 - 52) == 1 # 8796093022208) by reflexivity.
  assert (E53 : Qpow2 53 == 9007199254740992) by reflexivity.
  assert (Hfar : Qpow2 9 < r * 1000 ->
                 r * 1000 * Qpow2 (52 - 9) < inject_Z (1000 * 8796093022208) - (1 # 2)).
  { intros Hbig. rewrite E9 in Hbig.
    assert (Hhalf : Qpow2 (-1) <= q).
    { change (Qpow2 (-1)) with (1 # 2).
      pose proof (Qfloor_le (q / 1)) as Hf.
      assert (0 <= inject_Z (Qfloor (q / 1))).
      { change 0 with (inject_Z 0). rewrite <- Zle_Qle.
        change 0%Z with (Qfloor 0). apply Qfloor_resp_le.
        apply Qle_shift_div_l; lra. }
      lra. }
    destruct (representable_grid q (-1) Hrep Hhalf) as (z & Hz).
    pose proof (grid_sub_multiple q z (-1 - 52) 1 (Qfloor (q / 1)) Hz ltac:(lia)) as Hgrid.
    change (inject_Z 1) with 1 in Hgrid. rewrite <- Hr in Hgrid.
    pose proof (grid_gap r _ (-1 - 52) 1 Hgrid ltac:(lia) Hr1) as Hgap.
    change (Qpow2 (-1 - 52)) with (1 # 9007199254740992) in Hgap.
    change (inject_Z 1) with 1 in Hgap.
    rewrite E43. change (inject_Z (1000 * 8796093022208)) with 8796093022208000. lra. }
  apply (floor_round64_range (r * 1000) 9 (1000 * 8796093022208) 1000).
  - lra.
  - rewrite E10. lra.
  - exact Hfar.
  - rewrite E53. change (inject_Z (1000 * 8796093022208)) with 8796093022208000. lra.
  - rewrite E9. change (inject_Z 1000) with 1000. lra.
  - rewrite E43'.
    change (inject_Z (1000 * 8796093022208 - 1)) with 8796093022207999.
    change (inject_Z 1000) with 1000. lra.
  - lia.
Qed.

Lemma round_half_even_ge (q : Q) (n : Z) :
  inject_Z n <= q -> (n <= round_half_even q)%Z.
Proof.
  intros Hq. unfold round_half_even.
  assert (Hf : (n <= Qfloor q)%Z).
  { rewrite <- (Qfloor_Z n). now apply Qfloor_resp_le. }
  destruct (q - inject_Z (Qfloor q) ?= 1 # 2); [destruct (Z.even (Qfloor q))| |]; lia.
Qed.

Lemma representable_opp (q : Q) : representable q -> representable (- q).
Proof.
  intros (m & e & Hq & Hm & He). exists (- m)%Z, e.
  rewrite inject_Z_opp, Hq. split; [ring | lia].
Qed.

(** The magnitude that [round64] computes for a positive rational is a
    binary64 value. *)
Lemma rounded_magnitude_representable (a : Q) :
  0 < a ->
  inject_Z (round_half_even (a / Qpow2 (ulp_exp a))) * Qpow2 (ulp_exp a) < Qpow2 1024 ->
  representable (inject_Z (round_half_even (a / Qpow2 (ulp_exp a))) * Qpow2 (ulp_exp a)).
Proof.
  intros Ha Hfinite.
  set (e := ulp_exp a) in *. set (r := round_half_even (a / Qpow2 e)) in *.
  pose proof (Qpow2_pos e) as Pe.
  destruct (ilog2_spec a Ha) as [Hlow Hup].
  assert (He : (ilog2 a - 52 <= e /\ -1074 <= e)%Z) by (unfold e, ulp_exp; lia).
  assert (Hscaled : a / Qpow2 e < Qpow2 53).
  { apply Qlt_shift_div_r; [assumption|]. rewrite <- Qpow2_add.
    apply Qlt_le_trans with (Qpow2 (ilog2 a + 1)); [assumption|].
    apply Qpow2_le. lia. }
  assert (Hr53 : (r <= 2 ^ 53)%Z).
  { apply round_half_even_le. rewrite <- Qpow2_inject by lia. lra. }
  assert (Hr0 : (0 <= r)%Z).
  { apply round_half_even_nonneg, Qlt_le_weak, Qlt_shift_div_l; lra. }
  destruct (Z.eq_dec r 0%Z) as [Hzero|Hnz].
  - exists 0%Z, 0%Z. rewrite Hzero. split; [ring | lia].
  - assert (Hr1 : 1 <= inject_Z r).
    { change 1 with (inject_Z 1). rewrite <- Zle_Qle. lia. }
    destruct (Z.eq_dec r (2 ^ 53)%Z) as [Htop|Hbelow].
    + (* the significand carried into the next binade *)
      assert (Hv : inject_Z r * Qpow2 e == Qpow2 (53 + e)).
      { rewrite Htop, <- Qpow2_inject, <- Qpow2_add by lia. reflexivity. }
      assert (He' : (53 + e < 1024)%Z) by (apply Qpow2_lt_inv; lra).
      exists (2 ^ 52)%Z, (e + 1)%Z.
      rewrite Hv, <- Qpow2_inject, <- Qpow2_add by lia.
      replace (52 + (e + 1))%Z with (53 + e)%Z by lia.
      split; [reflexivity | lia].
    + exists r, e. split; [reflexivity|]. split; [lia|]. split; [lia|].
      destruct (Z.le_gt_cases e 971%Z) as [|Hbig]; [assumption|].
      assert (Henorm : e = (ilog2 a - 52)%Z) by (unfold e, ulp_exp in *; lia).
      assert (Hr52 : (2 ^ 52 <= r)%Z).
      { apply round_half_even_ge. rewrite <- Qpow2_inject by lia.
        apply Qle_shift_div_l; [assumption|]. rewrite <- Qpow2_add.
        now replace (52 + e)%Z with (ilog2 a) by lia. }
      assert (Hv : Qpow2 (52 + e) <= inject_Z r * Qpow2 e).
      { rewrite Qpow2_add. apply Qmult_le_r; [assumption|].
        rewrite Qpow2_inject, <- Zle_Qle by lia. exact Hr52. }
      assert (Hcontra : Qpow2 (52 + e) < Qpow2 1024) by lra.
      apply Qpow2_lt_inv in Hcontra. lia.
Qed.

(** Every finite number that [round64] returns is a binary64 value. *)
Lemma round64_representable (q v : Q) : round64 q = Fin v -> representable v.
Proof.
  unfold round64.
  assert (Hred : forall x, representable x -> representable (Qred x)).
  { intros x (m & e & Hx & Hm). exists m, e. now rewrite Qred_correct. }
  assert (Hzero : representable 0).
  { exists 0%Z, 0%Z. split; [reflexivity | lia]. }
  assert (Hmag : forall (neg : bool) (a : Q),
             0 < a ->
             (if Qle_bool (Qpow2 1024)
                   (inject_Z (round_half_even (a / Qpow2 (ulp_exp a))) * Qpow2 (ulp_exp a))
              then Inf neg
              else Fin (Qred (if neg
                              then - (inject_Z (round_half_even (a / Qpow2 (ulp_exp a)))
                                      * Qpow2 (ulp_exp a))
                              else inject_Z (round_half_even (a / Qpow2 (ulp_exp a)))
                                   * Qpow2 (ulp_exp a)))) = Fin v ->
             representable v).
  { intros neg a Ha.
    destruct (Qle_bool (Qpow2 1024) _) eqn:Hover; [discriminate|].
    intros [= <-]. apply Hred.
    assert (Hfin : inject_Z (round_half_even (a / Qpow2 (ulp_exp a))) * Qpow2 (ulp_exp a)
                   < Qpow2 1024).
    { apply Qnot_le_lt. intros Hle. apply Qle_bool_iff in Hle. congruence. }
    pose proof (rounded_magnitude_representable a Ha Hfin) as Hrep.
    destruct neg; [now apply representable_opp | exact Hrep]. }
  destruct (Qcompare_spec q 0) as [Heq|Hlt|Hgt].
  - intros [= <-]. exact Hzero.
  - apply Hmag. apply Qlt_le_trans with (- q); [lra|].
    rewrite <- Qabs_opp. apply Qle_Qabs.
  - apply Hmag. apply Qlt_le_trans with q; [lra | apply Qle_Qabs].
Qed.

(** Every finite number that [parseFloat] returns is a binary64 value. *)
Lemma parseFloat_representable (input : string) (v : Q) :
  parseFloat input = Fin v -> representable v.
Proof.
  unfold parseFloat.
  destruct (read_sign (trimStart input)) as [neg s1].
  destruct (String.prefix "Infinity" s1); [discriminate|].
  destruct (read_digits s1 0 0) as [[ip icount] s2].
  destruct (match s2 with
            | String "."%char r => read_digits r ip 0
            | _ => (ip, 0%Z, s2)
            end) as [[m fcount] s3].
  destruct (icount + fcount =? 0)%Z; [discriminate|].
  apply round64_representable.
Qed.

End NumberFacts.

(* ===================================================================== *)
(** ** Proofs: the SRT time formatter *)
(* ===================================================================== *)

Section FormatterFacts.

Lemma length_append (a b : string) :
  String.length (a +++ b) = (String.length a + String.length b)%nat.
Proof.
  induction a as [|x a IH]; [reflexivity|].
  rewrite append_cons. cbn [String.length]. now rewrite IH.
Qed.

Lemma length_repeat_char (c : ascii) (n : nat) : String.length (repeat_char c n) = n.
Proof. induction n as [|n IH]; cbn; [reflexivity | now rewrite IH]. Qed.

(** [padStart] pads to the width and never cuts. *)
Lemma length_padStart (n : nat) (c : ascii) (s : string) :
  String.length (padStart n c s) = Nat.max n (String.length s).
Proof.
  unfold padStart. rewrite length_append, length_repeat_char. lia.
Qed.

(** The padded rendering of the integers below [10^n] has [n] digits, for
    the widths the formatter uses. *)
Lemma padded_field (n : nat) (z : Z) :
  (n = 2 \/ n = 3)%nat -> (0 <= z < 10 ^ Z.of_nat n)%Z ->
  digit_field n (padStart n "0" (Z_toString z)).
Proof.
  intros Hn Hz.
  assert (Hall : forallb (fun k =>
                    let s := padStart n "0" (Z_toString (Z.of_nat k)) in
                    (String.length s =? n)%nat && all_digits s)
                   (seq 0 (Z.to_nat (10 ^ Z.of_nat n))) = true).
  { destruct Hn as [-> | ->]; vm_compute; reflexivity. }
  rewrite forallb_forall in Hall.
  specialize (Hall (Z.to_nat z)). rewrite Z2Nat.id in Hall by lia.
  cbv zeta in Hall. unfold digit_field.
  rewrite <- Nat.eqb_eq, <- andb_true_iff. apply Hall.
  apply in_seq. lia.
Qed.

End FormatterFacts.

(** The binary64 arithmetic of the formatter on other literals: the
    components are cut, not rounded, and a literal that is not a binary64
    value is cut at the value it is read as ([1.001] is read as a value
    below it); [0.009] is read as a value below it too, whose thousandths
    are 9 once the product is a binary64 value. *)
Example formatSrtTime_truncates :
  formatSrtTime (parseFloat "59.9996") = "00:00:59,999" /\
  formatSrtTime (parseFloat "3599.9999") = "00:59:59,999" /\
  formatSrtTime (parseFloat "0.9999") = "00:00:00,999" /\
  formatSrtTime (parseFloat "1.001") = "00:00:01,000" /\
  formatSrtTime (parseFloat "0.29") = "00:00:00,290" /\
  formatSrtTime (parseFloat "0.009") = "00:00:00,009" /\
  formatSrtTime (parseFloat "360000") = "100:00:00,000" /\
  formatSrtTime (parseFloat "1e20") = "27777777777777776:46:40,000".
Proof. vm_compute. repeat split. Qed.

Example toString_big :
  toString (floor (parseFloat "9007199254740993")) = "9007199254740992" /\
  toString (floor (parseFloat "9223372036854775808")) = "9223372036854776000" /\
  toString (floor (parseFloat "18446744073709551616")) = "18446744073709552000" /\
  toString (floor (parseFloat "123456789012345678901")) = "123456789012345680000" /\
  toString (floor (parseFloat "999999999999999999999")) = "1e+21" /\
  toString (floor (parseFloat "-36028797018963968")) = "-36028797018963970" /\
  toString (floor (parseFloat "1e21")) = "1e+21" /\
  toString (floor (parseFloat "123456789012345680000000")) = "1.2345678901234569e+23" /\
  toString (floor (parseFloat "1.7976931348623157e308")) = "1.7976931348623157e+308" /\
  toString (floor (parseFloat "1.8e308")) = "Infinity" /\
  toString (floor (parseFloat "-12.5abc")) = "-13" /\
  toString (floor (parseFloat "abc")) = "NaN".
Proof. vm_compute. repeat split. Qed.

Example round64_agrees_with_SpecFloat :
  forallb agrees_with_SpecFloat rounding_samples = true.
Proof. vm_compute. reflexivity. Qed.

Section RetryProofs.
Context {W : Type} `{World W} {T : Type}.
Variable operation : W -> (thrown + T) * W.

Lemma invocations_app (a b : list event) :
  invocations (a ++ b) = (invocations a + invocations b)%nat.
Proof.
  unfold invocations. rewrite List.filter_app, List.length_app. reflexivity.
Qed.

Lemma retry_loop_run (maxRetries delay : Z) (n : nat) :
  forall (a : nat) (lastError : option thrown) (st : state),
    Z.of_nat a + Z.of_nat n = maxRetries ->
    exists tr r w',
      retry_loop operation maxRetries delay (map Z.of_nat (seq a (S n))) lastError st
        = (r, mkState w' (trace st ++ tr)) /\
      retry_run operation maxRetries delay (Z.of_nat a) (world st) tr r w' /\
      (invocations tr <= S n)%nat.
Proof.
  induction n as [|n IH]; intros a lastError st Hsum.
  - (* the last attempt *)
    assert (Ha : maxRetries = Z.of_nat a) by lia.
    clear Hsum. subst maxRetries.
    cbn [seq map retry_loop].
    destruct (operation (world st)) as [[e|v] w] eqn:Hop.
    + rewrite Z.ltb_irrefl. cbn [seq map retry_loop throw].
      exists [Invoked (Some e); OperationFailed (Z.of_nat a) (Z.of_nat a) e], (inl e), w.
      split; [reflexivity|]. split.
      * now apply run_final_failure.
      * cbn. lia.
    + exists [Invoked None], (inr v), w.
      split; [reflexivity|]. split.
      * apply run_success; [lia | assumption].
      * cbn. lia.
  - change (map Z.of_nat (seq a (S (S n))))
      with (Z.of_nat a :: map Z.of_nat (seq (S a) (S n))).
    cbn [retry_loop].
    destruct (operation (world st)) as [[e|v] w] eqn:Hop.
    + assert (Hlt : (Z.of_nat a <? maxRetries) = true) by (apply Z.ltb_lt; lia).
      rewrite Hlt.
      set (st1 := mkState (elapse (delay * Z.of_nat a) w)
                    ((trace st ++ [Invoked (Some e);
                                   OperationFailed (Z.of_nat a) maxRetries e])
                       ++ [Sleep (delay * Z.of_nat a)])).
      destruct (IH (S a) (Some e) st1 ltac:(lia)) as (tr & r & w' & Hrun & Hrel & Hcount).
      exists (Invoked (Some e) :: OperationFailed (Z.of_nat a) maxRetries e
                :: Sleep (delay * Z.of_nat a) :: tr), r, w'.
      split; [|split].
      * unfold bind, sleep. cbn [world trace]. fold st1.
        rewrite Hrun. unfold st1. cbn [trace].
        rewrite <- !List.app_assoc. reflexivity.
      * apply run_backoff with (w' := w); [lia | assumption |].
        replace (Z.of_nat a + 1) with (Z.of_nat (S a)) by lia. exact Hrel.
      * change (invocations _) with (S (invocations tr)). lia.
    + exists [Invoked None], (inr v), w.
      split; [reflexivity|]. split.
      * apply run_success; [lia | assumption].
      * cbn. lia.
Qed.

(** C3. The retry wrapper behaves as the specification describes: it calls
    the operation at most [maxRetries] times, returns the value of the first
    attempt that succeeds without calling the operation again, waits
    [delay * n] milliseconds after the failed attempt [n < maxRetries], and
    after the failure of the last attempt throws that attempt's error. *)
Theorem retryOperation_spec (maxRetries delay : Z) (st : state) :
  1 <= maxRetries ->
  exists tr r w',
    retryOperation operation maxRetries delay st = (r, mkState w' (trace st ++ tr)) /\
    retry_run operation maxRetries delay 1 (world st) tr r w' /\
    (invocations tr <= Z.to_nat maxRetries)%nat.
Proof.
  intros Hmax. unfold retryOperation, attempt_range.
  destruct (Z.to_nat maxRetries) as [|n] eqn:Hn; [lia|].
  destruct (retry_loop_run maxRetries delay n 1 None st ltac:(lia))
    as (tr & r & w' & Hrun & Hrel & Hcount).
  exists tr, r, w'. auto.
Qed.

End RetryProofs.

Lemma retryOperation_spec_witness :
  1 <= 3 /\
  exists tr r w',
    retryOperation (flaky_operation 2) 3 1000 (mkState 0%nat [])
      = (r, mkState w' ([] ++ tr)) /\
    retry_run (flaky_operation 2) 3 1000 1 0%nat tr r w' /\
    (invocations tr <= Z.to_nat 3)%nat.
Proof.
  split; [lia|].
  apply (retryOperation_spec (flaky_operation 2) 3 1000 (mkState 0%nat [])). lia.
Defined.

Example retry_third_attempt_succeeds :
  retryOperation (flaky_operation 2) 3 1000 (mkState 0%nat [])
  = (inr "uploaded",
     mkState 3%nat
       [Invoked (Some (JsError "transient failure"));
        OperationFailed 1 3 (JsError "transient failure"); Sleep 1000;
        Invoked (Some (JsError "transient failure"));
        OperationFailed 2 3 (JsError "transient failure"); Sleep 2000;
        Invoked None]).
Proof. reflexivity. Qed.

Example retry_never_succeeds :
  retryOperation (flaky_operation 5) 3 1000 (mkState 0%nat [])
  = (inl (JsError "transient failure"),
     mkState 3%nat
       [Invoked (Some (JsError "transient failure"));
        OperationFailed 1 3 (JsError "transient failure"); Sleep 1000;
        Invoked (Some (JsError "transient failure"));
        OperationFailed 2 3 (JsError "transient failure"); Sleep 2000;
        Invoked (Some (JsError "transient failure"));
        OperationFailed 3 3 (JsError "transient failure")]).
Proof. reflexivity. Qed.

Section CacheProofs.

Lemma load_cache_put (fileHash : string) (res : TranscribeResult) (now : Z) (ls : storage) :
  load_cache (cacheTranscriptionResult fileHash res now ls)
  = <[fileHash := {| result := res; timestamp := now |}]> (load_cache ls).
Proof. reflexivity. Qed.

Lemma get_after_put (fileHash : string) (res : TranscribeResult) (now later : Z)
    (ls : storage) :
  fst (getCachedTranscription fileHash later (cacheTranscriptionResult fileHash res now ls))
  = if later - now <? day_ms then Some res else None.
Proof.
  unfold getCachedTranscription. rewrite load_cache_put, lookup_insert_eq.
  cbn [timestamp result]. now destruct (later - now <? day_ms).
Qed.

(** C8. The cache: [get] returns the stored result exactly when an entry
    exists for the fingerprint and is less than 24 hours old, and never
    changes the store; [put] overwrites the entry of the fingerprint with the
    new result and the current time and leaves the other entries alone; so a
    [get] less than 24 hours after a [put] returns the value put, and a
    [get] 24 hours and a millisecond after it returns nothing. *)
Theorem cache_get_put (fileHash : string) (now : Z) (ls : storage) :
  (forall r,
      fst (getCachedTranscription fileHash now ls) = Some r <->
      exists entry, load_cache ls !! fileHash = Some entry /\
                    result entry = r /\ now - timestamp entry < 24 * 60 * 60 * 1000) /\
  snd (getCachedTranscription fileHash now ls) = ls /\
  (forall res,
      load_cache (cacheTranscriptionResult fileHash res now ls) !! fileHash
      = Some {| result := res; timestamp := now |}) /\
  (forall res other, other <> fileHash ->
      load_cache (cacheTranscriptionResult fileHash res now ls) !! other
      = load_cache ls !! other) /\
  (forall res later, later - now < 24 * 60 * 60 * 1000 ->
      fst (getCachedTranscription fileHash later
             (cacheTranscriptionResult fileHash res now ls)) = Some res) /\
  (forall res,
      fst (getCachedTranscription fileHash (now + 24 * 60 * 60 * 1000 + 1)
             (cacheTranscriptionResult fileHash res now ls)) = None).
Proof.
  repeat split.
  - unfold getCachedTranscription.
    destruct (load_cache ls !! fileHash) as [entry|] eqn:Hentry; [|discriminate].
    destruct (now - timestamp entry <? day_ms) eqn:Hfresh; [|discriminate].
    cbn. intros [= <-]. exists entry. apply Z.ltb_lt in Hfresh.
    unfold day_ms in Hfresh. auto.
  - intros (entry & Hentry & <- & Hfresh). unfold getCachedTranscription.
    rewrite Hentry. apply Z.ltb_lt in Hfresh. unfold day_ms. now rewrite Hfresh.
  - unfold getCachedTranscription.
    destruct (load_cache ls !! fileHash) as [entry|]; [|reflexivity].
    now destruct (now - timestamp entry <? day_ms).
  - intros res. rewrite load_cache_put. apply lookup_insert_eq.
  - intros res other Hother. rewrite load_cache_put.
    apply lookup_insert_ne. congruence.
  - intros res later Hfresh. rewrite get_after_put.
    apply Z.ltb_lt in Hfresh. unfold day_ms. now rewrite Hfresh.
  - intros res. rewrite get_after_put.
    replace (now + 24 * 60 * 60 * 1000 + 1 - now <? day_ms) with false; [reflexivity|].
    symmetry. apply Z.ltb_ge. unfold day_ms. lia.
Qed.

End CacheProofs.

Lemma cache_get_put_witness :
  fst (getCachedTranscription "ab12" (1000 + 86399999)
         (cacheTranscriptionResult "ab12" sample_result 1000 None)) = Some sample_result.
Proof.
  apply (proj1 (proj2 (proj2 (proj2 (proj2 (cache_get_put "ab12" 1000 None)))))). lia.
Defined.

Example cache_expired :
  fst (getCachedTranscription "ab12" (1000 + 86400000)
         (cacheTranscriptionResult "ab12" sample_result 1000 None)) = None.
Proof. rewrite get_after_put. reflexivity. Qed.

Section SegmentFacts.
Variable its : list Item.






End SegmentFacts.

(** C4. The degenerate cases of the converter: without [results] or
    without [transcripts] the output is empty; with a first transcript and
    no items it is the single subtitle over 00:00:00,000 --> 00:05:00,000
    that holds the full text, and so it is when the walk over the items
    emits nothing. *)
Theorem convert_degenerate_cases (td : TranscriptData) :
  ((results td = None \/ exists res, results td = Some res /\ transcripts res = None) ->
   convertTranscriptToSrt td = inr "") /\
  (forall res t ts,
      results td = Some res -> transcripts res = Some (t :: ts) ->
      items res = None \/ items res = Some [] ->
      convertTranscriptToSrt td
      = inr ("1" +++ nl +++ "00:00:00,000 --> 00:05:00,000" +++ nl +++
             transcript t +++ nl +++ nl)) /\
  (forall res t ts its st,
      results td = Some res -> transcripts res = Some (t :: ts) ->
      items res = Some its -> walk its = inr (st, []) ->
      convertTranscriptToSrt td
      = inr ("1" +++ nl +++ "00:00:00,000 --> 00:05:00,000" +++ nl +++
             transcript t +++ nl +++ nl)).
Proof.
  assert (Hfixed : forall text,
             fixed_window_subtitle text
             = "1" +++ nl +++ "00:00:00,000 --> 00:05:00,000" +++ nl +++ text +++ nl +++ nl).
  { intros text. unfold fixed_window_subtitle. now rewrite !append_assoc. }
  unfold convertTranscriptToSrt. split; [|split].
  - intros [-> | (res & -> & ->)]; reflexivity.
  - intros res t ts -> -> Hitems. rewrite <- Hfixed.
    destruct Hitems as [-> | ->]; reflexivity.
  - intros res t ts its st -> -> -> Hwalk. rewrite <- Hfixed.
    destruct its as [|item its]; [reflexivity|].
    cbn [no_items]. rewrite Hwalk.
    apply walk_silent in Hwalk. rewrite (proj2 Hwalk eq_refl). reflexivity.
Qed.

Lemma convert_degenerate_cases_witness :
  convertTranscriptToSrt comma_transcript
  = inr ("1" +++ nl +++ "00:00:00,000 --> 00:05:00,000" +++ nl +++
         "Hello." +++ nl +++ nl).
Proof.
  refine (proj2 (proj2 (convert_degenerate_cases comma_transcript))
            comma_results {| transcript := "Hello." |} [] [mark ","] _
            eq_refl eq_refl eq_refl _).
  reflexivity.
Defined.

(** C5. For a transcript with results, transcripts and items that all have
    a first alternative, the converter returns the rendering of a list of
    subtitles, the blocks the walk emits or else the subtitle of the fixed
    window, and their numbers are 1, 2, ..., n. *)
Theorem convert_indices_dense (td : TranscriptData) (res : Results)
    (ts : list FullTranscript) (its : list Item) :
  results td = Some res -> transcripts res = Some ts -> items res = Some its ->
  Forall (fun item => alternatives item <> []) its ->
  exists st blocks subs,
    walk its = inr (st, blocks) /\
    subs = match blocks, ts with
           | [], t :: _ => [fixed_subtitle (transcript t)]
           | _, _ => map subtitle_of_block blocks
           end /\
    convertTranscriptToSrt td = inr (concat_all (map render_subtitle subs)) /\
    map sub_index subs = map Z.of_nat (seq 1 (List.length subs)).
Proof.
  intros Hres Hts Hits Hvalid.
  destruct (convert_loop_returns (List.length its) its Hvalid 0 initial_loop_state)
    as (st & blocks & Hwalk).
  fold (walk its) in Hwalk.
  exists st, blocks. eexists. split; [exact Hwalk|]. split; [reflexivity|].
  pose proof (walk_output its st blocks Hwalk) as [Hout Hnum].
  pose proof (walk_silent its st blocks Hwalk) as Hsilent.
  assert (Hconv : convertTranscriptToSrt td
                  = inr (match String.eqb (ls_srtContent st) "", ts with
                         | true, t :: _ => fixed_window_subtitle (transcript t)
                         | _, _ => ls_srtContent st
                         end)).
  { unfold convertTranscriptToSrt. rewrite Hres, Hts, Hits.
    destruct its as [|item its'].
    - injection Hwalk as <- _. now destruct ts.
    - cbn [no_items]. rewrite Hwalk. now destruct ts, (String.eqb (ls_srtContent st) ""). }
  rewrite Hconv. clear Hconv.
  assert (Hmap : map render_subtitle (map subtitle_of_block blocks)
                 = map render_block blocks) by now rewrite List.map_map.
  assert (Hidx : map sub_index (map subtitle_of_block blocks) = map blk_index blocks)
    by now rewrite List.map_map.
  destruct blocks as [|b blocks].
  - rewrite (proj2 Hsilent eq_refl). cbn [String.eqb].
    destruct ts as [|t ts]; [split; reflexivity|]. split; [|reflexivity].
    cbn [map concat_all]. rewrite append_empty_r.
    unfold fixed_window_subtitle, render_subtitle, fixed_subtitle. cbn [sub_index sub_start sub_end sub_text].
    now rewrite !append_assoc.
  - assert (Hfull : String.eqb (ls_srtContent st) "" = false).
    { apply String.eqb_neq. intros Hempty. now apply Hsilent in Hempty. }
    rewrite Hfull.
    assert (Hgoal : inr (ls_srtContent st)
                    = @inr thrown string
                        (concat_all (map render_subtitle (map subtitle_of_block (b :: blocks))))
                    /\ map sub_index (map subtitle_of_block (b :: blocks))
                       = map Z.of_nat (seq 1 (List.length (map subtitle_of_block (b :: blocks))))).
    { rewrite Hmap, Hidx, Hout, Hnum, !length_map. auto. }
    destruct ts; exact Hgoal.
Qed.

Lemma convert_indices_dense_witness :
  exists st blocks subs,
    walk two_sentences = inr (st, blocks) /\
    subs = match blocks, [ {| transcript := "Hello. Hello." |} ] with
           | [], t :: _ => [fixed_subtitle (transcript t)]
           | _, _ => map subtitle_of_block blocks
           end /\
    convertTranscriptToSrt
      {| results := Some {| transcripts := Some [ {| transcript := "Hello. Hello." |} ];
                            items := Some two_sentences |} |}
    = inr (concat_all (map render_subtitle subs)) /\
    map sub_index subs = map Z.of_nat (seq 1 (List.length subs)).
Proof.
  eapply (convert_indices_dense _ _ _ two_sentences);
    try reflexivity.
  repeat constructor; discriminate.
Defined.

Example convert_two_sentences :
  convertTranscriptToSrt
    {| results := Some {| transcripts := Some [ {| transcript := "Hello. Hello." |} ];
                          items := Some two_sentences |} |}
  = inr (render_subtitle {| sub_index := 1; sub_start := "00:00:00,000";
                            sub_end := "00:00:00,500"; sub_text := "Hello." |} +++
         render_subtitle {| sub_index := 2; sub_start := "00:00:00,000";
                            sub_end := "00:00:00,500"; sub_text := "Hello." |}).
Proof. vm_compute. reflexivity. Qed.

(** The end-to-end example of the specification. *)
Example convert_hello :
  convertTranscriptToSrt hello_transcript
  = inr ("1" +++ nl +++ "00:00:00,000 --> 00:00:00,500" +++ nl +++ "Hello." +++ nl +++ nl)
  /\ duration_of hello_transcript = "0:00".
Proof. vm_compute. split; reflexivity. Qed.





Section MediaFormatFacts.

Lemma split_not_nil (sep : ascii) (s : string) : split sep s <> [].
Proof.
  induction s as [|c s IH]; cbn [split]; [easy|].
  destruct (Ascii.eqb c sep); [easy|].
  destruct (split sep s); [contradiction | easy].
Qed.

Lemma pop_cons (x : string) (l : list string) : l <> [] -> pop (x :: l) = pop l.
Proof. destruct l as [|y l]; [contradiction | reflexivity]. Qed.

Lemma split_without_separator (sep : ascii) (s : string) :
  contains_char sep s = false -> split sep s = [s].
Proof.
  unfold contains_char. induction s as [|c s IH]; [reflexivity|].
  cbn [list_ascii_of_string existsb split].
  rewrite (Ascii.eqb_sym sep c). destruct (Ascii.eqb c sep); intros Hrest.
  - discriminate Hrest.
  - now rewrite (IH Hrest).
Qed.

(** The last segment of a name is what follows its last dot. *)
Lemma pop_split_append (sep : ascii) (a b : string) :
  pop (split sep (a +++ String sep b)) = pop (split sep b).
Proof.
  induction a as [|c a IH].
  - rewrite append_empty_l. cbn [split]. rewrite Ascii.eqb_refl.
    apply pop_cons, split_not_nil.
  - rewrite append_cons. cbn [split].
    destruct (Ascii.eqb c sep).
    + rewrite pop_cons by apply split_not_nil. exact IH.
    + destruct (split sep (a +++ String sep b)) as [|h t] eqn:Hsplit.
      * now apply split_not_nil in Hsplit.
      * destruct t as [|h' t].
        -- (* impossible: the separator starts a second segment *)
           exfalso. clear IH. revert h Hsplit.
           induction a as [|c' a IHa]; intros h.
           ++ rewrite append_empty_l. cbn [split]. rewrite Ascii.eqb_refl.
              intros [= _ Hnil]. now apply split_not_nil in Hnil.
           ++ rewrite append_cons. cbn [split].
              destruct (Ascii.eqb c' sep).
              ** intros [= _ Hnil]. now apply split_not_nil in Hnil.
              ** destruct (split sep (a +++ String sep b)) as [|h1 [|h2 t1]] eqn:Hs;
                   [now apply split_not_nil in Hs | intros _; exact (IHa h1 eq_refl) | easy].
        -- rewrite <- IH. reflexivity.
Qed.

Lemma toLowerCase_empty (s : string) : toLowerCase s = "" -> s = "".
Proof. destruct s; [reflexivity | discriminate]. Qed.

(** A name with an extension: the media format is the extension in lower
    case. *)
Lemma mediaFormat_extension (base ext : string) :
  contains_char "." ext = false -> ext <> "" ->
  mediaFormat (base +++ String "." ext) = toLowerCase ext.
Proof.
  intros Hext Hne. unfold mediaFormat.
  rewrite pop_split_append, (split_without_separator _ _ Hext).
  change (pop [ext]) with (Some ext). cbv beta iota.
  destruct (String.eqb_spec (toLowerCase ext) "") as [Hempty|]; [|reflexivity].
  now apply toLowerCase_empty in Hempty.
Qed.

(** A name without a dot: the media format is the whole name in lower
    case, and the default is not taken. *)
Lemma mediaFormat_without_dot (name : string) :
  contains_char "." name = false -> name <> "" ->
  mediaFormat name = toLowerCase name.
Proof.
  intros Hdot Hne. unfold mediaFormat.
  rewrite (split_without_separator _ _ Hdot).
  change (pop [name]) with (Some name). cbv beta iota.
  destruct (String.eqb_spec (toLowerCase name) "") as [Hempty|]; [|reflexivity].
  now apply toLowerCase_empty in Hempty.
Qed.

End MediaFormatFacts.

(* ===================================================================== *)
(** ** Proofs: the orchestrator *)
(* ===================================================================== *)

Section OrchestratorFacts.
Context {W : Type} `{World W} `{Platform W}.

Lemma bind_inr {A B : Type} (m : @M W A) (k : A -> @M W B) (st st' : state) (b : B) :
  bind m k st = (inr b, st') ->
  exists a st1, m st = (inr a, st1) /\ k a st1 = (inr b, st').
Proof.
  unfold bind. destruct (m st) as [[e|a] st1]; [discriminate|]. eauto.
Qed.

Lemma try_rethrow_inr {A : Type} (m : @M W A) (wrap : thrown -> thrown)
    (st st' : state) (a : A) :
  try_catch m (fun e => throw (wrap e)) st = (inr a, st') -> m st = (inr a, st').
Proof.
  unfold try_catch, throw. destruct (m st) as [[e|x] st1]; [discriminate | auto].
Qed.

Lemma lift_result_inr {A : Type} (r : thrown + A) (st st' : @state W) (a : A) :
  lift_result r st = (inr a, st') -> r = inr a.
Proof. unfold lift_result. now intros [= -> _]. Qed.

(** A result that the fetch of the transcript returns holds the parsed
    transcript and its conversion. *)
Lemma fetch_transcript_result (bucket uri : string) (st st' : state)
    (r : TranscribeResult) :
  fetch_transcript bucket uri st = (inr r, st') ->
  exists td body,
    JSON_parse body = inr td /\
    rawTranscriptData r = Some td /\
    convertTranscriptToSrt td = inr (srtContent r) /\
    duration r = duration_of td.
Proof.
  unfold fetch_transcript. intros Hrun.
  apply bind_inr in Hrun as (pathname & st1 & _ & Hrun).
  apply bind_inr in Hrun as (object & st2 & _ & Hrun).
  apply bind_inr in Hrun as (td & st3 & Hparse & Hrun).
  apply bind_inr in Hrun as (srt & st4 & Hsrt & Hrun).
  apply lift_result_inr in Hparse, Hsrt.
  injection Hrun as <- _.
  exists td, (or_empty (ObjectBody object)). auto.
Qed.

(** A result that the [try] block returns is a real one. *)
Lemma transcribe_try_result (file : File) (language : string) (st st' : state)
    (r : TranscribeResult) :
  transcribe_try file language st = (inr r, st') ->
  exists td body,
    JSON_parse body = inr td /\
    rawTranscriptData r = Some td /\
    convertTranscriptToSrt td = inr (srtContent r) /\
    duration r = duration_of td.
Proof.
  unfold transcribe_try. intros Hrun.
  do 9 (apply bind_inr in Hrun as (? & ? & _ & Hrun)).
  match type of Hrun with
  | (if ?c then _ else _) _ = _ => destruct c; [|discriminate]
  end.
  apply try_rethrow_inr in Hrun.
  now apply fetch_transcript_result in Hrun.
Qed.

(** Whatever the [catch] block returns is the simulated result. *)
Lemma transcribe_catch_result (file : File) (error : thrown) (st st' : state)
    (r : TranscribeResult) :
  transcribe_catch file error st = (inr r, st') -> r = simulated_result file.
Proof.
  unfold transcribe_catch, simulateTranscription. intros Hrun.
  do 5 (apply bind_inr in Hrun as (? & ? & _ & Hrun)).
  now injection Hrun as <- _.
Qed.

(** With a last-modified time in the range of [Date], the [catch] block
    returns. *)
Lemma transcribe_catch_returns (file : File) (error : thrown) (st : state) :
  valid_time_value (lastModified file) = true ->
  exists st', transcribe_catch file error st = (inr (simulated_result file), st').
Proof.
  intros Hvalid.
  unfold transcribe_catch, simulateTranscription, bind, emit, lift_result,
    Date_toISOString_check, sleep, ret.
  rewrite Hvalid. cbn. eauto.
Qed.

(** With a last-modified time in the range of [Date], transcribeAudio
    returns a result whatever the collaborators do: the real one, or the
    simulated one when any step of the pipeline throws. *)
Lemma transcribeAudio_returns (file : File) (language : string) (st : state) :
  valid_time_value (lastModified file) = true ->
  exists r st',
    transcribeAudio file language st = (inr r, st') /\
    (forall e st1, transcribe_try file language st = (inl e, st1) ->
                   r = simulated_result file).
Proof.
  intros Hvalid. unfold transcribeAudio, try_catch.
  destruct (transcribe_try file language st) as [[e|r] st1] eqn:Htry.
  - destruct (transcribe_catch_returns file e st1 Hvalid) as (st' & Hcatch).
    rewrite Hcatch. eauto.
  - exists r, st1. split; [reflexivity | discriminate].
Qed.

(** C9. A result of transcribeAudio comes from the [try] block, and then
    its [rawTranscriptData] is the transcript that was parsed and converted,
    or from the fallback, and then it is the simulated result and its
    [rawTranscriptData] is absent. *)
Theorem raw_transcript_marks_real_result (file : File) (language : string)
    (st st' : state) (r : TranscribeResult) :
  transcribeAudio file language st = (inr r, st') ->
  match fst (transcribe_try file language st) with
  | inr real =>
      r = real /\
      exists td body,
        JSON_parse body = inr td /\ rawTranscriptData r = Some td /\
        convertTranscriptToSrt td = inr (srtContent r)
  | inl _ => r = simulated_result file /\ rawTranscriptData r = None
  end.
Proof.
  unfold transcribeAudio, try_catch.
  destruct (transcribe_try file language st) as [[e|real] st1] eqn:Htry; cbn [fst].
  - intros Hcatch. apply transcribe_catch_result in Hcatch. now subst r.
  - intros [= <- <-]. split; [reflexivity|].
    apply transcribe_try_result in Htry as (td & body & ? & ? & ? & _). eauto.
Qed.

(** The polling loop swallows every error of an iteration: it never
    throws. *)
Lemma poll_once_returns (jobName : string) (jobComplete : bool)
    (job : option TranscriptionJob) (pollCount : Z) (st : state) :
  exists r st', poll_once jobName jobComplete job pollCount st = (inr r, st').
Proof.
  unfold poll_once, bind, sleep, emit, poll_try, ret. cbn [world trace].
  destruct (getTranscriptionJob jobName _) as [[e|jobResult] w]; cbn; eauto.
  repeat match goal with
         | |- context [if ?c then _ else _] => destruct c
         end; cbn; eauto.
Qed.

Lemma poll_loop_returns (fuel : nat) (jobName : string) :
  forall (jobComplete : bool) (job : option TranscriptionJob) (pollCount : Z)
         (st : state),
  exists r st', poll_loop fuel jobName jobComplete job pollCount st = (inr r, st').
Proof.
  induction fuel as [|fuel IH]; intros jobComplete job pollCount st; cbn [poll_loop].
  - unfold ret. eauto.
  - destruct (negb jobComplete && (pollCount <? maxPolls)); [|unfold ret; eauto].
    unfold bind.
    destruct (poll_once_returns jobName jobComplete job (pollCount + 1) st)
      as (r & st1 & ->).
    apply IH.
Qed.

(** The only error the polling phase throws is the time-out. *)
Lemma poll_job_throws_timeout_only (jobName : string) (st st' : state) (e : thrown) :
  poll_job jobName st = (inl e, st') ->
  e = JsError "Transcription job timed out after 5 minutes".
Proof.
  unfold poll_job, bind.
  destruct (poll_loop_returns (Z.to_nat maxPolls) jobName false None 0 st)
    as ([[jobComplete job] n] & st1 & ->).
  destruct jobComplete; cbn; unfold ret, throw; congruence.
Qed.

End OrchestratorFacts.

Lemma raw_transcript_marks_real_result_witness :
  match fst (@transcribe_try _ _ happy_platform (sample_file 0) "ta-IN" initial_state) with
  | inr real =>
      {| srtContent := render_subtitle
           {| sub_index := 1; sub_start := "00:00:00,000"; sub_end := "00:00:00,500";
              sub_text := "Hello." |};
         duration := "0:00";
         rawTranscriptData := Some hello_transcript |} = real /\
      exists td body,
        @JSON_parse _ happy_platform body = inr td /\ Some hello_transcript = Some td /\
        convertTranscriptToSrt td
        = inr (render_subtitle
                 {| sub_index := 1; sub_start := "00:00:00,000";
                    sub_end := "00:00:00,500"; sub_text := "Hello." |})
  | inl _ => False
  end.
Proof.
  pose proof (@raw_transcript_marks_real_result _ _ happy_platform
                (sample_file 0) "ta-IN" initial_state) as Hthm.
  specialize (Hthm _ _ ltac:(vm_compute; reflexivity)).
  exact Hthm.
Defined.

(** C1, at a file whose last-modified time is outside the range of [Date],
    when the upload fails three times: the [catch] block throws a
    RangeError while it logs the details of the file, and transcribeAudio
    throws it to the caller. *)
Theorem transcribeAudio_throws_on_invalid_date :
  fst (@transcribeAudio _ _ upload_down_platform
         (sample_file 8640000000000001) "ta-IN" initial_state)
  = inl (JsError "Invalid time value").
Proof. vm_compute. reflexivity. Qed.

(** The same upload failure with a last-modified time in range gives the
    simulated result: three subtitles and the duration 0:15. *)
Example transcribeAudio_falls_back :
  fst (@transcribeAudio _ _ upload_down_platform (sample_file 0) "ta-IN" initial_state)
  = inr {| srtContent := concat_all (map render_subtitle (simulated_subtitles "talk"));
           duration := "0:15";
           rawTranscriptData := None |}.
Proof. vm_compute. reflexivity. Qed.

Lemma simulated_result_three_blocks (file : File) :
  srtContent (simulated_result file)
  = concat_all (map render_subtitle (simulated_subtitles (strip_extension (file_name file))))
  /\ duration (simulated_result file) = "0:15"
  /\ rawTranscriptData (simulated_result file) = None.
Proof.
  repeat split. cbn [simulated_result srtContent].
  unfold simulated_srt, simulated_subtitles, render_subtitle.
  cbn [map concat_all sub_index sub_start sub_end sub_text].
  change (Z_toString 1) with "1". change (Z_toString 2) with "2".
  change (Z_toString 3) with "3".
  rewrite !append_assoc, append_empty_r. reflexivity.
Qed.

(** C2, at a provider that reports FAILED on every poll: the error thrown
    for the failed job is caught inside the loop and only logged, the loop
    runs its 60 polls, and the error that leaves the polling phase is the
    time-out. *)
Theorem failed_job_polls_until_timeout :
  let run := @poll_job _ _ job_failed_platform "job-1" initial_state in
  fst run = inl (JsError "Transcription job timed out after 5 minutes") /\
  polls (trace (snd run)) = 60%nat /\
  poll_errors (trace (snd run))
  = repeat (JsError "Transcription job failed: Unsupported audio format") 60.
Proof. vm_compute. repeat split. Qed.

(** The parts of C2 that hold: 60 polls that all report IN_PROGRESS end in
    the time-out error, and a status query that fails is logged and
    followed by the next poll. *)
Example stuck_job_times_out :
  let run := @poll_job _ _ upload_down_platform "job-1" initial_state in
  fst run = inl (JsError "Transcription job timed out after 5 minutes") /\
  polls (trace (snd run)) = 60%nat /\ poll_errors (trace (snd run)) = [].
Proof. vm_compute. repeat split. Qed.

Example failed_query_is_logged :
  @poll_job _ _ flaky_status_platform "job-1" initial_state
  = (inr (TranscriptionJob_
            (job_with "COMPLETED" None (Some "https://s3.amazonaws.com/media/job-1.json"))),
     mkState 2%nat
       [Sleep 5000; Polling 1 60; PollError (JsError "Throttling");
        Sleep 5000; Polling 2 60; JobStatus (Some "COMPLETED")]).
Proof. vm_compute. reflexivity. Qed.

(** C7, at a name without a dot: the media format is the whole name, not
    mp3. *)
Theorem mediaFormat_without_extension : mediaFormat "audio" = "audio".
Proof. reflexivity. Qed.

Example mediaFormat_examples :
  mediaFormat "talk.MP3" = "mp3" /\ mediaFormat "a.b.Wav" = "wav" /\
  mediaFormat "audio." = "mp3" /\ mediaFormat "" = "mp3".
Proof. repeat split. Qed.

(* ===================================================================== *)
(** ** Proofs: file names and object keys *)
(* ===================================================================== *)

Section SplitFacts.

Lemma split_app_sep (sep : ascii) (a b : string) :
  split sep (a +++ String sep b) = (split sep a ++ split sep b)%list.
Proof.
  induction a as [|c a IH].
  - rewrite append_empty_l. cbn [split]. rewrite Ascii.eqb_refl. reflexivity.
  - rewrite append_cons. cbn [split]. rewrite IH.
    destruct (Ascii.eqb c sep); [reflexivity|].
    destruct (split sep a) as [|h t] eqn:Hs; [now apply split_not_nil in Hs|].
    reflexivity.
Qed.

Lemma join_split (sep : ascii) (s : string) :
  join (String sep "") (split sep s) = s.
Proof.
  induction s as [|c s IH]; [reflexivity|].
  cbn [split]. destruct (Ascii.eqb_spec c sep) as [->|Hne].
  - destruct (split sep s) as [|h t] eqn:Hs; [now apply split_not_nil in Hs|].
    change (join (String sep "") ("" :: h :: t))
      with ("" +++ String sep "" +++ join (String sep "") (h :: t)).
    rewrite IH. reflexivity.
  - destruct (split sep s) as [|h t] eqn:Hs; [now apply split_not_nil in Hs|].
    destruct t as [|h' t].
    + cbn [join] in *. now rewrite IH.
    + change (join (String sep "") (String c h :: h' :: t))
        with (String c h +++ String sep "" +++ join (String sep "") (h' :: t)).
      rewrite append_cons. f_equal. exact IH.
Qed.

Lemma pop_app_last (l : list string) (x : string) : pop (l ++ [x]) = Some x.
Proof. unfold pop. rewrite map_app. cbn [map]. apply last_last. Qed.

Lemma split_segments_clean (sep : ascii) (s : string) :
  Forall (fun part => contains_char sep part = false) (split sep s).
Proof.
  induction s as [|c s IH]; [repeat constructor|].
  cbn [split]. destruct (Ascii.eqb_spec c sep) as [->|Hne].
  - constructor; [reflexivity | exact IH].
  - destruct (split sep s) as [|h t] eqn:Hs; [now apply split_not_nil in Hs|].
    inversion IH as [|? ? Hh Ht]; subst. constructor; [|exact Ht].
    unfold contains_char in *. cbn [list_ascii_of_string existsb].
    rewrite Hh, orb_false_r. now apply Ascii.eqb_neq.
Qed.

End SplitFacts.

Section NameFacts.

Lemma split_dotted (sep : ascii) (base ext : string) :
  contains_char sep ext = false ->
  split sep (base +++ String sep ext) = (split sep base ++ [ext])%list.
Proof.
  intros Hext. now rewrite split_app_sep, (split_without_separator sep ext Hext).
Qed.

Lemma length_split_dotted (sep : ascii) (base ext : string) :
  (1 <? List.length (split sep base ++ [ext]))%nat = true.
Proof.
  destruct (split sep base) as [|h t] eqn:Hs; [now apply split_not_nil in Hs|].
  destruct t; reflexivity.
Qed.

Lemma last_segment_dotted (base e : string) : last_segment (split "." base ++ [e]) = e.
Proof. unfold last_segment. now rewrite pop_app_last. Qed.

Lemma strip_proper_extension (base ext : string) :
  ext <> "" -> contains_char "." ext = false -> contains_char "/" ext = false ->
  strip_extension (base +++ "." +++ ext) = base.
Proof.
  intros Hne Hdot Hslash. unfold strip_extension.
  change (base +++ "." +++ ext) with (base +++ String "." ext).
  rewrite (split_dotted "." base ext Hdot), last_segment_dotted, length_split_dotted, Hslash.
  destruct (String.eqb_spec ext "") as [|_]; [contradiction|].
  cbn [negb andb]. rewrite removelast_last. apply (join_split ".").
Qed.

Lemma strip_without_dot (name : string) :
  contains_char "." name = false -> strip_extension name = name.
Proof.
  intros Hdot. unfold strip_extension.
  now rewrite (split_without_separator "." name Hdot).
Qed.

End NameFacts.

(** X1. The regular expression [/\.[^/.]+$/] removes a proper extension and
    nothing else. *)
Theorem strip_extension_spec (base ext name : string) :
  (ext <> "" -> contains_char "." ext = false -> contains_char "/" ext = false ->
   strip_extension (base +++ "." +++ ext) = base) /\
  (contains_char "." name = false -> strip_extension name = name) /\
  strip_extension (base +++ ".") = base +++ "." /\
  (contains_char "." ext = false -> contains_char "/" ext = true ->
   strip_extension (base +++ "." +++ ext) = base +++ "." +++ ext).
Proof.
  repeat split.
  - apply strip_proper_extension.
  - apply strip_without_dot.
  - unfold strip_extension.
    change (base +++ ".") with (base +++ String "." "").
    rewrite (split_dotted "." base "" eq_refl), last_segment_dotted, length_split_dotted.
    reflexivity.
  - intros Hdot Hslash. unfold strip_extension.
    change (base +++ "." +++ ext) with (base +++ String "." ext).
    rewrite (split_dotted "." base ext Hdot), last_segment_dotted, length_split_dotted, Hslash.
    now rewrite andb_false_r.
Qed.

Lemma strip_extension_spec_witness :
  strip_extension ("my.talk" +++ "." +++ "mp3") = "my.talk" /\
  strip_extension "README" = "README" /\
  strip_extension ("v1" +++ "." +++ "0/talk") = "v1" +++ "." +++ "0/talk".
Proof.
  split; [|split].
  - apply (proj1 (strip_extension_spec "my.talk" "mp3" "")); [easy | reflexivity | reflexivity].
  - apply (proj1 (proj2 (strip_extension_spec "" "" "README"))). reflexivity.
  - apply (proj2 (proj2 (proj2 (strip_extension_spec "v1" "0/talk" "")))); reflexivity.
Defined.

(** X2. The two download names of the result card. *)
Theorem download_names (base ext rest : string) :
  contains_char "." base = false ->
  (srt_download_name (base +++ "." +++ rest) = base +++ ".srt") /\
  (ext <> "" -> contains_char "." ext = false -> contains_char "/" ext = false ->
   json_download_name (rest +++ "." +++ ext) = rest +++ ".json") /\
  srt_download_name base = base +++ ".srt" /\
  json_download_name base = base +++ ".json".
Proof.
  intros Hbase. repeat split.
  - unfold srt_download_name.
    change (base +++ "." +++ rest) with (base +++ String "." rest).
    now rewrite split_app_sep, (split_without_separator "." base Hbase).
  - intros Hne Hdot Hslash. unfold json_download_name.
    now rewrite (strip_proper_extension rest ext Hne Hdot Hslash).
  - unfold srt_download_name. now rewrite (split_without_separator "." base Hbase).
  - unfold json_download_name. now rewrite (strip_without_dot base Hbase).
Qed.

Lemma download_names_witness :
  srt_download_name ("talk" +++ "." +++ "v2.mp3") = "talk" +++ ".srt" /\
  json_download_name ("talk.v2" +++ "." +++ "mp3") = "talk.v2" +++ ".json".
Proof.
  split.
  - apply (proj1 (download_names "talk" "" "v2.mp3" eq_refl)).
  - apply (proj1 (proj2 (download_names "talk" "mp3" "talk.v2" eq_refl)));
      [easy | reflexivity | reflexivity].
Defined.

(** X3. The key of the transcript object is what follows the bucket in a
    path-style address. *)
Theorem transcript_key_path_style (bucket key : string) :
  contains_char "/" bucket = false ->
  transcript_key ("/" +++ bucket +++ "/" +++ key) = key /\
  transcript_key ("/" +++ bucket) = "" /\
  transcript_key bucket = "".
Proof.
  intros Hb. unfold transcript_key. repeat split.
  - change ("/" +++ bucket +++ "/" +++ key) with (String "/" (bucket +++ String "/" key)).
    cbn [split]. cbn [Ascii.eqb Bool.eqb]. cbv iota.
    rewrite split_app_sep, (split_without_separator "/" bucket Hb).
    cbn [app skipn]. apply (join_split "/").
  - change ("/" +++ bucket) with (String "/" bucket).
    cbn [split]. cbn [Ascii.eqb Bool.eqb]. cbv iota.
    now rewrite (split_without_separator "/" bucket Hb).
  - now rewrite (split_without_separator "/" bucket Hb).
Qed.

Lemma transcript_key_path_style_witness :
  transcript_key ("/" +++ "media" +++ "/" +++ "out/job-1.json") = "out/job-1.json".
Proof. apply (proj1 (transcript_key_path_style "media" "out/job-1.json" eq_refl)). Defined.

Section LowerCaseFacts.

Lemma lower_char_dot (c : ascii) : Ascii.eqb "." (lower_char c) = Ascii.eqb "." c.
Proof.
  destruct c as [[] [] [] [] [] [] [] []]; reflexivity.
Qed.

Lemma toLowerCase_keeps_dots (s : string) :
  contains_char "." (toLowerCase s) = contains_char "." s.
Proof.
  induction s as [|c s IH]; [reflexivity|].
  cbn [toLowerCase]. unfold contains_char in *. cbn [list_ascii_of_string existsb].
  now rewrite lower_char_dot, IH.
Qed.

Lemma pop_split_clean (sep : ascii) (s ext : string) :
  pop (split sep s) = Some ext -> contains_char sep ext = false.
Proof.
  intros Hpop. pose proof (split_segments_clean sep s) as Hall.
  destruct (exists_last (split_not_nil sep s)) as (l & x & Hl).
  rewrite Hl in Hpop, Hall. rewrite pop_app_last in Hpop. injection Hpop as <-.
  apply Forall_app in Hall. destruct Hall as [_ Hx]. now inversion Hx.
Qed.

Lemma lower_char_ascii (c : ascii) :
  ascii_char c = true ->
  ascii_char (lower_char c) = true /\ capital (lower_char c) = false.
Proof.
  destruct c as [[] [] [] [] [] [] [] []]; intros Hc; try discriminate Hc; split; reflexivity.
Qed.

Lemma toLowerCase_ascii (s : string) :
  ascii_text s = true ->
  ascii_text (toLowerCase s) = true /\ no_capital (toLowerCase s) = true.
Proof.
  unfold ascii_text, no_capital. induction s as [|c s IH]; [split; reflexivity|].
  cbn [list_ascii_of_string forallb toLowerCase]. intros Hs.
  apply andb_true_iff in Hs. destruct Hs as [Hc Hs].
  destruct (lower_char_ascii c Hc) as [-> ->]. destruct (IH Hs) as [-> ->].
  split; reflexivity.
Qed.

Lemma split_segments_ascii (sep : ascii) (s : string) :
  ascii_text s = true -> Forall (fun part => ascii_text part = true) (split sep s).
Proof.
  unfold ascii_text. induction s as [|c s IH]; [repeat constructor|].
  cbn [list_ascii_of_string forallb split]. intros Hs.
  apply andb_true_iff in Hs. destruct Hs as [Hc Hs]. specialize (IH Hs).
  destruct (Ascii.eqb c sep); [constructor; [reflexivity | exact IH]|].
  destruct (split sep s) as [|h t] eqn:Hsplit; [now apply split_not_nil in Hsplit|].
  inversion IH as [|? ? Hh Ht]; subst. constructor; [|exact Ht].
  cbn [list_ascii_of_string forallb]. now rewrite Hc, Hh.
Qed.

Lemma pop_split_ascii (sep : ascii) (s ext : string) :
  ascii_text s = true -> pop (split sep s) = Some ext -> ascii_text ext = true.
Proof.
  intros Hs Hpop. pose proof (split_segments_ascii sep s Hs) as Hall.
  destruct (exists_last (split_not_nil sep s)) as (l & x & Hl).
  rewrite Hl in Hpop, Hall. rewrite pop_app_last in Hpop. injection Hpop as <-.
  apply Forall_app in Hall. destruct Hall as [_ Hx]. now inversion Hx.
Qed.

End LowerCaseFacts.

(** X4. The media format sent to the provider is never empty and holds no
    dot, whatever the file name; for a file name of the ASCII range it is a
    text of the ASCII range without a capital letter; and for a name with
    an extension of the ASCII range it is the extension in lower case. *)
Theorem mediaFormat_shape (name base ext : string) :
  mediaFormat name <> "" /\
  contains_char "." (mediaFormat name) = false /\
  (ascii_text name = true ->
   ascii_text (mediaFormat name) = true /\ no_capital (mediaFormat name) = true) /\
  (ascii_text ext = true -> contains_char "." ext = false -> ext <> "" ->
   mediaFormat (base +++ "." +++ ext) = toLowerCase ext /\
   no_capital (toLowerCase ext) = true).
Proof.
  split; [|split; [|split]].
  - unfold mediaFormat. destruct (pop (split "." name)) as [e|]; [|easy].
    now destruct (String.eqb_spec (toLowerCase e) "").
  - unfold mediaFormat. destruct (pop (split "." name)) as [e|] eqn:Hpop; [|easy].
    destruct (String.eqb_spec (toLowerCase e) ""); [easy|].
    rewrite toLowerCase_keeps_dots. now apply pop_split_clean with name.
  - intros Hname. unfold mediaFormat.
    destruct (pop (split "." name)) as [e|] eqn:Hpop; [|split; reflexivity].
    destruct (String.eqb_spec (toLowerCase e) ""); [split; reflexivity|].
    now apply toLowerCase_ascii, (pop_split_ascii "." name).
  - intros Hascii Hdot Hne. split; [now apply mediaFormat_extension|].
    now apply toLowerCase_ascii.
Qed.

Lemma mediaFormat_shape_witness :
  mediaFormat ("Talk.Final" +++ "." +++ "WAV") = toLowerCase "WAV" /\
  no_capital (toLowerCase "WAV") = true.
Proof.
  apply (proj2 (proj2 (proj2 (mediaFormat_shape "" "Talk.Final" "WAV"))));
    [reflexivity | reflexivity | easy].
Defined.

(* ===================================================================== *)
(** ** Proofs: the waits of the retry wrapper *)
(* ===================================================================== *)

Section RetrySchedule.
Context {W : Type} `{World W} {T : Type}.
Variable operation : W -> (thrown + T) * W.

Lemma total_arithmetic (delay a : Z) (m : nat) :
  2 * total (map (fun k => delay * (a + Z.of_nat k)) (seq 0 m))
  = delay * Z.of_nat m * (2 * a + Z.of_nat m - 1).
Proof.
  assert (Happ : forall l x, total (l ++ [x]) = total l + x).
  { unfold total. induction l as [|y l IHl]; intros x; cbn [fold_right app]; [lia|].
    rewrite IHl. lia. }
  induction m as [|m IH]; [unfold total; cbn [seq map fold_right]; lia|].
  rewrite seq_S, map_app. cbn [map Nat.add]. rewrite Happ. nia.
Qed.

Lemma retry_run_schedule (maxRetries delay a : Z) (w w' : W) (tr : list event)
    (r : thrown + T) :
  retry_run operation maxRetries delay a w tr r w' ->
  (1 <= invocations tr)%nat /\
  sleeps tr = map (fun k => delay * (a + Z.of_nat k)) (seq 0 (invocations tr - 1)) /\
  match r with
  | inr _ =>
      List.length (failures tr) = (invocations tr - 1)%nat /\
      a + Z.of_nat (invocations tr) - 1 <= maxRetries
  | inl e =>
      List.length (failures tr) = invocations tr /\
      a + Z.of_nat (invocations tr) - 1 = maxRetries /\
      List.last (failures tr) undefined_value = e
  end.
Proof.
  induction 1 as [a w v w' Hle Hop | w e w' Hop
                 | a w e w1 tr r w2 Hlt Hop Hrun (Hn & Hs & Hr)].
  - cbn. repeat split; lia.
  - cbn. repeat split; lia.
  - change (invocations (Invoked (Some e) :: OperationFailed a maxRetries e
                           :: Sleep (delay * a) :: tr)) with (S (invocations tr)).
    change (sleeps (Invoked (Some e) :: OperationFailed a maxRetries e
                      :: Sleep (delay * a) :: tr)) with (delay * a :: sleeps tr).
    change (failures (Invoked (Some e) :: OperationFailed a maxRetries e
                        :: Sleep (delay * a) :: tr)) with (e :: failures tr).
    split; [lia|]. split.
    + replace (S (invocations tr) - 1)%nat with (S (invocations tr - 1)) by lia.
      cbn [seq map]. rewrite Hs, <- seq_shift, map_map. f_equal; [f_equal; lia|].
      apply map_ext. intros k. f_equal. lia.
    + destruct r as [e'|v].
      * destruct Hr as (Hlen & Hmax & Hlast). cbn [List.length]. repeat split; try lia.
        destruct (failures tr) as [|x l] eqn:Hf; [cbn in Hlen; lia|]. exact Hlast.
      * destruct Hr as (Hlen & Hmax). cbn [List.length]. split; lia.
Qed.

(** X5. The waits of the retry wrapper. *)
Theorem retry_backoff_schedule (maxRetries delay : Z) (st : state) :
  1 <= maxRetries ->
  exists tr r w',
    retryOperation operation maxRetries delay st = (r, mkState w' (trace st ++ tr)) /\
    (1 <= invocations tr <= Z.to_nat maxRetries)%nat /\
    sleeps tr = map (fun k => delay * Z.of_nat k) (seq 1 (invocations tr - 1)) /\
    2 * total (sleeps tr)
    = delay * Z.of_nat (invocations tr) * (Z.of_nat (invocations tr) - 1) /\
    match r with
    | inr _ => List.length (failures tr) = (invocations tr - 1)%nat
    | inl e =>
        invocations tr = Z.to_nat maxRetries /\
        List.length (failures tr) = invocations tr /\
        List.last (failures tr) undefined_value = e
    end.
Proof.
  intros Hmax. unfold retryOperation, attempt_range.
  destruct (Z.to_nat maxRetries) as [|n] eqn:Hn; [lia|].
  destruct (retry_loop_run operation maxRetries delay n 1 None st ltac:(lia))
    as (tr & r & w' & Hrun & Hrel & Hcount).
  exists tr, r, w'. split; [exact Hrun|].
  destruct (retry_run_schedule _ _ _ _ _ _ _ Hrel) as (H1 & Hs & Hr).
  change (Z.of_nat 1) with 1 in Hs, Hr.
  split; [lia|]. split; [|split].
  - rewrite Hs, <- seq_shift, map_map. apply map_ext. intros k. f_equal. lia.
  - rewrite Hs, total_arithmetic.
    replace (Z.of_nat (invocations tr - 1)) with (Z.of_nat (invocations tr) - 1) by lia.
    ring.
  - destruct r as [e|v]; [|tauto].
    destruct Hr as (Hlen & Hsum & Hlast). repeat split; try assumption. lia.
Qed.

(** X6. With no attempt to make, the wrapper throws [undefined] and never
    calls the operation. *)
Theorem retry_without_attempts (maxRetries delay : Z) (st : state) :
  maxRetries <= 0 ->
  retryOperation operation maxRetries delay st = (inl undefined_value, st).
Proof.
  intros Hmax. unfold retryOperation, attempt_range.
  replace (Z.to_nat maxRetries) with 0%nat by lia. reflexivity.
Qed.

End RetrySchedule.

Lemma retry_backoff_schedule_witness :
  exists tr r w',
    retryOperation (flaky_operation 5) 3 1000 (mkState 0%nat [])
    = (r, mkState w' ([] ++ tr)) /\
    (1 <= invocations tr <= Z.to_nat 3)%nat /\
    sleeps tr = map (fun k => 1000 * Z.of_nat k) (seq 1 (invocations tr - 1)) /\
    2 * total (sleeps tr)
    = 1000 * Z.of_nat (invocations tr) * (Z.of_nat (invocations tr) - 1) /\
    match r with
    | inr _ => List.length (failures tr) = (invocations tr - 1)%nat
    | inl e =>
        invocations tr = Z.to_nat 3 /\
        List.length (failures tr) = invocations tr /\
        List.last (failures tr) undefined_value = e
    end.
Proof.
  apply (retry_backoff_schedule (flaky_operation 5) 3 1000 (mkState 0%nat [])). lia.
Defined.

Lemma retry_without_attempts_witness :
  retryOperation (flaky_operation 0) 0 1000 (mkState 0%nat [])
  = (inl undefined_value, mkState 0%nat []).
Proof. apply (retry_without_attempts (flaky_operation 0) 0 1000). lia. Defined.

(* ===================================================================== *)
(** ** Proofs: the file fingerprint *)
(* ===================================================================== *)

Section FileHashFacts.

Lemma join_empty_separator (l : list string) : join "" l = concat_all l.
Proof.
  induction l as [|s l IH]; [reflexivity|].
  destruct l as [|s' l].
  - cbn [join concat_all]. now rewrite append_empty_r.
  - change (join "" (s :: s' :: l)) with (s +++ "" +++ join "" (s' :: l)).
    rewrite IH, append_empty_l. reflexivity.
Qed.

Lemma byte_two_digits (b : Byte.byte) :
  padStart 2 "0" (byte_toString16 b)
  = String (hex_digit (Byte.to_N b / 16)) (String (hex_digit (Byte.to_N b mod 16)) "").
Proof. destruct b; reflexivity. Qed.

Lemma byte_round_trip (b : Byte.byte) :
  hex_value (hex_digit (Byte.to_N b / 16)) = Some (Byte.to_N b / 16)%N /\
  hex_value (hex_digit (Byte.to_N b mod 16)) = Some (Byte.to_N b mod 16)%N /\
  Byte.of_N (16 * (Byte.to_N b / 16) + Byte.to_N b mod 16) = Some b.
Proof. destruct b; repeat split. Qed.

Lemma hex_of_digest_cons (b : Byte.byte) (l : list Byte.byte) :
  hex_of_digest (b :: l)
  = String (hex_digit (Byte.to_N b / 16))
      (String (hex_digit (Byte.to_N b mod 16)) (hex_of_digest l)).
Proof.
  unfold hex_of_digest. rewrite !join_empty_separator. cbn [map concat_all].
  now rewrite byte_two_digits.
Qed.

Lemma hex_round_trip (l : list Byte.byte) :
  bytes_of_hex (hex_of_digest l) = Some l.
Proof.
  induction l as [|b l IH]; [reflexivity|].
  rewrite hex_of_digest_cons. cbn [bytes_of_hex].
  destruct (byte_round_trip b) as (-> & -> & ->). now rewrite IH.
Qed.

Lemma hex_length (l : list Byte.byte) :
  String.length (hex_of_digest l) = (2 * List.length l)%nat.
Proof.
  induction l as [|b l IH]; [reflexivity|].
  rewrite hex_of_digest_cons. cbn [String.length List.length]. rewrite IH. lia.
Qed.

Lemma hex_alphabet (l : list Byte.byte) :
  forallb is_lower_hex (list_ascii_of_string (hex_of_digest l)) = true.
Proof.
  induction l as [|b l IH]; [reflexivity|].
  rewrite hex_of_digest_cons. cbn [list_ascii_of_string forallb]. rewrite IH.
  unfold is_lower_hex. destruct (byte_round_trip b) as (-> & -> & _). reflexivity.
Qed.

Lemma hex_injective (l1 l2 : list Byte.byte) :
  hex_of_digest l1 = hex_of_digest l2 -> l1 = l2.
Proof.
  intros Heq.
  pose proof (hex_round_trip l1) as H1. pose proof (hex_round_trip l2) as H2.
  rewrite Heq in H1. congruence.
Qed.

End FileHashFacts.

(** X8. The fingerprint of a file is the digest written with two lower-case
    hexadecimal digits per byte: 64 characters for a 32-byte digest, from
    which the digest can be read back, so that two files have the same
    fingerprint exactly when they have the same digest. *)
Theorem generateFileHash_encoding (digest : list Byte.byte -> list Byte.byte)
    (buffer other : list Byte.byte) :
  String.length (generateFileHash digest buffer) = (2 * List.length (digest buffer))%nat /\
  (List.length (digest buffer) = 32%nat ->
   String.length (generateFileHash digest buffer) = 64%nat) /\
  forallb is_lower_hex (list_ascii_of_string (generateFileHash digest buffer)) = true /\
  bytes_of_hex (generateFileHash digest buffer) = Some (digest buffer) /\
  (generateFileHash digest buffer = generateFileHash digest other <->
   digest buffer = digest other).
Proof.
  unfold generateFileHash. split; [apply hex_length|]. split.
  { intros H32. rewrite hex_length, H32. reflexivity. }
  split; [apply hex_alphabet|]. split; [apply hex_round_trip|]. split.
  - apply hex_injective.
  - now intros ->.
Qed.

Lemma generateFileHash_encoding_witness :
  String.length (generateFileHash toy_digest [Byte.xa7; Byte.x01]) = 64%nat.
Proof.
  apply (proj1 (proj2 (generateFileHash_encoding toy_digest [Byte.xa7; Byte.x01] []))).
  reflexivity.
Defined.

(* ===================================================================== *)
(** ** Proofs: the edges of the format converter *)
(* ===================================================================== *)

Section ConverterEdges.

Lemma convert_step_throws (len i : nat) (item : Item) (st : LoopState) :
  (lacks_content item = true -> convert_step len i item st = inl content_TypeError) /\
  (lacks_content item = false ->
   exists st1 emitted, convert_step len i item st = inr (st1, emitted)).
Proof.
  unfold lacks_content, reads_content, convert_step, accumulate, isEndOfSentence,
    first_content.
  assert (Hpair : forall x : LoopState * option Block,
             exists st1 emitted, inr x = inr (st1, emitted) :> thrown + _).
  { intros [st1 emitted]. eauto. }
  destruct (is_pronunciation item), (is_punctuation item), (alternatives item);
    cbn; split; intros Hl; try discriminate Hl; try reflexivity; apply Hpair.
Qed.

Lemma convert_loop_throws (len : nat) (rest : list Item) :
  forall (i : nat) (st : LoopState),
    (existsb lacks_content rest = true ->
     convert_loop len i rest st = inl content_TypeError) /\
    (existsb lacks_content rest = false ->
     exists st' blocks, convert_loop len i rest st = inr (st', blocks)).
Proof.
  induction rest as [|item rest IH]; intros i st.
  - split; [discriminate|]. intros _. cbn. eauto.
  - cbn [existsb convert_loop].
    destruct (convert_step_throws len i item st) as [Hbad Hgood].
    destruct (lacks_content item) eqn:Hitem.
    + split; [|discriminate]. intros _. now rewrite Hbad.
    + destruct (Hgood eq_refl) as (st1 & emitted & ->). cbn [orb].
      destruct (IH (S i) st1) as [Hthrow Hret]. split.
      * intros Hex. now rewrite (Hthrow Hex).
      * intros Hex. destruct (Hret Hex) as (st' & blocks & ->). eauto.
Qed.

Lemma fixed_window_not_empty (fullText : string) : fixed_window_subtitle fullText <> "".
Proof. unfold fixed_window_subtitle. intros Heq. apply append_eq_empty in Heq. easy. Qed.

(** The early return for a transcript without items agrees with the
    fallback after the walk. *)
Lemma convert_outcome (td : TranscriptData) :
  convertTranscriptToSrt td
  = match results td with
    | None => inr ""
    | Some res =>
        match transcripts res with
        | None => inr ""
        | Some ts =>
            match walk (items_or_none res) with
            | inl e => inl e
            | inr (st, _) =>
                match String.eqb (ls_srtContent st) "", ts with
                | true, t :: _ => inr (fixed_window_subtitle (transcript t))
                | _, _ => inr (ls_srtContent st)
                end
            end
        end
    end.
Proof.
  unfold convertTranscriptToSrt, items_or_none.
  destruct (results td) as [res|]; [|reflexivity].
  destruct (transcripts res) as [[|t ts]|]; [| |reflexivity];
    destruct (items res) as [[|item its]|]; reflexivity.
Qed.

End ConverterEdges.

(** X9. The conversion throws exactly when the transcript has its list of
    full texts and an item that is a pronunciation or a punctuation has no
    alternative; what it throws is the [TypeError] of reading [content] of
    [undefined]. *)
Theorem convert_throws_iff (td : TranscriptData) (e : thrown) :
  convertTranscriptToSrt td = inl e <->
  e = content_TypeError /\
  exists res ts,
    results td = Some res /\ transcripts res = Some ts /\
    existsb lacks_content (items_or_none res) = true.
Proof.
  rewrite convert_outcome.
  destruct (results td) as [res|].
  2:{ split; [discriminate|]. intros (_ & res & ts & Hres & _). discriminate Hres. }
  destruct (transcripts res) as [ts|] eqn:Hts.
  2:{ split; [discriminate|]. intros (_ & res' & ts & [= <-] & Hts' & _). congruence. }
  unfold walk.
  destruct (convert_loop_throws (List.length (items_or_none res)) (items_or_none res)
              0%nat initial_loop_state) as [Hthrow Hret].
  destruct (existsb lacks_content (items_or_none res)) eqn:Hex.
  - rewrite (Hthrow eq_refl). split.
    + intros [= <-]. split; [reflexivity|]. exists res, ts. auto.
    + now intros [-> _].
  - destruct (Hret eq_refl) as (st' & blocks & ->). split.
    + destruct (String.eqb (ls_srtContent st') ""), ts; discriminate.
    + intros (_ & res' & ts' & [= <-] & _ & Hex'). congruence.
Qed.

(** X10. The output is empty only for a transcript without its list of full
    texts, or with an empty list of them and no block emitted; with a full
    text it is never empty. *)
Theorem convert_empty_iff (td : TranscriptData) :
  (convertTranscriptToSrt td = inr "" <->
   results td = None \/
   exists res, results td = Some res /\
     (transcripts res = None \/
      transcripts res = Some [] /\ exists st, walk (items_or_none res) = inr (st, []))) /\
  (forall res t ts s,
      results td = Some res -> transcripts res = Some (t :: ts) ->
      convertTranscriptToSrt td = inr s -> s <> "").
Proof.
  rewrite convert_outcome. split.
  - destruct (results td) as [res|]; [|split; auto].
    destruct (transcripts res) as [ts|] eqn:Hts.
    2:{ split; [|reflexivity]. intros _. right. exists res. auto. }
    destruct (walk (items_or_none res)) as [e|[st blocks]] eqn:Hwalk.
    + split; [discriminate|].
      intros [Hn|(res' & [= <-] & [Hn|(_ & st & Hst)])]; congruence.
    + pose proof (walk_silent _ _ _ Hwalk) as Hsilent.
      destruct (String.eqb_spec (ls_srtContent st) "") as [Hempty|Hne].
      * destruct ts as [|t ts].
        -- split; [|now rewrite Hempty]. intros _. right. exists res. split; [reflexivity|].
           right. split; [exact Hts|]. exists st. rewrite Hwalk. f_equal. f_equal. now apply Hsilent.
        -- split.
           ++ intros Heq. exfalso. injection Heq as Heq'. revert Heq'.
              apply fixed_window_not_empty.
           ++ intros [Hn|(res' & [= <-] & [Hn|(Hn & _)])]; congruence.
      * split.
        -- destruct ts; intros [= Heq]; contradiction.
        -- intros [Hn|(res' & [= <-] & [Hn|(_ & st' & Hst)])]; try congruence.
           rewrite Hwalk in Hst. injection Hst as <- Hb.
           apply Hsilent in Hb. contradiction.
  - intros res t ts s -> Hts. rewrite Hts.
    destruct (walk (items_or_none res)) as [e|[st blocks]]; [discriminate|].
    destruct (String.eqb_spec (ls_srtContent st) "") as [Hempty|Hne];
      intros Heq; injection Heq as <-.
    + apply fixed_window_not_empty.
    + exact Hne.
Qed.

Lemma convert_empty_iff_witness :
  convertTranscriptToSrt comma_transcript
  = inr (fixed_window_subtitle "Hello.") /\ fixed_window_subtitle "Hello." <> "".
Proof.
  split; [reflexivity|].
  apply (proj2 (convert_empty_iff comma_transcript) comma_results {| transcript := "Hello." |}
           [] (fixed_window_subtitle "Hello.") eq_refl eq_refl eq_refl).
Defined.

Section BoundaryFacts.
Variable its : list Item.

Lemma flush_at_boundary (i : nat) (boundary : bool) (st st' : LoopState) (b : Block) :
  flush i boundary st = (st', Some b) -> boundary = true.
Proof.
  unfold flush. destruct boundary; [reflexivity|]. cbn. discriminate.
Qed.

Lemma convert_step_boundary (i : nat) (item : Item) (st st' : LoopState) (b : Block) :
  convert_step (List.length its) i item st = inr (st', Some b) ->
  blk_at b = i /\ (sentence_end item = true \/ S i = List.length its) /\
  blk_startTime b <> "" /\ blk_endTime b <> "".
Proof.
  unfold convert_step, sentence_end.
  destruct (accumulate item st) as [e|st1]; [discriminate|].
  destruct (isEndOfSentence item) as [e|eos]; [discriminate|].
  intros [= Hflush].
  pose proof (flush_at_boundary _ _ _ _ _ Hflush) as Hb.
  destruct (flush_emitted _ _ _ _ _ Hflush)
    as (_ & _ & Hat & _ & _ & _ & _ & _ & _ & Hs & He).
  repeat split; try assumption.
  apply orb_true_iff in Hb. destruct Hb as [Heos|Hlast]; [now left|].
  right. now apply Nat.eqb_eq.
Qed.

Lemma skipn_cons_nth (i : nat) (item : Item) (rest : list Item) :
  skipn i its = item :: rest ->
  nth_error its i = Some item /\ skipn (S i) its = rest /\ (i < List.length its)%nat.
Proof.
  revert i. induction its as [|x l IH]; intros i Hskip.
  - now destruct i.
  - destruct i as [|i].
    + cbn in Hskip. injection Hskip as -> ->. cbn. repeat split. lia.
    + cbn [skipn] in Hskip. destruct (IH i Hskip) as (H1 & H2 & H3).
      cbn [nth_error List.length]. repeat split; try assumption. lia.
Qed.

Lemma convert_loop_boundaries (rest : list Item) :
  forall (i : nat) (st st' : LoopState) (blocks : list Block),
    skipn i its = rest ->
    convert_loop (List.length its) i rest st = inr (st', blocks) ->
    Forall (fun b =>
              (i <= blk_at b)%nat /\
              (exists item, nth_error its (blk_at b) = Some item /\
                            (sentence_end item = true \/ S (blk_at b) = List.length its)) /\
              blk_startTime b <> "" /\ blk_endTime b <> "") blocks /\
    (List.length blocks
     <= List.length (List.filter sentence_end rest)
        + match rest with [] => 0 | _ :: _ => 1 end)%nat.
Proof.
  induction rest as [|item rest IH]; intros i st st' blocks Hskip Hloop.
  - cbn in Hloop. injection Hloop as <- <-. split; [constructor | cbn; lia].
  - cbn [convert_loop] in Hloop.
    destruct (skipn_cons_nth i item rest Hskip) as (Hnth & Hskip' & Hlt).
    destruct (convert_step (List.length its) i item st) as [e|[st1 emitted]] eqn:Hstep;
      [discriminate|].
    destruct (convert_loop (List.length its) (S i) rest st1) as [e|[st2 blocks']] eqn:Hrest;
      [discriminate|].
    injection Hloop as <- <-.
    destruct (IH (S i) st1 st2 blocks' Hskip' Hrest) as [Hall Hcount].
    assert (Hall' : Forall (fun b =>
              (i <= blk_at b)%nat /\
              (exists item, nth_error its (blk_at b) = Some item /\
                            (sentence_end item = true \/ S (blk_at b) = List.length its)) /\
              blk_startTime b <> "" /\ blk_endTime b <> "") blocks').
    { eapply List.Forall_impl; [|exact Hall]. cbn beta. intros b (Hle & Hrem). split; [lia | exact Hrem]. }
    cbn [List.filter].
    destruct emitted as [b|].
    + destruct (convert_step_boundary i item st st1 b Hstep) as (Hat & Hb & Hs & He).
      split.
      * constructor; [|exact Hall']. rewrite Hat. split; [lia|]. split; [|auto].
        exists item. auto.
      * cbn [List.length]. destruct Hb as [Heos|Hlast].
        -- rewrite Heos. cbn [List.length]. destruct rest; cbn in *; lia.
        -- assert (Hnil : rest = []).
           { destruct rest as [|x r]; [reflexivity|].
             destruct (skipn_cons_nth (S i) x r Hskip') as (_ & _ & Hlt'). lia. }
           rewrite Hnil in Hrest |- *. cbn [convert_loop] in Hrest.
           assert (Hb' : blocks' = []) by congruence. subst blocks'.
           destruct (sentence_end item); cbn; lia.
    + split; [exact Hall'|].
      destruct (sentence_end item); cbn [List.length]; destruct rest; cbn in *; lia.
Qed.

End BoundaryFacts.

(** X11. A block is emitted only on a full stop, a question mark or an
    exclamation mark, or on the last item, and only with both of its time
    stamps; so a transcript gives at most one block more than it has such
    marks. *)
Theorem blocks_at_sentence_ends (its : list Item) (st : LoopState) (blocks : list Block) :
  walk its = inr (st, blocks) ->
  Forall (fun b =>
            (exists item, nth_error its (blk_at b) = Some item /\
                          (sentence_end item = true \/ S (blk_at b) = List.length its)) /\
            blk_startTime b <> "" /\ blk_endTime b <> "") blocks /\
  (List.length blocks <= List.length (List.filter sentence_end its) + 1)%nat.
Proof.
  intros Hwalk.
  destruct (convert_loop_boundaries its its 0%nat initial_loop_state st blocks eq_refl Hwalk)
    as [Hall Hcount].
  split.
  - eapply List.Forall_impl; [|exact Hall]. cbn beta. intros b (_ & Hrest). exact Hrest.
  - destruct its; cbn in *; lia.
Qed.

Lemma blocks_at_sentence_ends_witness :
  Forall (fun b =>
            (exists item, nth_error blank_then_word (blk_at b) = Some item /\
                          (sentence_end item = true
                           \/ S (blk_at b) = List.length blank_then_word)) /\
            blk_startTime b <> "" /\ blk_endTime b <> "")
    [ {| blk_at := 3; blk_index := 1; blk_startTime := "3"; blk_endTime := "4";
         blk_text := "Hi." |} ] /\
  (List.length [ {| blk_at := 3; blk_index := 1; blk_startTime := "3"; blk_endTime := "4";
                    blk_text := "Hi." |} ]
   <= List.length (List.filter sentence_end blank_then_word) + 1)%nat.
Proof.
  refine (blocks_at_sentence_ends blank_then_word _ _ _). vm_compute. reflexivity.
Defined.

(* ===================================================================== *)
(** ** Proofs: transcripts made of sentences *)
(* ===================================================================== *)

Section TrimFacts.

Lemma trimEnd_cons (c : ascii) (r : string) :
  trimEnd (String c r)
  = match trimEnd r with
    | EmptyString => if is_white c then EmptyString else String c EmptyString
    | r' => String c r'
    end.
Proof. reflexivity. Qed.

Lemma trimEnd_app_kept (a b : string) :
  trimEnd b <> "" -> trimEnd (a +++ b) = a +++ trimEnd b.
Proof.
  intros Hb. induction a as [|c a IH]; [now rewrite !append_empty_l|].
  rewrite !append_cons, trimEnd_cons, IH.
  destruct (a +++ trimEnd b) eqn:Hab; [|reflexivity].
  apply append_eq_empty in Hab. now destruct Hab.
Qed.

Lemma trimEnd_app_blank (a b : string) :
  trimEnd b = "" -> trimEnd (a +++ b) = trimEnd a.
Proof.
  intros Hb. induction a as [|c a IH]; [now rewrite append_empty_l|].
  now rewrite append_cons, !trimEnd_cons, IH.
Qed.

Lemma solid_inv (s : string) :
  solid s = true ->
  exists x r, s = String x r /\ is_white x = false /\ trimEnd s = s.
Proof.
  destruct s as [|x r]; [discriminate|]. cbn [solid]. intros H.
  apply andb_true_iff in H. destruct H as [Hx Ht].
  exists x, r. split; [reflexivity|]. split.
  - now destruct (is_white x).
  - now apply String.eqb_eq.
Qed.

Lemma solid_intro (x : ascii) (r : string) :
  is_white x = false -> trimEnd (String x r) = String x r -> solid (String x r) = true.
Proof.
  intros Hx Ht. cbn [solid]. rewrite Hx, Ht, String.eqb_refl. reflexivity.
Qed.

Lemma solid_not_empty (s : string) : solid s = true -> s <> "".
Proof. now destruct s. Qed.

Lemma solid_trim (s : string) : solid s = true -> trim s = s.
Proof.
  intros Hs. destruct (solid_inv s Hs) as (x & r & -> & Hx & Ht).
  unfold trim. cbn [trimStart]. now rewrite Hx.
Qed.

Lemma solid_trim_space (s : string) : solid s = true -> trim (s +++ " ") = s.
Proof.
  intros Hs. destruct (solid_inv s Hs) as (x & r & -> & Hx & Ht).
  unfold trim. rewrite append_cons. cbn [trimStart]. rewrite Hx, <- append_cons.
  now rewrite trimEnd_app_blank.
Qed.

Lemma solid_app (a b : string) : solid a = true -> solid b = true -> solid (a +++ b) = true.
Proof.
  intros Ha Hb. destruct (solid_inv a Ha) as (x & r & -> & Hx & Ht).
  destruct (solid_inv b Hb) as (y & q & Hbq & Hy & Htb).
  rewrite append_cons. apply solid_intro; [exact Hx|].
  rewrite <- append_cons, trimEnd_app_kept; rewrite Htb; [reflexivity|].
  now apply solid_not_empty.
Qed.

Lemma solid_app_space (a b : string) :
  solid a = true -> solid b = true -> solid (a +++ " " +++ b) = true.
Proof.
  intros Ha Hb. destruct (solid_inv a Ha) as (x & r & -> & Hx & Ht).
  destruct (solid_inv b Hb) as (y & q & Hbq & Hy & Htb).
  assert (Hsp : trimEnd (" " +++ b) = " " +++ b).
  { rewrite trimEnd_app_kept; rewrite Htb; [reflexivity|]. now apply solid_not_empty. }
  rewrite append_cons. apply solid_intro; [exact Hx|].
  rewrite <- append_cons, trimEnd_app_kept; rewrite Hsp; [reflexivity|].
  rewrite Hbq. discriminate.
Qed.

Lemma ends_sentence_solid (c : string) : ends_sentence c = true -> solid c = true.
Proof.
  unfold ends_sentence. intros H.
  apply orb_true_iff in H. destruct H as [H|H]; [apply orb_true_iff in H; destruct H as [H|H]|];
    apply String.eqb_eq in H; subst c; reflexivity.
Qed.

Lemma eqb_empty_false (s : string) : s <> "" -> String.eqb s "" = false.
Proof. intros Hs. now apply String.eqb_neq. Qed.

End TrimFacts.

Section SentenceFacts.
Variable len : nat.

Lemma convert_loop_app (a b : list Item) :
  forall (i : nat) (st : LoopState),
    convert_loop len i (a ++ b) st
    = match convert_loop len i a st with
      | inl e => inl e
      | inr (st1, blocks1) =>
          match convert_loop len (i + List.length a) b st1 with
          | inl e => inl e
          | inr (st2, blocks2) => inr (st2, (blocks1 ++ blocks2)%list)
          end
      end.
Proof.
  induction a as [|item a IH]; intros i st.
  - cbn [app convert_loop List.length]. rewrite Nat.add_0_r.
    now destruct (convert_loop len i b st) as [e|[st2 blocks2]].
  - cbn [app convert_loop List.length].
    destruct (convert_step len i item st) as [e|[st1 emitted]]; [reflexivity|].
    rewrite IH. replace (S i + List.length a)%nat with (i + S (List.length a))%nat by lia.
    destruct (convert_loop len (S i) a st1) as [e|[st2 blocks1]]; [reflexivity|].
    destruct (convert_loop len (i + S (List.length a)) b st2) as [e|[st3 blocks2]];
      [reflexivity|].
    now destruct emitted.
Qed.

Lemma well_formed_word_inv (w : Word) :
  well_formed_word w = true ->
  solid (word_text w) = true /\ word_start w <> "" /\ word_end w <> "".
Proof.
  unfold well_formed_word. intros H.
  apply andb_true_iff in H. destruct H as [H He].
  apply andb_true_iff in H. destruct H as [H Hs].
  apply andb_true_iff in H. destruct H as [Ht _].
  repeat split; [exact Ht | |]; intros Heq; rewrite Heq in *; discriminate.
Qed.

Lemma last_word_well_formed (toks : list Token) :
  forall w, well_formed_word w = true -> forallb well_formed_token toks = true ->
            well_formed_word (last_word w toks) = true.
Proof.
  induction toks as [|[w'|c] toks IH]; intros w Hw Hall; [exact Hw| |].
  - cbn in Hall. apply andb_true_iff in Hall. destruct Hall as [Hw' Hall].
    cbn [last_word]. now apply IH.
  - cbn in Hall. apply andb_true_iff in Hall. destruct Hall as [_ Hall].
    cbn [last_word]. now apply IH.
Qed.

(** The tokens of a sentence after its first word only extend the line. *)
Lemma tokens_loop (toks : list Token) :
  forall (i : nat) (st : LoopState) (line : string) (spaced : bool) (w : Word),
    forallb well_formed_token toks = true ->
    solid line = true ->
    ls_currentLine st = line +++ pad_of spaced ->
    ls_endTime st = Some (word_end w) ->
    (i + List.length toks < len)%nat ->
    exists st',
      convert_loop len i (map token_item toks) st = inr (st', []) /\
      ls_srtContent st' = ls_srtContent st /\ ls_index st' = ls_index st /\
      ls_startTime st' = ls_startTime st /\
      ls_endTime st' = Some (word_end (last_word w toks)) /\
      ls_currentLine st' = line_of line spaced toks +++ pad_of (spaced_after spaced toks) /\
      solid (line_of line spaced toks) = true.
Proof.
  induction toks as [|[w'|c] toks IH]; intros i st line spaced w Hall Hline Hcur Hend Hlen.
  - exists st. cbn [map convert_loop line_of last_word spaced_after].
    repeat split; assumption.
  - cbn in Hall. apply andb_true_iff in Hall. destruct Hall as [Hw' Hall].
    destruct (well_formed_word_inv w' Hw') as (Htext & _ & _).
    cbn [map token_item convert_loop List.length] in *.
    assert (Hne : String.eqb (ls_currentLine st) "" = false).
    { apply eqb_empty_false. rewrite Hcur. intros Heq. apply append_eq_empty in Heq.
      destruct Heq as [Heq _]. now apply solid_not_empty in Hline. }
    assert (Hlast : (S i =? len)%nat = false) by (apply Nat.eqb_neq; lia).
    unfold convert_step. change (accumulate (word_item w') st) with
      (inr {| ls_srtContent := ls_srtContent st;
              ls_index := ls_index st;
              ls_currentLine := ls_currentLine st +++ word_text w' +++ " ";
              ls_startTime := if String.eqb (ls_currentLine st) ""
                              then Some (word_start w') else ls_startTime st;
              ls_endTime := Some (word_end w') |} : thrown + LoopState).
    change (isEndOfSentence (word_item w')) with (inr false : thrown + bool).
    rewrite Hne, Hlast. cbn [orb]. unfold flush at 1. cbn [andb].
    assert (Hsolid : solid (line +++ pad_of spaced +++ word_text w') = true).
    { destruct spaced; cbn [pad_of].
      - now apply solid_app_space.
      - rewrite append_empty_l. now apply solid_app. }
    lazymatch goal with
    | |- context [convert_loop len (S i) _ ?s] =>
        destruct (IH (S i) s (line +++ pad_of spaced +++ word_text w') true w' Hall Hsolid)
          as (st' & Hrun & H1 & H2 & H3 & H4 & H5 & H6)
    end.
    + cbn [ls_currentLine pad_of]. rewrite Hcur, !append_assoc. reflexivity.
    + reflexivity.
    + lia.
    + exists st'. rewrite Hrun. cbn [ls_srtContent ls_index ls_startTime] in *.
      cbn [line_of last_word spaced_after]. repeat split; assumption.
  - cbn in Hall. apply andb_true_iff in Hall. destruct Hall as [Hc Hall].
    apply andb_true_iff in Hc. destruct Hc as [Hc Hmid].
    apply andb_true_iff in Hc. destruct Hc as [Hc _].
    cbn [map token_item convert_loop List.length] in *.
    assert (Hlast : (S i =? len)%nat = false) by (apply Nat.eqb_neq; lia).
    unfold convert_step. change (accumulate (mark c) st) with
      (inr {| ls_srtContent := ls_srtContent st;
              ls_index := ls_index st;
              ls_currentLine := trim (ls_currentLine st) +++ c;
              ls_startTime := ls_startTime st;
              ls_endTime := ls_endTime st |} : thrown + LoopState).
    change (isEndOfSentence (mark c)) with (inr (ends_sentence c) : thrown + bool).
    apply negb_true_iff in Hmid. rewrite Hmid, Hlast. cbn [orb]. unfold flush at 1.
    cbn [andb].
    assert (Htrim : trim (ls_currentLine st) = line).
    { rewrite Hcur. destruct spaced; cbn [pad_of].
      - now apply solid_trim_space.
      - rewrite append_empty_r. now apply solid_trim. }
    assert (Hsolid : solid (line +++ c) = true) by now apply solid_app.
    lazymatch goal with
    | |- context [convert_loop len (S i) _ ?s] =>
        destruct (IH (S i) s (line +++ c) false w Hall Hsolid)
          as (st' & Hrun & H1 & H2 & H3 & H4 & H5 & H6)
    end.
    + cbn [ls_currentLine pad_of]. now rewrite Htrim, append_empty_r.
    + cbn [ls_endTime]. exact Hend.
    + lia.
    + exists st'. rewrite Hrun. cbn [ls_srtContent ls_index ls_startTime] in *.
      cbn [line_of last_word spaced_after]. repeat split; assumption.
Qed.

Lemma truthy_nonempty (x : string) : x <> "" -> truthy (Some x) = true.
Proof. intros Hx. cbn [truthy]. now rewrite eqb_empty_false. Qed.

(** One sentence gives one block and leaves the line empty. *)
Lemma sentence_loop (s : Sentence) (i : nat) (st : LoopState) :
  well_formed s = true -> ls_currentLine st = "" ->
  (i + List.length (items_of_sentence s) <= len)%nat ->
  exists st' b,
    convert_loop len i (items_of_sentence s) st = inr (st', [b]) /\
    ls_srtContent st'
    = ls_srtContent st +++ render_subtitle (subtitle_of_sentence (ls_index st) s) /\
    ls_index st' = ls_index st + 1 /\ ls_currentLine st' = "".
Proof.
  destruct s as [w toks c]. unfold well_formed, items_of_sentence.
  cbn [first_word more_tokens terminator]. intros Hwf Hcur Hlen.
  apply andb_true_iff in Hwf. destruct Hwf as [Hwf Hc].
  apply andb_true_iff in Hwf. destruct Hwf as [Hw Htoks].
  destruct (well_formed_word_inv w Hw) as (Htext & Hstart & _).
  cbn [List.length] in Hlen. rewrite length_app, length_map in Hlen. cbn [List.length] in Hlen.
  cbn [convert_loop].
  assert (Hlast : (S i =? len)%nat = false) by (apply Nat.eqb_neq; lia).
  unfold convert_step at 1. change (accumulate (word_item w) st) with
    (inr {| ls_srtContent := ls_srtContent st;
            ls_index := ls_index st;
            ls_currentLine := ls_currentLine st +++ word_text w +++ " ";
            ls_startTime := if String.eqb (ls_currentLine st) ""
                            then Some (word_start w) else ls_startTime st;
            ls_endTime := Some (word_end w) |} : thrown + LoopState).
  change (isEndOfSentence (word_item w)) with (inr false : thrown + bool).
  rewrite Hcur, Hlast, append_empty_l. cbn [orb String.eqb]. unfold flush at 1. cbn [andb].
  rewrite convert_loop_app.
  lazymatch goal with
  | |- context [convert_loop len (S i) (map token_item toks) ?s1] =>
      destruct (tokens_loop toks (S i) s1 (word_text w) true w Htoks Htext
                  eq_refl eq_refl ltac:(lia))
        as (st2 & Hrun & H1 & H2 & H3 & H4 & H5 & H6)
  end.
  rewrite Hrun. cbn [ls_srtContent ls_index ls_startTime] in H1, H2, H3.
  cbn [convert_loop]. unfold convert_step.
  change (accumulate (mark c) st2) with
    (inr {| ls_srtContent := ls_srtContent st2;
            ls_index := ls_index st2;
            ls_currentLine := trim (ls_currentLine st2) +++ c;
            ls_startTime := ls_startTime st2;
            ls_endTime := ls_endTime st2 |} : thrown + LoopState).
  change (isEndOfSentence (mark c)) with (inr (ends_sentence c) : thrown + bool).
  rewrite Hc. cbn [orb]. unfold flush.
  cbn [ls_srtContent ls_index ls_currentLine ls_startTime ls_endTime].
  pose proof (last_word_well_formed toks w Hw Htoks) as Hlw.
  destruct (well_formed_word_inv _ Hlw) as (_ & _ & Hend).
  rewrite H3, H4, (truthy_nonempty _ Hstart), (truthy_nonempty _ Hend). cbn [andb].
  assert (Htrim : trim (ls_currentLine st2)
                  = line_of (word_text w) true toks).
  { rewrite H5. destruct (spaced_after true toks); cbn [pad_of].
    - now apply solid_trim_space.
    - rewrite append_empty_r. now apply solid_trim. }
  assert (Hline : trim (trim (ls_currentLine st2) +++ c)
                  = line_of (word_text w) true toks +++ c).
  { rewrite Htrim. apply solid_trim, solid_app; [exact H6|]. now apply ends_sentence_solid. }
  rewrite Hline. eexists _, _. split; [reflexivity|].
  cbn [ls_srtContent ls_index ls_currentLine or_empty].
  rewrite H1, H2. split; [|split; reflexivity].
  unfold render_subtitle, subtitle_of_sentence, sentence_text.
  cbn [sub_index sub_start sub_end sub_text first_word more_tokens terminator].
  rewrite !append_assoc. reflexivity.
Qed.

(** A list of sentences gives one block for each. *)
Lemma sentences_loop (sentences : list Sentence) :
  forall (i : nat) (st : LoopState),
    forallb well_formed sentences = true -> ls_currentLine st = "" ->
    (i + List.length (flat_map items_of_sentence sentences) <= len)%nat ->
    exists st' blocks,
      convert_loop len i (flat_map items_of_sentence sentences) st = inr (st', blocks) /\
      ls_srtContent st'
      = ls_srtContent st
        +++ concat_all (map render_subtitle (subtitles_of (ls_index st) sentences)).
Proof.
  induction sentences as [|s sentences IH]; intros i st Hall Hcur Hlen.
  - exists st, []. split; [reflexivity|]. cbn. now rewrite append_empty_r.
  - cbn [forallb] in Hall. apply andb_true_iff in Hall. destruct Hall as [Hs Hall].
    cbn [flat_map] in Hlen |- *. rewrite length_app in Hlen.
    rewrite convert_loop_app.
    destruct (sentence_loop s i st Hs Hcur ltac:(lia)) as (st1 & b & -> & Hsrt & Hidx & Hline).
    destruct (IH (i + List.length (items_of_sentence s))%nat st1 Hall Hline ltac:(lia))
      as (st2 & blocks & -> & Hsrt2).
    exists st2, ([b] ++ blocks)%list. split; [reflexivity|].
    rewrite Hsrt2, Hsrt, Hidx. cbn [subtitles_of map concat_all].
    now rewrite append_assoc.
Qed.

End SentenceFacts.

(** X12. A transcript made of well-formed sentences, their words and marks
    being texts of the ASCII range without white space at either end, is
    converted to one subtitle for each sentence, numbered from 1, from the
    start of its first word to the end of its last word; its text is the
    words, each joined to the word before it by one space and to a mark
    before it by nothing, with the marks attached. *)
Theorem convert_sentences (sentences : list Sentence) (ts : list FullTranscript) :
  sentences <> [] -> forallb well_formed sentences = true ->
  convertTranscriptToSrt (transcript_of ts sentences)
  = inr (concat_all (map render_subtitle (subtitles_of 1 sentences))).
Proof.
  intros Hne Hall.
  destruct (sentences_loop (List.length (flat_map items_of_sentence sentences)) sentences
              0%nat initial_loop_state Hall eq_refl ltac:(lia))
    as (st & blocks & Hrun & Hsrt).
  cbn [ls_srtContent ls_index initial_loop_state] in Hsrt. rewrite append_empty_l in Hsrt.
  rewrite convert_outcome. cbn [transcript_of results transcripts items_or_none items].
  unfold walk. rewrite Hrun, Hsrt.
  destruct sentences as [|s sentences]; [contradiction|].
  cbn [subtitles_of map concat_all].
  destruct (String.eqb_spec
              (render_subtitle (subtitle_of_sentence 1 s)
               +++ concat_all (map render_subtitle (subtitles_of (1 + 1) sentences))) "")
    as [Hempty|_].
  - apply append_eq_empty in Hempty. destruct Hempty as [Hempty _].
    now apply render_subtitle_not_empty in Hempty.
  - now destruct ts.
Qed.

Lemma convert_sentences_witness :
  convertTranscriptToSrt (transcript_of [] [hello_world; hello_world])
  = inr (concat_all (map render_subtitle (subtitles_of 1 [hello_world; hello_world]))).
Proof. apply convert_sentences; [easy | reflexivity]. Defined.

Example convert_glues_word_to_mark :
  convertTranscriptToSrt (transcript_of [] [hello_world])
  = inr (render_subtitle {| sub_index := 1; sub_start := "00:00:00,000";
                            sub_end := "00:00:01,250"; sub_text := "Hello,world." |}).
Proof. vm_compute. reflexivity. Qed.

(* ===================================================================== *)
(** ** Proofs: the number of subtitles and the lines of the result card *)
(* ===================================================================== *)

Section CountFacts.

Lemma one_line_append (a b : string) : one_line (a +++ b) = one_line a && one_line b.
Proof.
  induction a as [|c a IH]; [now rewrite append_empty_l|].
  rewrite append_cons. unfold one_line in *. cbn [list_ascii_of_string forallb].
  now rewrite IH, andb_assoc.
Qed.

Lemma one_line_uint (d : Decimal.uint) : one_line (NilEmpty.string_of_uint d) = true.
Proof.
  induction d; [reflexivity|..]; cbn [NilEmpty.string_of_uint];
    unfold one_line in *; cbn [list_ascii_of_string forallb]; rewrite IHd; reflexivity.
Qed.

Lemma one_line_Z_toString (z : Z) : one_line (Z_toString z) = true /\ Z_toString z <> "".
Proof.
  unfold Z_toString, NilZero.string_of_int, NilZero.string_of_uint.
  assert (Hne : forall d, d <> Decimal.Nil -> NilEmpty.string_of_uint d <> "").
  { intros d Hd. destruct d; [contradiction|..]; discriminate. }
  destruct (Z.to_int z) as [d|d]; destruct d eqn:Hd; try (split; [reflexivity | discriminate]);
    rewrite <- Hd; (split; [|try discriminate; apply Hne; rewrite Hd; discriminate]).
  all: try apply one_line_uint.
  all: change (one_line (String "-" (NilEmpty.string_of_uint d)) = true);
    unfold one_line; cbn [list_ascii_of_string forallb];
    exact (one_line_uint d).
Qed.

Lemma count_skip_line (x s : string) :
  one_line x = true -> subtitles_generated (x +++ s) = subtitles_generated s.
Proof.
  induction x as [|c x IH]; intros Hx; [now rewrite append_empty_l|].
  unfold one_line in Hx. cbn [list_ascii_of_string forallb] in Hx.
  apply andb_true_iff in Hx. destruct Hx as [Hc Hx].
  apply negb_true_iff in Hc.
  rewrite append_cons, <- (IH Hx).
  destruct (x +++ s) as [|c2 r]; [reflexivity|].
  cbn [subtitles_generated]. now rewrite Hc.
Qed.

Lemma count_line_feed_then_line (x s : string) :
  one_line x = true -> x <> "" ->
  subtitles_generated (String (ascii_of_nat 10) (x +++ s)) = subtitles_generated s.
Proof.
  intros Hx Hne. rewrite <- (count_skip_line x s Hx).
  destruct x as [|c x]; [contradiction|].
  unfold one_line in Hx. cbn [list_ascii_of_string forallb] in Hx.
  apply andb_true_iff in Hx. destruct Hx as [Hc _]. apply negb_true_iff in Hc.
  rewrite append_cons. cbn [subtitles_generated]. now rewrite Hc, andb_false_r.
Qed.

Lemma count_two_line_feeds (r : string) :
  subtitles_generated (String (ascii_of_nat 10) (String (ascii_of_nat 10) r))
  = S (subtitles_generated r).
Proof. reflexivity. Qed.

Lemma count_block (s : Subtitle) (rest : string) :
  one_line_subtitle s = true -> starts_line rest ->
  subtitles_generated (render_subtitle s +++ rest) = S (subtitles_generated rest).
Proof.
  unfold one_line_subtitle. intros Hs Hrest.
  apply andb_true_iff in Hs. destruct Hs as [Hs Htext].
  apply andb_true_iff in Hs. destruct Hs as [Hstart Hend].
  destruct (one_line_Z_toString (sub_index s)) as [Hidx _].
  assert (Hshape : render_subtitle s +++ rest
                   = Z_toString (sub_index s) +++
                     String (ascii_of_nat 10)
                       ((sub_start s +++ " --> " +++ sub_end s) +++
                        String (ascii_of_nat 10)
                          (sub_text s +++
                           String (ascii_of_nat 10) (String (ascii_of_nat 10) rest)))).
  { unfold render_subtitle, nl. rewrite !append_assoc. reflexivity. }
  assert (Hstamp : one_line (sub_start s +++ " --> " +++ sub_end s) = true).
  { rewrite !one_line_append, Hstart, Hend. reflexivity. }
  assert (Hstamp_ne : sub_start s +++ " --> " +++ sub_end s <> "").
  { intros Heq. apply append_eq_empty in Heq. destruct Heq as [_ Heq].
    apply append_eq_empty in Heq. now destruct Heq. }
  rewrite Hshape, (count_skip_line _ _ Hidx),
    (count_line_feed_then_line _ _ Hstamp Hstamp_ne).
  destruct (sub_text s) as [|c t] eqn:Ht.
  - rewrite append_empty_l, count_two_line_feeds. f_equal.
    destruct Hrest as [->|(x & r & Hx & Hne & ->)]; [reflexivity|].
    now rewrite (count_line_feed_then_line x r Hx Hne), (count_skip_line x r Hx).
  - rewrite (count_line_feed_then_line (String c t) _ Htext) by discriminate.
    apply count_two_line_feeds.
Qed.

Lemma rendered_starts_line (subs : list Subtitle) :
  starts_line (concat_all (map render_subtitle subs)).
Proof.
  destruct subs as [|s subs]; [now left|]. right.
  destruct (one_line_Z_toString (sub_index s)) as [Hidx Hne].
  exists (Z_toString (sub_index s)). eexists. split; [exact Hidx|]. split; [exact Hne|].
  cbn [map concat_all]. unfold render_subtitle. rewrite !append_assoc. reflexivity.
Qed.

Lemma count_rendered (subs : list Subtitle) :
  forallb one_line_subtitle subs = true ->
  subtitles_generated (concat_all (map render_subtitle subs)) = List.length subs.
Proof.
  induction subs as [|s subs IH]; intros Hall; [reflexivity|].
  cbn [forallb] in Hall. apply andb_true_iff in Hall. destruct Hall as [Hs Hall].
  cbn [map concat_all List.length].
  rewrite (count_block s _ Hs (rendered_starts_line subs)), (IH Hall). reflexivity.
Qed.

Lemma one_line_repeat_zero (n : nat) : one_line (repeat_char "0" n) = true.
Proof. induction n as [|n IH]; [reflexivity|]. exact IH. Qed.

Lemma one_line_padStart (n : nat) (s : string) :
  one_line s = true -> one_line (padStart n "0" s) = true.
Proof.
  intros Hs. unfold padStart. now rewrite one_line_append, one_line_repeat_zero, Hs.
Qed.

Lemma one_line_shortest_form (z : Z) : one_line (shortest_form z) = true.
Proof.
  unfold shortest_form.
  destruct (shortest_from 17 z (Z.of_nat (ndigits z)) 1) as [digits n].
  destruct (one_line_Z_toString digits) as [Hd _].
  destruct (one_line_Z_toString (n - 1)) as [Hn _].
  destruct (n <=? 21)%Z.
  - now rewrite one_line_append, Hd, one_line_repeat_zero.
  - rewrite !one_line_append, Hn, andb_true_r.
    destruct (Z_toString digits) as [|d [|d' r]]; try reflexivity; exact Hd.
Qed.

Lemma one_line_toString (i : integral) : one_line (toString i) = true.
Proof.
  destruct i as [|[]|z]; try reflexivity. unfold toString.
  destruct (Z.abs z <? 2 ^ 53); [apply one_line_Z_toString|].
  destruct (z <? 0).
  - rewrite one_line_append. now rewrite one_line_shortest_form.
  - apply one_line_shortest_form.
Qed.

Lemma one_line_formatSrtTime (seconds : number) : one_line (formatSrtTime seconds) = true.
Proof.
  unfold formatSrtTime. cbv zeta.
  rewrite !one_line_append, !one_line_padStart by apply one_line_toString.
  reflexivity.
Qed.

End CountFacts.

(** X14. The number of subtitles that the result card shows is the number of
    blocks of the text it is given, when no text of a block holds a line
    feed: for every list of rendered subtitles, and so for the blocks that
    the conversion emits, whose time stamps never hold one. *)
Theorem subtitles_generated_counts (subs : list Subtitle) (blocks : list Block) :
  (forallb one_line_subtitle subs = true ->
   subtitles_generated (concat_all (map render_subtitle subs)) = List.length subs) /\
  (forallb (fun b => one_line (blk_text b)) blocks = true ->
   subtitles_generated (concat_all (map render_block blocks)) = List.length blocks).
Proof.
  split; [apply count_rendered|].
  intros Hall. unfold render_block. rewrite <- (length_map subtitle_of_block blocks).
  rewrite <- (map_map subtitle_of_block render_subtitle).
  apply count_rendered.
  induction blocks as [|b blocks IH]; [reflexivity|].
  cbn [forallb map] in Hall |- *. apply andb_true_iff in Hall. destruct Hall as [Hb Hall].
  rewrite (IH Hall), andb_true_r.
  unfold one_line_subtitle, subtitle_of_block.
  cbn [sub_start sub_end sub_text]. now rewrite !one_line_formatSrtTime, Hb.
Qed.

Lemma subtitles_generated_counts_witness :
  subtitles_generated (concat_all (map render_subtitle (simulated_subtitles "talk")))
  = List.length (simulated_subtitles "talk").
Proof.
  apply (proj1 (subtitles_generated_counts (simulated_subtitles "talk") [])). reflexivity.
Defined.

Section CardLines.

Lemma one_line_no_feed (s : string) :
  one_line s = true -> contains_char (ascii_of_nat 10) s = false.
Proof.
  unfold one_line, contains_char, is_line_feed.
  induction (list_ascii_of_string s) as [|c l IH]; [reflexivity|].
  cbn [forallb existsb]. intros Hall. apply andb_true_iff in Hall. destruct Hall as [Hc Hl].
  rewrite (IH Hl), orb_false_r. apply negb_true_iff in Hc.
  rewrite Ascii.eqb_sym. exact Hc.
Qed.

Lemma lines_after_line (x rest : string) :
  one_line x = true ->
  card_lines (x +++ nl +++ rest) = x :: card_lines rest.
Proof.
  intros Hx. unfold card_lines, nl.
  change (x +++ String (ascii_of_nat 10) "" +++ rest)
    with (x +++ String (ascii_of_nat 10) rest).
  now rewrite split_app_sep, (split_without_separator _ x (one_line_no_feed x Hx)).
Qed.

Lemma lines_of_block (s : Subtitle) (rest : string) :
  one_line_subtitle s = true ->
  card_lines (render_subtitle s +++ rest) = (lines_of_subtitle s ++ card_lines rest)%list.
Proof.
  unfold one_line_subtitle. intros Hs.
  apply andb_true_iff in Hs. destruct Hs as [Hs Htext].
  apply andb_true_iff in Hs. destruct Hs as [Hstart Hend].
  destruct (one_line_Z_toString (sub_index s)) as [Hidx _].
  assert (Hstamp : one_line (sub_start s +++ " --> " +++ sub_end s) = true).
  { rewrite !one_line_append, Hstart, Hend. reflexivity. }
  assert (Hshape : render_subtitle s +++ rest
                   = Z_toString (sub_index s) +++ nl +++
                     ((sub_start s +++ " --> " +++ sub_end s) +++ nl +++
                      (sub_text s +++ nl +++ ("" +++ nl +++ rest)))).
  { unfold render_subtitle. rewrite !append_assoc. reflexivity. }
  rewrite Hshape, (lines_after_line _ _ Hidx), (lines_after_line _ _ Hstamp),
    (lines_after_line _ _ Htext), (lines_after_line "" rest eq_refl).
  reflexivity.
Qed.

Lemma lines_of_blocks (subs : list Subtitle) :
  forallb one_line_subtitle subs = true ->
  card_lines (concat_all (map render_subtitle subs))
  = (flat_map lines_of_subtitle subs ++ [""])%list.
Proof.
  induction subs as [|s subs IH]; intros Hall; [reflexivity|].
  cbn [forallb] in Hall. apply andb_true_iff in Hall. destruct Hall as [Hs Hall].
  cbn [map concat_all flat_map]. rewrite (lines_of_block s _ Hs), (IH Hall).
  now rewrite <- List.app_assoc.
Qed.

Lemma nth_error_blocks (subs : list Subtitle) (tail : list string) :
  forall (k : nat) (s : Subtitle) (j : nat),
    nth_error subs k = Some s -> (j < 4)%nat ->
    nth_error (flat_map lines_of_subtitle subs ++ tail)%list (4 * k + j)
    = nth_error (lines_of_subtitle s) j.
Proof.
  induction subs as [|s0 subs IH]; intros k s j Hk Hj; [now destruct k|].
  destruct k as [|k].
  - injection Hk as ->. replace (4 * 0 + j)%nat with j by lia.
    cbn [flat_map]. rewrite <- List.app_assoc.
    rewrite nth_error_app1 by (cbn; lia). reflexivity.
  - cbn [nth_error] in Hk. cbn [flat_map]. rewrite <- List.app_assoc.
    rewrite nth_error_app2 by (cbn; lia).
    replace (4 * S k + j - List.length (lines_of_subtitle s0))%nat with (4 * k + j)%nat
      by (cbn; lia).
    now apply IH.
Qed.

End CardLines.

(** X15. The lines of the result card: a text made of blocks without line
    feeds is shown as four lines for each block, its number, its time line,
    its text and an empty line, and one empty line at the end; so the
    lines in the muted colour, those at the positions 1, 5, 9, ..., are
    exactly the time lines of the blocks. *)
Theorem card_shows_four_lines_per_block (subs : list Subtitle) :
  forallb one_line_subtitle subs = true ->
  card_lines (concat_all (map render_subtitle subs))
  = (flat_map lines_of_subtitle subs ++ [""])%list /\
  List.length (card_lines (concat_all (map render_subtitle subs)))
  = (4 * List.length subs + 1)%nat /\
  (forall k s, nth_error subs k = Some s ->
     nth_error (card_lines (concat_all (map render_subtitle subs))) (4 * k + 1)
     = Some (sub_start s +++ " --> " +++ sub_end s) /\
     nth_error (card_lines (concat_all (map render_subtitle subs))) (4 * k + 2)
     = Some (sub_text s)) /\
  (forall i, (i < 4 * List.length subs + 1)%nat ->
     muted i = true <-> exists k, (k < List.length subs)%nat /\ i = (4 * k + 1)%nat).
Proof.
  intros Hall. rewrite (lines_of_blocks subs Hall). split; [reflexivity|]. split; [|split].
  - rewrite length_app. cbn [List.length].
    assert (Hlen : List.length (flat_map lines_of_subtitle subs) = (4 * List.length subs)%nat).
    { clear Hall. induction subs as [|s subs IH]; [reflexivity|].
      cbn [flat_map]. rewrite length_app, IH. cbn [List.length lines_of_subtitle]. lia. }
    lia.
  - intros k s Hk. split.
    + now rewrite (nth_error_blocks subs [""] k s 1 Hk) by lia.
    + now rewrite (nth_error_blocks subs [""] k s 2 Hk) by lia.
  - intros i Hi. unfold muted. rewrite Nat.eqb_eq. split.
    + intros Hmod. exists (i / 4)%nat.
      pose proof (Nat.div_mod_eq i 4) as Hdiv. split; lia.
    + intros (k & _ & ->). rewrite Nat.add_comm, Nat.mul_comm, Nat.Div0.mod_add. reflexivity.
Qed.

Lemma card_shows_four_lines_per_block_witness :
  card_lines (concat_all (map render_subtitle (simulated_subtitles "talk")))
  = (flat_map lines_of_subtitle (simulated_subtitles "talk") ++ [""])%list.
Proof.
  apply (proj1 (card_shows_four_lines_per_block (simulated_subtitles "talk") eq_refl)).
Defined.

(* ===================================================================== *)
(** ** Proofs: the texts of the blocks *)
(* ===================================================================== *)

Section TrimmedText.

Lemma trimStart_clean (s : string) : starts_white (trimStart s) = false.
Proof.
  induction s as [|c s IH]; [reflexivity|].
  cbn [trimStart]. destruct (is_white c) eqn:Hc; [exact IH|].
  cbn [starts_white]. exact Hc.
Qed.

Lemma trimEnd_clean (s : string) : ends_white (trimEnd s) = false.
Proof.
  induction s as [|c s IH]; [reflexivity|].
  rewrite trimEnd_cons. destruct (trimEnd s) as [|c' r'] eqn:Ht.
  - destruct (is_white c) eqn:Hc; [reflexivity|].
    cbn [ends_white]. exact Hc.
  - exact IH.
Qed.

Lemma trimEnd_keeps_start (s : string) :
  starts_white s = false -> starts_white (trimEnd s) = false.
Proof.
  destruct s as [|c s]; [reflexivity|].
  cbn [starts_white]. intros Hc. rewrite trimEnd_cons.
  destruct (trimEnd s); [now rewrite Hc|]. exact Hc.
Qed.

Lemma trim_clean (s : string) :
  starts_white (trim s) = false /\ ends_white (trim s) = false.
Proof.
  unfold trim. split; [|apply trimEnd_clean].
  apply trimEnd_keeps_start, trimStart_clean.
Qed.

End TrimmedText.

(** What holds of every character of the contents and of the space holds
    of every character of the texts of the blocks. *)
Section BlockTexts.
Variable P : ascii -> bool.
Hypothesis P_space : P " " = true.

Lemma chars_append (a b : string) :
  forallb P (list_ascii_of_string (a +++ b))
  = forallb P (list_ascii_of_string a) && forallb P (list_ascii_of_string b).
Proof.
  induction a as [|c a IH]; [now rewrite append_empty_l|].
  rewrite append_cons. cbn [list_ascii_of_string forallb]. now rewrite IH, andb_assoc.
Qed.

Lemma chars_trimStart (s : string) :
  forallb P (list_ascii_of_string s) = true ->
  forallb P (list_ascii_of_string (trimStart s)) = true.
Proof.
  induction s as [|c s IH]; [reflexivity|].
  cbn [trimStart]. destruct (is_white c); [|auto].
  cbn [list_ascii_of_string forallb]. intros Hs.
  apply andb_true_iff in Hs. now apply IH.
Qed.

Lemma chars_trimEnd (s : string) :
  forallb P (list_ascii_of_string s) = true ->
  forallb P (list_ascii_of_string (trimEnd s)) = true.
Proof.
  induction s as [|c s IH]; [reflexivity|].
  cbn [list_ascii_of_string forallb]. intros Hs.
  apply andb_true_iff in Hs. destruct Hs as [Hc Hs]. specialize (IH Hs).
  rewrite trimEnd_cons. destruct (trimEnd s) as [|c' r'].
  - destruct (is_white c); [reflexivity|]. cbn [list_ascii_of_string forallb].
    now rewrite Hc.
  - cbn [list_ascii_of_string forallb] in IH |- *. now rewrite Hc, IH.
Qed.

Lemma chars_trim (s : string) :
  forallb P (list_ascii_of_string s) = true ->
  forallb P (list_ascii_of_string (trim s)) = true.
Proof. intros Hs. unfold trim. now apply chars_trimEnd, chars_trimStart. Qed.

Lemma accumulate_chars (item : Item) (st st1 : LoopState) :
  content_all P item = true ->
  forallb P (list_ascii_of_string (ls_currentLine st)) = true ->
  accumulate item st = inr st1 ->
  forallb P (list_ascii_of_string (ls_currentLine st1)) = true.
Proof.
  unfold content_all, accumulate, first_content. intros Hitem Hline.
  destruct (alternatives item) as [|a alts].
  - destruct (is_pronunciation item); [discriminate|].
    destruct (is_punctuation item); [discriminate|]. now intros [= <-].
  - destruct (is_pronunciation item).
    + intros [= <-]. cbn [ls_currentLine]. rewrite !chars_append, Hline, Hitem.
      cbn [list_ascii_of_string forallb]. now rewrite P_space.
    + destruct (is_punctuation item); [|now intros [= <-]].
      intros [= <-]. cbn [ls_currentLine]. now rewrite chars_append, chars_trim, Hitem.
Qed.

Lemma flush_chars (i : nat) (boundary : bool) (st st' : LoopState) (emitted : option Block) :
  forallb P (list_ascii_of_string (ls_currentLine st)) = true ->
  flush i boundary st = (st', emitted) ->
  forallb P (list_ascii_of_string (ls_currentLine st')) = true /\
  forall b, emitted = Some b -> forallb P (list_ascii_of_string (blk_text b)) = true.
Proof.
  intros Hline. unfold flush.
  destruct (boundary && truthy (ls_startTime st) && truthy (ls_endTime st)).
  - intros [= <- <-]. split; [reflexivity|]. intros b [= <-]. cbn [blk_text].
    now apply chars_trim.
  - intros [= <- <-]. split; [exact Hline | discriminate].
Qed.

Lemma convert_loop_chars (len : nat) (rest : list Item) :
  forall (i : nat) (st st' : LoopState) (blocks : list Block),
    forallb (content_all P) rest = true ->
    forallb P (list_ascii_of_string (ls_currentLine st)) = true ->
    convert_loop len i rest st = inr (st', blocks) ->
    forallb (fun b => forallb P (list_ascii_of_string (blk_text b))) blocks = true.
Proof.
  induction rest as [|item rest IH]; intros i st st' blocks Hall Hline Hloop.
  - cbn in Hloop. now injection Hloop as _ <-.
  - cbn [forallb] in Hall. apply andb_true_iff in Hall. destruct Hall as [Hitem Hall].
    cbn [convert_loop] in Hloop. unfold convert_step in Hloop.
    destruct (accumulate item st) as [e|st0] eqn:Hacc; [discriminate|].
    destruct (isEndOfSentence item) as [e|eos]; [discriminate|].
    destruct (flush i (eos || (S i =? len)%nat) st0) as [st1 emitted] eqn:Hflush.
    destruct (convert_loop len (S i) rest st1) as [e|[st2 blocks']] eqn:Hrest;
      [discriminate|].
    injection Hloop as _ <-.
    pose proof (accumulate_chars item st st0 Hitem Hline Hacc) as Hline0.
    destruct (flush_chars i _ st0 st1 emitted Hline0 Hflush) as [Hline1 Htext].
    specialize (IH _ _ _ _ Hall Hline1 Hrest).
    destruct emitted as [b|]; [|exact IH].
    cbn [forallb]. now rewrite (Htext b eq_refl), IH.
Qed.

End BlockTexts.

Section BlockTextFacts.

Lemma flush_text (i : nat) (boundary : bool) (st st' : LoopState) (b : Block) :
  flush i boundary st = (st', Some b) -> blk_text b = trim (ls_currentLine st).
Proof.
  unfold flush.
  destruct (boundary && truthy (ls_startTime st) && truthy (ls_endTime st));
    [|discriminate].
  now intros [= _ <-].
Qed.

Lemma convert_loop_texts (len : nat) (rest : list Item) :
  forall (i : nat) (st st' : LoopState) (blocks : list Block),
    convert_loop len i rest st = inr (st', blocks) ->
    Forall (fun b => exists line, blk_text b = trim line) blocks.
Proof.
  induction rest as [|item rest IH]; intros i st st' blocks Hloop.
  - cbn in Hloop. injection Hloop as _ <-. constructor.
  - cbn [convert_loop] in Hloop.
    destruct (convert_step len i item st) as [e|[st1 emitted]] eqn:Hstep; [discriminate|].
    destruct (convert_loop len (S i) rest st1) as [e|[st2 blocks']] eqn:Hrest;
      [discriminate|].
    injection Hloop as _ <-. specialize (IH _ _ _ _ Hrest).
    destruct emitted as [b|]; [|exact IH].
    constructor; [|exact IH].
    unfold convert_step in Hstep.
    destruct (accumulate item st) as [e|st0]; [discriminate|].
    destruct (isEndOfSentence item) as [e|eos]; [discriminate|].
    injection Hstep as Hflush. apply flush_text in Hflush. eauto.
Qed.

Lemma one_line_blocks (blocks : list Block) :
  forallb (fun b => one_line (blk_text b)) blocks = true ->
  forallb one_line_subtitle (map subtitle_of_block blocks) = true.
Proof.
  induction blocks as [|b blocks IH]; [reflexivity|].
  cbn [forallb map]. intros Hall. apply andb_true_iff in Hall. destruct Hall as [Hb Hall].
  rewrite (IH Hall), andb_true_r.
  unfold one_line_subtitle, subtitle_of_block.
  cbn [sub_start sub_end sub_text]. now rewrite !one_line_formatSrtTime, Hb.
Qed.

End BlockTextFacts.

(** X13. The texts of the blocks.  When no content of an item holds a line
    feed no text of a block holds one, so that the number of subtitles that
    the result card counts in the output of the walk is the number of
    blocks emitted; and for items whose contents are texts of the ASCII
    range the text of every block is a text of the ASCII range that neither
    starts nor ends with a white-space character. *)
Theorem block_texts_are_trimmed (its : list Item) (st : LoopState) (blocks : list Block) :
  walk its = inr (st, blocks) ->
  (forallb one_line_item its = true ->
   forallb (fun b => one_line (blk_text b)) blocks = true /\
   subtitles_generated (ls_srtContent st) = List.length blocks) /\
  (forallb ascii_item its = true ->
   Forall (fun b => ascii_text (blk_text b) = true /\
                    starts_white (blk_text b) = false /\
                    ends_white (blk_text b) = false) blocks).
Proof.
  intros Hwalk. split.
  - intros Hlines.
    pose proof (convert_loop_chars (fun c => negb (is_line_feed c)) eq_refl
                  (List.length its) its 0%nat initial_loop_state st blocks
                  Hlines eq_refl Hwalk) as Htexts.
    split; [exact Htexts|].
    destruct (walk_output its st blocks Hwalk) as [-> _].
    rewrite <- (length_map subtitle_of_block blocks).
    change (map render_block blocks)
      with (map (fun b => render_subtitle (subtitle_of_block b)) blocks).
    rewrite <- (map_map subtitle_of_block render_subtitle).
    now apply count_rendered, one_line_blocks.
  - intros Hascii.
    pose proof (convert_loop_chars ascii_char eq_refl (List.length its) its 0%nat
                  initial_loop_state st blocks Hascii eq_refl Hwalk)
      as Htexts.
    pose proof (convert_loop_texts _ _ _ _ _ _ Hwalk) as Htrim.
    rewrite forallb_forall in Htexts. rewrite List.Forall_forall in Htrim |- *.
    intros b Hb. split; [now apply Htexts|].
    destruct (Htrim b Hb) as (line & ->). apply trim_clean.
Qed.

Lemma block_texts_are_trimmed_witness :
  exists st blocks,
    walk blank_then_word = inr (st, blocks) /\
    forallb (fun b => one_line (blk_text b)) blocks = true /\
    subtitles_generated (ls_srtContent st) = List.length blocks.
Proof.
  eexists _, _. split; [vm_compute; reflexivity|].
  refine (proj1 (block_texts_are_trimmed blank_then_word _ _ _) eq_refl).
  vm_compute. reflexivity.
Defined.

(* ===================================================================== *)
(** ** Proofs: whole seconds *)
(* ===================================================================== *)

Section WholeSeconds.
Local Open Scope Q_scope.

Lemma Qfloor_unique (v : Q) (k : Z) :
  inject_Z k <= v -> v < inject_Z k + 1 -> Qfloor v = k.
Proof.
  intros Hlow Hup.
  assert (H1 : (k <= Qfloor v)%Z).
  { rewrite <- (Qfloor_Z k). now apply Qfloor_resp_le. }
  pose proof (Qfloor_le v) as Hf.
  assert (H2 : inject_Z (Qfloor v) < inject_Z (k + 1)).
  { rewrite inject_Z_plus. change (inject_Z 1) with 1. lra. }
  rewrite <- Zlt_Qlt in H2. lia.
Qed.

(** The quotient of two integers lies between their integer quotient and
    its successor, below which it stays by one part in [b]. *)
Lemma quotient_bounds (a b : Z) (y : Q) :
  (0 < b)%Z -> y == inject_Z a / inject_Z b ->
  y * inject_Z b == inject_Z a /\
  inject_Z (a / b) * inject_Z b <= inject_Z a /\
  inject_Z a + 1 <= (inject_Z (a / b) + 1) * inject_Z b.
Proof.
  intros Hb Hy.
  assert (Hbq : 0 < inject_Z b) by (change 0 with (inject_Z 0); now rewrite <- Zlt_Qlt).
  split; [rewrite Hy; field; lra|].
  pose proof (Z.mul_div_le a b Hb) as Hlow.
  pose proof (Z.mul_succ_div_gt a b Hb) as Hup.
  split.
  - rewrite <- inject_Z_mult, <- Zle_Qle. lia.
  - change 1 with (inject_Z 1). rewrite <- !inject_Z_plus, <- inject_Z_mult, <- Zle_Qle. lia.
Qed.

Lemma round64_positive (q : Q) :
  0 < q ->
  inject_Z (round_half_even (q / Qpow2 (ulp_exp q))) * Qpow2 (ulp_exp q) < Qpow2 1024 ->
  round64 q
  = Fin (Qred (inject_Z (round_half_even (q / Qpow2 (ulp_exp q))) * Qpow2 (ulp_exp q))).
Proof.
  intros Hq Hfinite. unfold round64.
  assert (Hgt : (q ?= 0) = Gt) by now apply Qgt_alt.
  rewrite Hgt, (Qabs_of_pos q Hq).
  destruct (Qle_bool (Qpow2 1024) _) eqn:Hcmp; [|reflexivity].
  apply Qle_bool_iff in Hcmp. lra.
Qed.

(** Dividing a whole number below [2^52] by a whole number and rounding
    the quotient to binary64 does not reach the next whole number. *)
Lemma floor_round64_quotient (a b : Z) (y : Q) :
  (0 <= a < 2 ^ 52)%Z -> (0 < b <= 2 ^ 52)%Z -> y == inject_Z a / inject_Z b ->
  floor (round64 y) = IInt (a / b).
Proof.
  intros Ha Hb Hy.
  assert (Hbq : 0 < inject_Z b) by (change 0 with (inject_Z 0); rewrite <- Zlt_Qlt; lia).
  destruct (quotient_bounds a b y ltac:(lia) Hy) as (Hyb & Hlow & Hup).
  destruct (Z.eq_dec a 0%Z) as [->|Hne].
  { rewrite round64_zero; [reflexivity|]. rewrite Hy. reflexivity. }
  set (k := (a / b)%Z) in *.
  assert (Ha1 : 1 <= inject_Z a).
  { change 1 with (inject_Z 1). rewrite <- Zle_Qle. lia. }
  assert (Ha52 : inject_Z a + 1 <= Qpow2 52).
  { rewrite (Qpow2_inject 52) by lia. change 1 with (inject_Z 1).
    rewrite <- inject_Z_plus, <- Zle_Qle. lia. }
  assert (Hb52 : inject_Z b <= Qpow2 52).
  { rewrite (Qpow2_inject 52), <- Zle_Qle by lia. lia. }
  assert (Hypos : 0 < y) by nra.
  assert (Hk0 : 0 <= inject_Z k).
  { change 0 with (inject_Z 0). rewrite <- Zle_Qle. apply Z.div_pos; lia. }
  assert (Hky : inject_Z k <= y) by nra.
  assert (Hyk : y < inject_Z k + 1) by nra.
  destruct (ilog2_spec y Hypos) as [Hp1 Hp2].
  set (p := ilog2 y) in *.
  pose proof (Qpow2_pos p) as Pp.
  assert (Hb1 : 1 <= inject_Z b).
  { change 1 with (inject_Z 1). rewrite <- Zle_Qle. lia. }
  assert (Hy52 : y < Qpow2 52) by nra.
  assert (E52 : Qpow2 52 == 4503599627370496) by reflexivity.
  assert (Hp52 : (p < 52)%Z).
  { apply Qpow2_lt_inv. apply Qle_lt_trans with y; assumption. }
  assert (Hpm : (-53 < p)%Z).
  { assert (Hlt : Qpow2 (-52) < Qpow2 (p + 1)).
    { apply Qle_lt_trans with y; [|assumption].
      assert (Hone : Qpow2 (-52) * Qpow2 52 == 1) by reflexivity.
      nra. }
    apply Qpow2_lt_inv in Hlt. lia. }
  assert (He : ulp_exp y = (p - 52)%Z) by (unfold ulp_exp; fold p; lia).
  pose proof (Qpow2_pos (p - 52)) as Pe. pose proof (Qpow2_pos (52 - p)) as Ps.
  assert (Hone : Qpow2 (52 - p) * Qpow2 (p - 52) == 1).
  { rewrite <- Qpow2_add. now replace (52 - p + (p - 52))%Z with 0%Z by lia. }
  assert (Hps : Qpow2 p * Qpow2 (52 - p) == Qpow2 52).
  { rewrite <- Qpow2_add. now replace (p + (52 - p))%Z with 52%Z by lia. }
  assert (Hinv : y / Qpow2 (p - 52) == y * Qpow2 (52 - p)).
  { apply Qmult_inj_r with (Qpow2 (p - 52)); [lra|].
    rewrite <- Qmult_assoc, Hone. field. lra. }
  assert (Hbs : inject_Z b <= Qpow2 (52 - p)).
  { apply Qmult_le_l with (Qpow2 p); [assumption|]. rewrite Hps. nra. }
  set (r := round_half_even (y / Qpow2 (p - 52))).
  assert (Hr1 : (k * 2 ^ (52 - p) <= r)%Z).
  { apply round_half_even_ge. rewrite Hinv, inject_Z_mult, <- Qpow2_inject by lia.
    apply Qmult_le_r; assumption. }
  assert (Hr2 : (r <= (k + 1) * 2 ^ (52 - p) - 1)%Z).
  { apply round_half_even_le.
    rewrite Hinv, inject_Z_pred, inject_Z_mult, inject_Z_plus, <- Qpow2_inject by lia.
    change (inject_Z 1) with 1. nra. }
  assert (Hr1q : inject_Z k * Qpow2 (52 - p) <= inject_Z r).
  { rewrite Qpow2_inject, <- inject_Z_mult, <- Zle_Qle by lia. exact Hr1. }
  assert (Hr2q : inject_Z r <= (inject_Z k + 1) * Qpow2 (52 - p) - 1).
  { rewrite Qpow2_inject by lia. change 1 with (inject_Z 1).
    rewrite <- inject_Z_plus, <- inject_Z_mult, <- inject_Z_pred, <- Zle_Qle. exact Hr2. }
  assert (Hv1 : inject_Z k <= inject_Z r * Qpow2 (p - 52)).
  { setoid_replace (inject_Z k) with (inject_Z k * Qpow2 (52 - p) * Qpow2 (p - 52))
      using relation Qeq by (rewrite <- Qmult_assoc, Hone; ring).
    apply Qmult_le_r; assumption. }
  assert (Hv2 : inject_Z r * Qpow2 (p - 52) < inject_Z k + 1).
  { setoid_replace (inject_Z k + 1)
      with ((inject_Z k + 1) * Qpow2 (52 - p) * Qpow2 (p - 52))
      using relation Qeq by (rewrite <- Qmult_assoc, Hone; ring).
    apply Qmult_lt_r; [assumption|]. lra. }
  assert (Hfin : inject_Z (round_half_even (y / Qpow2 (ulp_exp y))) * Qpow2 (ulp_exp y)
                 < Qpow2 1024).
  { rewrite He. fold r. apply Qlt_le_trans with (Qpow2 53).
    - assert (E53 : Qpow2 53 == 9007199254740992) by reflexivity. lra.
    - apply Qpow2_le. lia. }
  rewrite (round64_positive y Hypos Hfin), He. fold r.
  cbn [floor]. f_equal. apply Qfloor_unique; rewrite Qred_correct; assumption.
Qed.

Lemma Qfloor_quotient (a b : Z) (y : Q) :
  (0 < b)%Z -> y == inject_Z a / inject_Z b -> Qfloor y = (a / b)%Z.
Proof.
  intros Hb Hy.
  assert (Hbq : 0 < inject_Z b) by (change 0 with (inject_Z 0); now rewrite <- Zlt_Qlt).
  destruct (quotient_bounds a b y Hb Hy) as (Hyb & Hlow & Hup).
  assert (Hb1 : 1 <= inject_Z b).
  { change 1 with (inject_Z 1). rewrite <- Zle_Qle. lia. }
  apply Qfloor_unique; nra.
Qed.

(** The remainder of a whole number by a whole number is the integer
    remainder. *)
Lemma rem_whole (n c : Z) (q : Q) :
  (0 <= n)%Z -> (0 < c)%Z -> q == inject_Z n ->
  exists r, rem (Fin q) (Fin (inject_Z c)) = Fin r /\ r == inject_Z (n mod c).
Proof.
  intros Hn Hc Hq.
  assert (Hcq : 0 < inject_Z c) by (change 0 with (inject_Z 0); now rewrite <- Zlt_Qlt).
  assert (Hq0 : 0 <= q).
  { rewrite Hq. change 0 with (inject_Z 0). now rewrite <- Zle_Qle. }
  destruct (rem_nonneg q (inject_Z c) Hq0 Hcq) as (r & Hrem & Hr & _).
  exists r. split; [exact Hrem|].
  assert (Hy : q / inject_Z c == inject_Z n / inject_Z c) by now rewrite Hq.
  rewrite Hr, (Qfloor_quotient n c _ Hc Hy), Hq, <- inject_Z_mult.
  rewrite Z.mod_eq by lia. unfold Z.sub. rewrite inject_Z_plus, inject_Z_opp. reflexivity.
Qed.

End WholeSeconds.

(* ===================================================================== *)
(** ** Proofs: the components of the time stamp *)
(* ===================================================================== *)

Section ComponentFacts.
Local Open Scope Q_scope.

Lemma round_half_even_near (x : Q) : inject_Z (round_half_even x) <= x + (1 # 2).
Proof.
  unfold round_half_even.
  pose proof (Qfloor_le x) as Hf.
  destruct (Qcompare_spec (x - inject_Z (Qfloor x)) (1 # 2)) as [Heq|Hlt|Hgt].
  - destruct (Z.even (Qfloor x)); [lra|].
    rewrite inject_Z_plus. change (inject_Z 1) with 1. lra.
  - lra.
  - rewrite inject_Z_plus. change (inject_Z 1) with 1. lra.
Qed.

(** A binary64 value below a whole number of at most 53 bits is below it
    by more than one part in [2^53] of itself. *)
Lemma representable_gap (r : Q) (B : Z) :
  representable r -> 0 <= r -> r < inject_Z B -> (B <= 2 ^ 53)%Z ->
  r * Qpow2 (-53) < inject_Z B - r.
Proof.
  intros (m & e & Hr & Hm & He) Hr0 HrB HB.
  pose proof (Qpow2_pos e) as Pe.
  assert (E53 : Qpow2 (-53) * Qpow2 53 == 1) by reflexivity.
  assert (P53 : 0 < Qpow2 (-53)) by apply Qpow2_pos.
  assert (Hm53 : inject_Z m < Qpow2 53).
  { rewrite (Qpow2_inject 53), <- Zlt_Qlt by lia. lia. }
  assert (HB53 : inject_Z B <= Qpow2 53).
  { rewrite (Qpow2_inject 53), <- Zle_Qle by lia. exact HB. }
  destruct (Z.le_gt_cases e 0) as [Hneg|Hpos].
  - pose proof (grid_gap r m e B Hr Hneg HrB) as Hgap.
    assert (Hlt : r * Qpow2 (-53) < Qpow2 e).
    { rewrite Hr.
      setoid_replace (Qpow2 e) with (Qpow2 53 * Qpow2 e * Qpow2 (-53)) using relation Qeq at 2
        by (rewrite <- Qmult_assoc, (Qmult_comm (Qpow2 e)), Qmult_assoc, (Qmult_comm (Qpow2 53)),
            E53; ring).
      apply Qmult_lt_r; [assumption|]. apply Qmult_lt_r; assumption. }
    lra.
  - assert (Hint : r == inject_Z (m * 2 ^ e)).
    { rewrite Hr, inject_Z_mult, <- Qpow2_inject by lia. reflexivity. }
    assert (Hz : (m * 2 ^ e < B)%Z).
    { rewrite Zlt_Qlt, <- Hint. exact HrB. }
    assert (Hgap : r + 1 <= inject_Z B).
    { rewrite Hint. change 1 with (inject_Z 1). rewrite <- inject_Z_plus, <- Zle_Qle. lia. }
    assert (Hlt : r * Qpow2 (-53) < 1).
    { rewrite <- E53. rewrite (Qmult_comm (Qpow2 (-53))).
      apply Qmult_lt_r; [assumption|]. lra. }
    lra.
Qed.

(** Rounding a number of the normal range below [2^53] to binary64: the
    result is not below a whole number that the number is not below, and
    it is above the number by one part in [2^53] of it at most. *)
Lemma round64_near (y : Q) :
  Qpow2 (-1022) <= y -> y < Qpow2 53 ->
  exists v, round64 y = Fin v /\ v <= y + y * Qpow2 (-53) /\
            forall j : Z, inject_Z j <= y -> inject_Z j <= v.
Proof.
  intros Hnormal Hy53.
  pose proof (Qpow2_pos (-1022)) as Pn.
  assert (Hypos : 0 < y) by lra.
  destruct (ilog2_spec y Hypos) as [Hp1 Hp2].
  set (p := ilog2 y) in *.
  pose proof (Qpow2_pos p) as Pp.
  assert (Hp53 : (p < 53)%Z).
  { apply Qpow2_lt_inv. apply Qle_lt_trans with y; assumption. }
  assert (Hpm : (-1023 < p)%Z).
  { assert (Hlt : Qpow2 (-1022) < Qpow2 (p + 1)) by lra.
    apply Qpow2_lt_inv in Hlt. lia. }
  assert (He : ulp_exp y = (p - 52)%Z) by (unfold ulp_exp; fold p; lia).
  pose proof (Qpow2_pos (p - 52)) as Pe. pose proof (Qpow2_pos (52 - p)) as Ps.
  assert (Hone : Qpow2 (52 - p) * Qpow2 (p - 52) == 1).
  { rewrite <- Qpow2_add. now replace (52 - p + (p - 52))%Z with 0%Z by lia. }
  assert (Hinv : y / Qpow2 (p - 52) == y * Qpow2 (52 - p)).
  { apply Qmult_inj_r with (Qpow2 (p - 52)); [lra|].
    rewrite <- Qmult_assoc, Hone. field. lra. }
  set (r := round_half_even (y / Qpow2 (p - 52))).
  assert (Hr53 : (r <= 2 ^ 53)%Z).
  { apply round_half_even_le. rewrite Hinv, <- Qpow2_inject by lia.
    setoid_replace (Qpow2 53) with (Qpow2 (p + 1) * Qpow2 (52 - p)) using relation Qeq
      by (rewrite <- Qpow2_add; now replace (p + 1 + (52 - p))%Z with 53%Z by lia).
    apply Qmult_le_r; [assumption|]. lra. }
  assert (Hfin : inject_Z (round_half_even (y / Qpow2 (ulp_exp y))) * Qpow2 (ulp_exp y)
                 < Qpow2 1024).
  { rewrite He. fold r. apply Qle_lt_trans with (Qpow2 53 * Qpow2 (p - 52)).
    - apply Qmult_le_r; [assumption|].
      rewrite (Qpow2_inject 53), <- Zle_Qle by lia. exact Hr53.
    - rewrite <- Qpow2_add. apply Qpow2_lt. lia. }
  eexists. split; [apply (round64_positive y Hypos Hfin)|].
  rewrite Qred_correct, He. fold r. split.
  - pose proof (round_half_even_near (y / Qpow2 (p - 52))) as Hnear. fold r in Hnear.
    rewrite Hinv in Hnear.
    assert (Hhalf : (1 # 2) * Qpow2 (p - 52) <= y * Qpow2 (-53)).
    { assert (Hsplit : Qpow2 p * Qpow2 (-53) == (1 # 2) * Qpow2 (p - 52)).
      { change (1 # 2) with (Qpow2 (-1)). rewrite <- !Qpow2_add.
        now replace (p + -53)%Z with (-1 + (p - 52))%Z by lia. }
      rewrite <- Hsplit. apply Qmult_le_r; [apply Qpow2_pos|]. exact Hp1. }
    assert (Hmul : inject_Z r * Qpow2 (p - 52)
                   <= (y * Qpow2 (52 - p) + (1 # 2)) * Qpow2 (p - 52)).
    { apply Qmult_le_r; assumption. }
    assert (Hexp : (y * Qpow2 (52 - p) + (1 # 2)) * Qpow2 (p - 52)
                   == y + (1 # 2) * Qpow2 (p - 52)).
    { rewrite Qmult_plus_distr_l, <- Qmult_assoc, Hone. ring. }
    lra.
  - intros j Hj. rewrite ?Qred_correct.
    assert (Hrj : (j * 2 ^ (52 - p) <= r)%Z).
    { apply round_half_even_ge. rewrite Hinv, inject_Z_mult, <- Qpow2_inject by lia.
      apply Qmult_le_r; assumption. }
    assert (Hrq : inject_Z j * Qpow2 (52 - p) <= inject_Z r).
    { rewrite Qpow2_inject, <- inject_Z_mult, <- Zle_Qle by lia. exact Hrj. }
    setoid_replace (inject_Z j) with (inject_Z j * Qpow2 (52 - p) * Qpow2 (p - 52))
      using relation Qeq by (rewrite <- Qmult_assoc, Hone; ring).
    apply Qmult_le_r; assumption.
Qed.

(** The floor of a number rounded to binary64 is the floor of the number,
    when the number is below the next whole number by more than one part
    in [2^53] of itself. *)
Lemma floor_round64_below (y : Q) (k : Z) :
  (0 <= k)%Z -> (k + 1 <= 2 ^ 53)%Z ->
  inject_Z k <= y -> y + y * Qpow2 (-53) < inject_Z k + 1 ->
  floor (round64 y) = IInt k.
Proof.
  intros Hk0 Hk53 Hlow Hup.
  assert (Hk0q : 0 <= inject_Z k).
  { change 0 with (inject_Z 0). now rewrite <- Zle_Qle. }
  assert (P53 : 0 < Qpow2 (-53)) by apply Qpow2_pos.
  assert (Hy0 : 0 <= y) by lra.
  assert (Hyk : y < inject_Z k + 1) by nra.
  destruct (Qlt_le_dec (1 # 2) y) as [Hbig|Hsmall].
  - assert (Hy53 : y < Qpow2 53).
    { apply Qlt_le_trans with (inject_Z k + 1); [assumption|].
      change 1 with (inject_Z 1).
      rewrite <- inject_Z_plus, (Qpow2_inject 53), <- Zle_Qle by lia. exact Hk53. }
    assert (Hnormal : Qpow2 (-1022) <= y).
    { apply Qle_trans with (Qpow2 (-1)); [apply Qpow2_le; lia|].
      change (Qpow2 (-1)) with (1 # 2). lra. }
    destruct (round64_near y Hnormal Hy53) as (v & -> & Hv & Hge).
    cbn [floor]. f_equal. apply Qfloor_unique; [now apply Hge | lra].
  - assert (Hk : k = 0%Z).
    { assert (Hlt : inject_Z k < inject_Z 1) by (change (inject_Z 1) with 1; lra).
      rewrite <- Zlt_Qlt in Hlt. lia. }
    subst k. destruct (Qlt_le_dec 0 y) as [Hpos|Hzero].
    + destruct (round64_le_pow2 y (-1) Hpos) as (v & -> & Hv0 & Hv1).
      * change (Qpow2 (-1)) with (1 # 2). exact Hsmall.
      * lia.
      * cbn [floor]. f_equal. change (Qpow2 (-1)) with (1 # 2) in Hv1.
        apply Qfloor_unique; change (inject_Z 0) with 0; lra.
    + rewrite round64_zero by lra. reflexivity.
Qed.

Lemma Qfloor_sub_whole (q : Q) (j : Z) : Qfloor (q - inject_Z j) = (Qfloor q - j)%Z.
Proof.
  pose proof (Qfloor_le q) as Hf. pose proof (Qlt_floor q) as Hlt.
  rewrite inject_Z_plus in Hlt. change (inject_Z 1) with 1 in Hlt.
  apply Qfloor_unique; unfold Z.sub; rewrite inject_Z_plus, inject_Z_opp; lra.
Qed.

Lemma Qfloor_div_whole (q : Q) (c : Z) :
  (0 < c)%Z -> Qfloor (q / inject_Z c) = (Qfloor q / c)%Z.
Proof.
  intros Hc.
  assert (Hcq : 0 < inject_Z c) by (change 0 with (inject_Z 0); now rewrite <- Zlt_Qlt).
  pose proof (Qfloor_le q) as Hf. pose proof (Qlt_floor q) as Hlt.
  rewrite inject_Z_plus in Hlt. change (inject_Z 1) with 1 in Hlt.
  set (n := Qfloor q) in *.
  destruct (quotient_bounds n c (inject_Z n / inject_Z c) Hc ltac:(reflexivity))
    as (_ & Hlow & Hup).
  assert (Hq : q == q / inject_Z c * inject_Z c) by (field; lra).
  apply Qfloor_unique.
  - apply Qle_shift_div_l; [assumption|]. lra.
  - apply Qlt_shift_div_r; [assumption|]. lra.
Qed.

(** The remainder of a binary64 value by a whole number is a binary64
    value. *)
Lemma rem_representable (q r : Q) (c : Z) :
  representable q -> 0 <= q -> (0 < c < 2 ^ 53)%Z ->
  r == q - inject_Z c * inject_Z (Qfloor (q / inject_Z c)) ->
  representable r.
Proof.
  intros (m & e & Hq & Hm & He) Hq0 Hc Hr.
  pose proof (Qpow2_pos e) as Pe.
  assert (Hcq : 0 < inject_Z c) by (change 0 with (inject_Z 0); rewrite <- Zlt_Qlt; lia).
  assert (Hk0 : 0 <= inject_Z (Qfloor (q / inject_Z c))).
  { change 0 with (inject_Z 0). rewrite <- Zle_Qle.
    change 0%Z with (Qfloor 0). apply Qfloor_resp_le. apply Qle_shift_div_l; lra. }
  assert (Hrange : 0 <= r /\ r <= q).
  { pose proof (Qfloor_le (q / inject_Z c)) as Hf.
    assert (Hqc : q == q / inject_Z c * inject_Z c) by (field; lra).
    set (k := inject_Z (Qfloor (q / inject_Z c))) in *.
    assert (H1 : k * inject_Z c <= q / inject_Z c * inject_Z c)
      by (apply Qmult_le_r; lra).
    split; [lra|]. rewrite Hr. nra. }
  destruct Hrange as [Hr0 Hrq].
  destruct (Z.le_gt_cases e 0) as [Hneg|Hpos].
  - pose proof (grid_sub_multiple q m e c (Qfloor (q / inject_Z c)) Hq Hneg) as Hgrid.
    rewrite <- Hr in Hgrid.
    set (m' := (m - c * Qfloor (q / inject_Z c) * 2 ^ (- e))%Z) in *.
    exists m', e. split; [exact Hgrid|]. split; [|exact He].
    assert (H0 : (0 <= m')%Z).
    { rewrite Zle_Qle. apply (Qmult_le_r _ _ (Qpow2 e)); [assumption|].
      change (inject_Z 0) with 0. lra. }
    assert (H1 : (m' <= m)%Z).
    { rewrite Zle_Qle. apply (Qmult_le_r _ _ (Qpow2 e)); [assumption|]. lra. }
    lia.
  - assert (Hint : q == inject_Z (m * 2 ^ e)).
    { rewrite Hq, inject_Z_mult, <- Qpow2_inject by lia. reflexivity. }
    assert (Hn0 : (0 <= m * 2 ^ e)%Z).
    { rewrite Zle_Qle, <- Hint. exact Hq0. }
    assert (Hy : q / inject_Z c == inject_Z (m * 2 ^ e) / inject_Z c) by now rewrite Hint.
    exists ((m * 2 ^ e) mod c)%Z, 0%Z.
    pose proof (Z.mod_pos_bound (m * 2 ^ e) c ltac:(lia)) as Hb.
    split; [|lia].
    rewrite Hr, (Qfloor_quotient _ c _ ltac:(lia) Hy), Hint, <- inject_Z_mult.
    rewrite Z.mod_eq by lia. unfold Z.sub. rewrite inject_Z_plus, inject_Z_opp.
    change (Qpow2 0) with 1. ring.
Qed.

(** Dividing a binary64 value by a whole number and rounding the quotient
    to binary64 does not reach the next whole number. *)
Lemma floor_div_representable (r : Q) (c : Z) :
  representable r -> 0 <= r -> (0 < c)%Z -> (c * (Qfloor r / c + 1) <= 2 ^ 53)%Z ->
  floor (round64 (r / inject_Z c)) = IInt (Qfloor r / c).
Proof.
  intros Hrep Hr0 Hc Hbound.
  assert (Hcq : 0 < inject_Z c) by (change 0 with (inject_Z 0); now rewrite <- Zlt_Qlt).
  assert (Hn0 : (0 <= Qfloor r)%Z).
  { change 0%Z with (Qfloor 0). now apply Qfloor_resp_le. }
  pose proof (Qfloor_div_whole r c Hc) as Hk.
  set (k := (Qfloor r / c)%Z) in *.
  assert (Hk0 : (0 <= k)%Z) by (apply Z.div_pos; lia).
  pose proof (Qfloor_le (r / inject_Z c)) as Hlow.
  pose proof (Qlt_floor (r / inject_Z c)) as Hup.
  rewrite Hk in Hlow, Hup. rewrite inject_Z_plus in Hup. change (inject_Z 1) with 1 in Hup.
  assert (Hrc : r == r / inject_Z c * inject_Z c) by (field; lra).
  assert (HrB : r < inject_Z (c * (k + 1))).
  { rewrite inject_Z_mult, inject_Z_plus. change (inject_Z 1) with 1.
    assert (H1 : r / inject_Z c * inject_Z c < (inject_Z k + 1) * inject_Z c)
      by (apply Qmult_lt_r; assumption).
    lra. }
  pose proof (representable_gap r (c * (k + 1)) Hrep Hr0 HrB Hbound) as Hgap.
  rewrite inject_Z_mult, inject_Z_plus in Hgap. change (inject_Z 1) with 1 in Hgap.
  apply floor_round64_below; [exact Hk0 | nia | exact Hlow |].
  assert (Hsum : r / inject_Z c + r / inject_Z c * Qpow2 (-53)
                 == (r + r * Qpow2 (-53)) / inject_Z c) by (field; lra).
  rewrite Hsum. apply Qlt_shift_div_r; [assumption|]. lra.
Qed.

(** The floor of a number rounded to binary64 is the floor of the number,
    or the next whole number when the number is below it by one part in
    [2^53] of itself at most. *)
Lemma floor_round64_cut (y : Q) :
  0 <= y -> y < Qpow2 53 ->
  exists z, floor (round64 y) = IInt z /\
            (Qfloor y <= z)%Z /\ (z <= Qfloor (y + y * Qpow2 (-53)))%Z.
Proof.
  intros Hy0 Hy53.
  assert (P53 : 0 < Qpow2 (-53)) by apply Qpow2_pos.
  assert (Hmore : y <= y + y * Qpow2 (-53)) by nra.
  destruct (Qlt_le_dec (1 # 2) y) as [Hbig|Hsmall].
  - assert (Hnormal : Qpow2 (-1022) <= y).
    { apply Qle_trans with (Qpow2 (-1)); [apply Qpow2_le; lia|].
      change (Qpow2 (-1)) with (1 # 2). lra. }
    destruct (round64_near y Hnormal Hy53) as (v & -> & Hv & Hge).
    exists (Qfloor v). split; [reflexivity|]. split.
    + rewrite <- (Qfloor_Z (Qfloor y)). apply Qfloor_resp_le, Hge, Qfloor_le.
    + now apply Qfloor_resp_le.
  - assert (Hf : Qfloor y = 0%Z).
    { apply Qfloor_unique; change (inject_Z 0) with 0; lra. }
    assert (Hup : (0 <= Qfloor (y + y * Qpow2 (-53)))%Z).
    { change 0%Z with (Qfloor 0). apply Qfloor_resp_le. lra. }
    destruct (Qlt_le_dec 0 y) as [Hpos|Hzero].
    + destruct (round64_le_pow2 y (-1) Hpos) as (v & -> & Hv0 & Hv1).
      * change (Qpow2 (-1)) with (1 # 2). exact Hsmall.
      * lia.
      * change (Qpow2 (-1)) with (1 # 2) in Hv1.
        exists 0%Z. split; [|lia]. cbn [floor]. f_equal.
        apply Qfloor_unique; change (inject_Z 0) with 0; lra.
    + rewrite round64_zero by lra. exists 0%Z. split; [reflexivity | lia].
Qed.

Lemma Qfloor_nonneg (q : Q) : 0 <= q -> (0 <= Qfloor q)%Z.
Proof. intros Hq. change 0%Z with (Qfloor 0). now apply Qfloor_resp_le. Qed.

Lemma round_half_even_near_below (x : Q) : x - (1 # 2) <= inject_Z (round_half_even x).
Proof.
  unfold round_half_even.
  pose proof (Qlt_floor x) as Hlt. rewrite inject_Z_plus in Hlt.
  change (inject_Z 1) with 1 in Hlt.
  destruct (Qcompare_spec (x - inject_Z (Qfloor x)) (1 # 2)) as [Heq|Hlow|Hgt].
  - destruct (Z.even (Qfloor x)); [lra|].
    rewrite inject_Z_plus. change (inject_Z 1) with 1. lra.
  - lra.
  - rewrite inject_Z_plus. change (inject_Z 1) with 1. lra.
Qed.

(** Rounding a number of the normal range to binary64 changes it by one
    part in [2^53] at most. *)
Lemma round64_relative (y : Q) :
  Qpow2 (-1022) <= y -> y < Qpow2 1023 ->
  exists v, round64 y = Fin v /\
            y - y * Qpow2 (-53) <= v /\ v <= y + y * Qpow2 (-53).
Proof.
  intros Hnormal Hy.
  pose proof (Qpow2_pos (-1022)) as Pn.
  assert (Hypos : 0 < y) by lra.
  destruct (ilog2_spec y Hypos) as [Hp1 Hp2].
  set (p := ilog2 y) in *.
  pose proof (Qpow2_pos p) as Pp.
  assert (Hp1023 : (p < 1023)%Z).
  { apply Qpow2_lt_inv. apply Qle_lt_trans with y; assumption. }
  assert (Hpm : (-1023 < p)%Z).
  { assert (Hlt : Qpow2 (-1022) < Qpow2 (p + 1)) by lra.
    apply Qpow2_lt_inv in Hlt. lia. }
  assert (He : ulp_exp y = (p - 52)%Z) by (unfold ulp_exp; fold p; lia).
  pose proof (Qpow2_pos (p - 52)) as Pe.
  set (x := y / Qpow2 (p - 52)).
  assert (Hx : x * Qpow2 (p - 52) == y) by (unfold x; field; lra).
  set (r := round_half_even x).
  assert (Hx53 : x <= inject_Z (2 ^ 53)).
  { rewrite <- Qpow2_inject by lia. unfold x. apply Qle_shift_div_r; [assumption|].
    rewrite <- Qpow2_add. replace (53 + (p - 52))%Z with (p + 1)%Z by lia. lra. }
  assert (Hr53 : (r <= 2 ^ 53)%Z) by now apply round_half_even_le.
  assert (Hfin : inject_Z (round_half_even (y / Qpow2 (ulp_exp y))) * Qpow2 (ulp_exp y)
                 < Qpow2 1024).
  { rewrite He. fold x r. apply Qle_lt_trans with (Qpow2 53 * Qpow2 (p - 52)).
    - apply Qmult_le_r; [assumption|].
      rewrite (Qpow2_inject 53), <- Zle_Qle by lia. exact Hr53.
    - rewrite <- Qpow2_add. apply Qpow2_lt. lia. }
  eexists. split; [apply (round64_positive y Hypos Hfin)|].
  rewrite Qred_correct, He. fold x r.
  pose proof (round_half_even_near x) as Hup. fold r in Hup.
  pose proof (round_half_even_near_below x) as Hlow. fold r in Hlow.
  assert (Hhalf : (1 # 2) * Qpow2 (p - 52) <= y * Qpow2 (-53)).
  { assert (Hsplit : Qpow2 p * Qpow2 (-53) == (1 # 2) * Qpow2 (p - 52)).
    { change (1 # 2) with (Qpow2 (-1)). rewrite <- !Qpow2_add.
      now replace (p + -53)%Z with (-1 + (p - 52))%Z by lia. }
    rewrite <- Hsplit. apply Qmult_le_r; [apply Qpow2_pos|]. exact Hp1. }
  assert (H1 : (x - (1 # 2)) * Qpow2 (p - 52) <= inject_Z r * Qpow2 (p - 52))
    by (apply Qmult_le_r; assumption).
  assert (H2 : inject_Z r * Qpow2 (p - 52) <= (x + (1 # 2)) * Qpow2 (p - 52))
    by (apply Qmult_le_r; assumption).
  split; nra.
Qed.

(** [Math.floor(seconds / 3600)] at every magnitude: the quotient, cut, up
    to one part in [2^53] of it. *)
Lemma hours_near (q : Q) :
  representable q -> 0 <= q ->
  exists h, srt_hours (Fin q) = IInt h /\ (0 <= h)%Z /\
            q / 3600 - q / 3600 * Qpow2 (-53) - 1 < inject_Z h /\
            inject_Z h <= q / 3600 + q / 3600 * Qpow2 (-53).
Proof.
  intros (m & e & Hq & Hm & He) Hq0. unfold srt_hours.
  destruct constants_exact as (-> & _ & _ & _).
  unfold div, is_zero. change (Qeq_bool 3600 0) with false. cbv iota.
  set (y := q / 3600).
  assert (Hy : y == q * (1 # 3600)) by (unfold y; field; lra).
  assert (Hy0 : 0 <= y) by lra.
  assert (P53 : 0 < Qpow2 (-53)) by apply Qpow2_pos.
  assert (Hbound : q < Qpow2 1024).
  { rewrite Hq. pose proof (Qpow2_pos e) as Pe.
    apply Qlt_le_trans with (Qpow2 53 * Qpow2 e).
    - apply Qmult_lt_r; [assumption|].
      rewrite (Qpow2_inject 53), <- Zlt_Qlt by lia. lia.
    - rewrite <- Qpow2_add. apply Qpow2_le. lia. }
  assert (Hy1023 : y < Qpow2 1023).
  { assert (Hsplit : Qpow2 1024 == 2 * Qpow2 1023).
    { change 2 with (Qpow2 1). rewrite <- Qpow2_add. reflexivity. }
    pose proof (Qpow2_pos 1023). lra. }
  destruct (Qlt_le_dec y (Qpow2 (-1022))) as [Htiny|Hnormal].
  - assert (Hsmall : Qpow2 (-1022) <= 1 # 2).
    { change (1 # 2) with (Qpow2 (-1)). apply Qpow2_le. lia. }
    exists 0%Z. change (inject_Z 0) with 0.
    assert (Hprod : 0 <= y * Qpow2 (-53)) by nra.
    split; [|split; [lia | split; nra]].
    destruct (Qlt_le_dec 0 y) as [Hpos|Hzero].
    + destruct (round64_le_pow2 y (-1) Hpos) as (v & -> & Hv0 & Hv1).
      * change (Qpow2 (-1)) with (1 # 2). lra.
      * lia.
      * change (Qpow2 (-1)) with (1 # 2) in Hv1. cbn [floor]. f_equal.
        apply Qfloor_unique; change (inject_Z 0) with 0; lra.
    + rewrite round64_zero by lra. reflexivity.
  - destruct (round64_relative y Hnormal Hy1023) as (v & -> & Hlow & Hup).
    exists (Qfloor v). split; [reflexivity|].
    pose proof (Qfloor_le v) as Hf1. pose proof (Qlt_floor v) as Hf2.
    rewrite inject_Z_plus in Hf2. change (inject_Z 1) with 1 in Hf2.
    assert (Hv0 : 0 <= v).
    { pose proof (Qpow2_pos (-1022)).
      assert (Qpow2 (-53) <= 1).
      { change 1 with (Qpow2 0). apply Qpow2_le. lia. }
      nra. }
    split; [now apply Qfloor_nonneg|]. split; lra.
Qed.

(** [Math.floor(seconds / 3600)] below [2^52] seconds. *)
Lemma hours_exact (q : Q) :
  representable q -> 0 <= q -> q < inject_Z (2 ^ 52) ->
  srt_hours (Fin q) = IInt (Qfloor q / 3600).
Proof.
  intros Hrep Hq0 Hq52. unfold srt_hours.
  destruct constants_exact as (-> & _ & _ & _).
  unfold div, is_zero. change (Qeq_bool 3600 0) with false. cbv iota.
  pose proof (Qfloor_nonneg q Hq0) as Hn0.
  assert (Hn52 : (Qfloor q < 2 ^ 52)%Z).
  { rewrite Zlt_Qlt. apply Qle_lt_trans with q; [apply Qfloor_le | exact Hq52]. }
  apply (floor_div_representable q 3600 Hrep Hq0); [lia|].
  pose proof (Z.mul_div_le (Qfloor q) 3600 ltac:(lia)). lia.
Qed.

(** [Math.floor(seconds % 60)] *)
Lemma secs_exact (q : Q) : 0 <= q -> srt_secs (Fin q) = IInt (Qfloor q mod 60).
Proof.
  intros Hq0. unfold srt_secs.
  destruct constants_exact as (_ & -> & _ & _).
  destruct (rem_nonneg q 60 Hq0) as (r & -> & Hr & _); [lra|].
  cbn [floor]. f_equal.
  change 60 with (inject_Z 60) in Hr. rewrite <- inject_Z_mult in Hr.
  rewrite Hr, Qfloor_sub_whole, (Qfloor_div_whole q 60) by lia.
  rewrite Z.mod_eq by lia. reflexivity.
Qed.

(** [Math.floor((seconds % 3600) / 60)] *)
Lemma minutes_exact (q : Q) :
  representable q -> 0 <= q -> srt_minutes (Fin q) = IInt (Qfloor q mod 3600 / 60).
Proof.
  intros Hrep Hq0. unfold srt_minutes.
  destruct constants_exact as (-> & -> & _ & _).
  destruct (rem_nonneg q 3600 Hq0) as (r & -> & Hr & Hr0 & Hr1); [lra|].
  unfold div, is_zero. change (Qeq_bool 60 0) with false. cbv iota.
  assert (Hrr : representable r).
  { apply (rem_representable q r 3600 Hrep Hq0); [lia|]. exact Hr. }
  assert (Hfloor : Qfloor r = (Qfloor q mod 3600)%Z).
  { change 3600 with (inject_Z 3600) in Hr. rewrite <- inject_Z_mult in Hr.
    rewrite Hr, Qfloor_sub_whole, (Qfloor_div_whole q 3600) by lia.
    rewrite Z.mod_eq by lia. reflexivity. }
  pose proof (Z.mod_pos_bound (Qfloor q) 3600 ltac:(lia)) as Hbound.
  rewrite <- Hfloor in *.
  change 60 with (inject_Z 60).
  apply (floor_div_representable r 60 Hrr Hr0); [lia|].
  pose proof (Z.mul_div_le (Qfloor r) 60 ltac:(lia)). lia.
Qed.

(** [Math.floor((seconds % 1) * 1000)]: the thousandths of the fraction,
    cut; a fraction that is below a whole number of thousandths by [2^-43]
    thousandths at most counts as that number, the product being rounded
    to binary64 before it is cut. *)
Lemma milliseconds_cut (q : Q) :
  representable q -> 0 <= q ->
  exists ms, srt_milliseconds (Fin q) = IInt ms /\ (0 <= ms <= 999)%Z /\
             (Qfloor ((q - inject_Z (Qfloor q)) * 1000) <= ms)%Z /\
             (ms <= Qfloor ((q - inject_Z (Qfloor q)) * 1000 + Qpow2 (-43)))%Z.
Proof.
  intros Hrep Hq0.
  destruct (milliseconds_range q Hrep Hq0) as (ms & Hms & Hrange).
  exists ms. split; [exact Hms|]. split; [exact Hrange|].
  unfold srt_milliseconds in Hms.
  destruct constants_exact as (_ & _ & E1 & E1000). rewrite E1, E1000 in Hms.
  destruct (rem_nonneg q 1 Hq0) as (r & Hrem & Hr & Hr0 & Hr1); [lra|].
  rewrite Hrem in Hms. unfold mul in Hms.
  assert (Hfrac : r == q - inject_Z (Qfloor q)).
  { rewrite Hr. change 1 with (inject_Z 1) at 2.
    rewrite (Qfloor_div_whole q 1) by lia. rewrite Z.div_1_r. ring. }
  assert (Hy53 : r * 1000 < Qpow2 53).
  { assert (E53 : Qpow2 53 == 9007199254740992) by reflexivity. lra. }
  destruct (floor_round64_cut (r * 1000) ltac:(lra) Hy53) as (z & Hz & Hlow & Hup).
  rewrite Hz in Hms. injection Hms as <-.
  assert (P53 : Qpow2 (-53) == 1 # 9007199254740992) by reflexivity.
  assert (P43 : Qpow2 (-43) == 1 # 8796093022208) by reflexivity.
  split.
  - now rewrite <- Hfrac.
  - rewrite <- Hfrac. apply Z.le_trans with (1 := Hup).
    apply Qfloor_resp_le. rewrite P53, P43. lra.
Qed.

End ComponentFacts.

(** C6. The formatter on the examples of the specification, the seconds
    being the binary64 values of the decimal literals; and on every
    non-negative binary64 number of seconds, with [whole] its whole part:
    the minutes are [whole mod 3600 / 60] and the seconds [whole mod 60],
    cut and never rounded; the hours are [whole / 3600] below [2^52]
    seconds, and at every magnitude the quotient by 3600, cut, up to one
    part in [2^53] of it, the quotient being a binary64 value before it is
    cut; the milliseconds are the thousandths of the fraction, cut, a
    fraction below a whole number of thousandths by [2^-43] thousandths at
    most counting as that number, for the same reason; the output is the
    four components in decimal, hours, minutes and seconds padded with
    zeros to two digits and milliseconds to three, separated by colons and
    a comma. *)
Theorem formatSrtTime_spec :
  formatSrtTime (parseFloat "0") = "00:00:00,000" /\
  formatSrtTime (parseFloat "65.5") = "00:01:05,500" /\
  formatSrtTime (parseFloat "3661.001") = "01:01:01,001" /\
  forall q : Q,
    representable q -> (0 <= q)%Q ->
    exists h ms : Z,
      let whole := Qfloor q in
      let thousandths := ((q - inject_Z whole) * 1000)%Q in
      srt_hours (Fin q) = IInt h /\
      srt_minutes (Fin q) = IInt (whole mod 3600 / 60) /\
      srt_secs (Fin q) = IInt (whole mod 60) /\
      srt_milliseconds (Fin q) = IInt ms /\
      0 <= h /\
      (q / 3600 - q / 3600 * Qpow2 (-53) - 1 < inject_Z h)%Q /\
      (inject_Z h <= q / 3600 + q / 3600 * Qpow2 (-53))%Q /\
      ((q < inject_Z (2 ^ 52))%Q -> h = whole / 3600) /\
      0 <= ms <= 999 /\
      Qfloor thousandths <= ms <= Qfloor (thousandths + Qpow2 (-43)) /\
      formatSrtTime (Fin q)
      = padStart 2 "0" (toString (IInt h)) +++ ":" +++
        padStart 2 "0" (Z_toString (whole mod 3600 / 60)) +++ ":" +++
        padStart 2 "0" (Z_toString (whole mod 60)) +++ "," +++
        padStart 3 "0" (Z_toString ms) /\
      (2 <= String.length (padStart 2 "0" (toString (IInt h))))%nat /\
      (h < 100 -> digit_field 2 (padStart 2 "0" (toString (IInt h)))) /\
      digit_field 2 (padStart 2 "0" (Z_toString (whole mod 3600 / 60))) /\
      digit_field 2 (padStart 2 "0" (Z_toString (whole mod 60))) /\
      digit_field 3 (padStart 3 "0" (Z_toString ms)).
Proof.
  split; [vm_compute; reflexivity|].
  split; [vm_compute; reflexivity|].
  split; [vm_compute; reflexivity|].
  intros q Hrep Hq.
  destruct (hours_near q Hrep Hq) as (h & Hh & Hh0 & Hh1 & Hh2).
  pose proof (minutes_exact q Hrep Hq) as Hm.
  pose proof (secs_exact q Hq) as Hs.
  destruct (milliseconds_cut q Hrep Hq) as (ms & Hms & Hms0 & Hms1 & Hms2).
  pose proof (Z.mod_pos_bound (Qfloor q) 3600 ltac:(lia)) as B1.
  pose proof (Z.mod_pos_bound (Qfloor q) 60 ltac:(lia)) as B2.
  assert (B3 : 0 <= Qfloor q mod 3600 / 60 <= 59).
  { split; [apply Z.div_pos; lia|].
    assert (Qfloor q mod 3600 / 60 < 60) by (apply Z.div_lt_upper_bound; lia). lia. }
  assert (Hsmall : forall z, 0 <= z <= 999 -> toString (IInt z) = Z_toString z).
  { intros z Hz. unfold toString.
    destruct (Z.ltb_spec (Z.abs z) (2 ^ 53)) as [|Hbig]; [reflexivity|]. lia. }
  exists h, ms. cbv zeta.
  split; [exact Hh|]. split; [exact Hm|]. split; [exact Hs|]. split; [exact Hms|].
  split; [exact Hh0|]. split; [exact Hh1|]. split; [exact Hh2|]. split.
  { intros Hq52. pose proof (hours_exact q Hrep Hq Hq52) as Hexact. congruence. }
  split; [exact Hms0|]. split; [split; assumption|].
  split.
  { unfold formatSrtTime. rewrite Hh, Hm, Hs, Hms.
    now rewrite (Hsmall (Qfloor q mod 3600 / 60)), (Hsmall (Qfloor q mod 60)),
      (Hsmall ms) by lia. }
  split; [rewrite length_padStart; lia|].
  split.
  { intros Hh100. rewrite Hsmall by lia. apply padded_field; [auto | lia]. }
  repeat split; apply padded_field; auto; lia.
Qed.

Lemma formatSrtTime_spec_witness :
  exists h ms : Z,
    srt_hours (Fin (131 # 2)) = IInt h /\
    srt_minutes (Fin (131 # 2)) = IInt (Qfloor (131 # 2) mod 3600 / 60) /\
    srt_secs (Fin (131 # 2)) = IInt (Qfloor (131 # 2) mod 60) /\
    srt_milliseconds (Fin (131 # 2)) = IInt ms /\
    0 <= h /\
    ((131 # 2) / 3600 - (131 # 2) / 3600 * Qpow2 (-53) - 1 < inject_Z h)%Q /\
    (inject_Z h <= (131 # 2) / 3600 + (131 # 2) / 3600 * Qpow2 (-53))%Q /\
    ((131 # 2 < inject_Z (2 ^ 52))%Q -> h = Qfloor (131 # 2) / 3600) /\
    0 <= ms <= 999 /\
    Qfloor (((131 # 2) - inject_Z (Qfloor (131 # 2))) * 1000) <= ms
    <= Qfloor (((131 # 2) - inject_Z (Qfloor (131 # 2))) * 1000 + Qpow2 (-43)) /\
    formatSrtTime (Fin (131 # 2))
    = padStart 2 "0" (toString (IInt h)) +++ ":" +++
      padStart 2 "0" (Z_toString (Qfloor (131 # 2) mod 3600 / 60)) +++ ":" +++
      padStart 2 "0" (Z_toString (Qfloor (131 # 2) mod 60)) +++ "," +++
      padStart 3 "0" (Z_toString ms) /\
    (2 <= String.length (padStart 2 "0" (toString (IInt h))))%nat /\
    (h < 100 -> digit_field 2 (padStart 2 "0" (toString (IInt h)))) /\
    digit_field 2 (padStart 2 "0" (Z_toString (Qfloor (131 # 2) mod 3600 / 60))) /\
    digit_field 2 (padStart 2 "0" (Z_toString (Qfloor (131 # 2) mod 60))) /\
    digit_field 3 (padStart 3 "0" (Z_toString ms)).
Proof.
  apply (proj2 (proj2 (proj2 formatSrtTime_spec)) (131 # 2)%Q).
  - exists 131, (-1). split; [reflexivity | lia].
  - unfold Qle. cbn. lia.
Defined.

(* ===================================================================== *)
(** ** Proofs: the time stamps of whole seconds *)
(* ===================================================================== *)

(** The components and the text of the time stamp of a whole number of
    seconds. *)
Lemma whole_seconds_format (n : Z) (q : Q) :
  0 <= n < 2 ^ 52 -> (q == inject_Z n)%Q ->
  srt_hours (Fin q) = IInt (n / 3600) /\
  srt_minutes (Fin q) = IInt (n mod 3600 / 60) /\
  srt_secs (Fin q) = IInt (n mod 60) /\
  srt_milliseconds (Fin q) = IInt 0 /\
  formatSrtTime (Fin q)
  = padStart 2 "0" (Z_toString (n / 3600)) +++ ":" +++
    padStart 2 "0" (Z_toString (n mod 3600 / 60)) +++ ":" +++
    padStart 2 "0" (Z_toString (n mod 60)) +++ ",000".
Proof.
  intros Hn Hq.
  destruct constants_exact as (E3600 & E60 & E1 & E1000).
  assert (Hhours : srt_hours (Fin q) = IInt (n / 3600)).
  { unfold srt_hours. rewrite E3600. unfold div, is_zero.
    change (Qeq_bool 3600 0) with false. cbv iota.
    apply floor_round64_quotient; [lia | lia |]. now rewrite Hq. }
  assert (Hminutes : srt_minutes (Fin q) = IInt (n mod 3600 / 60)).
  { unfold srt_minutes. rewrite E3600, E60.
    destruct (rem_whole n 3600 q ltac:(lia) ltac:(lia) Hq) as (r & Hrem & Hr).
    change (inject_Z 3600) with 3600%Q in Hrem. rewrite Hrem.
    unfold div, is_zero. change (Qeq_bool 60 0) with false. cbv iota.
    pose proof (Z.mod_pos_bound n 3600 ltac:(lia)) as Hbound.
    apply floor_round64_quotient; [lia | lia |]. now rewrite Hr. }
  assert (Hsecs : srt_secs (Fin q) = IInt (n mod 60)).
  { unfold srt_secs. rewrite E60.
    destruct (rem_whole n 60 q ltac:(lia) ltac:(lia) Hq) as (r & Hrem & Hr).
    change (inject_Z 60) with 60%Q in Hrem. rewrite Hrem.
    cbn [floor]. f_equal. rewrite Hr. apply Qfloor_Z. }
  assert (Hms : srt_milliseconds (Fin q) = IInt 0).
  { unfold srt_milliseconds. rewrite E1, E1000.
    destruct (rem_whole n 1 q ltac:(lia) ltac:(lia) Hq) as (r & Hrem & Hr).
    change (inject_Z 1) with 1%Q in Hrem. rewrite Hrem.
    unfold mul. rewrite round64_zero; [reflexivity|].
    rewrite Hr, Z.mod_1_r. reflexivity. }
  repeat split; try assumption.
  unfold formatSrtTime. cbv zeta. rewrite Hhours, Hminutes, Hsecs, Hms.
  pose proof (Z.mod_pos_bound n 3600 ltac:(lia)) as B1.
  pose proof (Z.mod_pos_bound n 60 ltac:(lia)) as B2.
  assert (Hsmall : forall z, 0 <= z < 2 ^ 52 -> toString (IInt z) = Z_toString z).
  { intros z Hz. unfold toString.
    destruct (Z.ltb_spec (Z.abs z) (2 ^ 53)) as [_|Hbig]; [reflexivity|]. lia. }
  rewrite (Hsmall (n / 3600)), (Hsmall (n mod 3600 / 60)), (Hsmall (n mod 60)).
  - reflexivity.
  - lia.
  - split; [apply Z.div_pos; lia|]. apply Z.div_lt_upper_bound; lia.
  - split; [apply Z.div_pos; lia|]. apply Z.div_lt_upper_bound; lia.
Qed.

Section WholeSecondTexts.

Lemma read_digits_uint_acc (d : Decimal.uint) :
  forall (p : positive) (cnt : Z),
    read_digits (NilEmpty.string_of_uint d) (Z.pos p) cnt
    = (Z.pos (Pos.of_uint_acc d p),
       cnt + Z.of_nat (String.length (NilEmpty.string_of_uint d)), "").
Proof.
  induction d; intros p cnt; cbn [NilEmpty.string_of_uint read_digits String.length];
    [f_equal; f_equal; lia|..];
    (change (is_digit _) with true; cbv iota; unfold digit_val;
     cbn [Pos.of_uint_acc];
     match goal with
     | |- context [Z.of_nat (nat_of_ascii ?c)] =>
         let v := eval vm_compute in (Z.of_nat (nat_of_ascii c)) in
         change (Z.of_nat (nat_of_ascii c)) with v
     end;
     match goal with
     | |- read_digits _ ?a _ = (Z.pos (Pos.of_uint_acc _ ?q), _, _) =>
         replace a with (Z.pos q) by lia
     end;
     rewrite IHd; f_equal; f_equal; lia).
Qed.

Lemma read_digits_uint (d : Decimal.uint) :
  forall cnt : Z,
    read_digits (NilEmpty.string_of_uint d) 0 cnt
    = (Z.of_uint d, cnt + Z.of_nat (String.length (NilEmpty.string_of_uint d)), "").
Proof.
  unfold Z.of_uint.
  induction d; intros cnt; cbn [NilEmpty.string_of_uint read_digits String.length];
    [f_equal; f_equal; lia|..];
    change (is_digit _) with true; cbv iota; unfold digit_val;
    cbn [Pos.of_uint Z.of_N];
    match goal with
    | |- context [Z.of_nat (nat_of_ascii ?c)] =>
        let v := eval vm_compute in (Z.of_nat (nat_of_ascii c)) in
        change (Z.of_nat (nat_of_ascii c)) with v
    end.
  1: { change (10 * 0 + (48 - 48)) with 0. rewrite IHd. f_equal; f_equal; lia. }
  all: match goal with
       | |- read_digits _ ?a _ = _ =>
           let v := eval vm_compute in a in change a with v
       end;
       rewrite read_digits_uint_acc; f_equal; f_equal; lia.
Qed.

(** Rounding to binary64 keeps a whole number below [2^53]. *)
Lemma round64_whole (n : Z) (y : Q) :
  0 <= n < 2 ^ 53 -> (y == inject_Z n)%Q ->
  exists q, round64 y = Fin q /\ (q == inject_Z n)%Q.
Proof.
  intros Hn Hy.
  destruct (Z.eq_dec n 0) as [->|Hne].
  { exists 0%Q. split; [now apply round64_zero | reflexivity]. }
  assert (Hn1 : (1 <= inject_Z n)%Q).
  { change 1%Q with (inject_Z 1). rewrite <- Zle_Qle. lia. }
  assert (Hn53 : (inject_Z n < Qpow2 53)%Q).
  { rewrite (Qpow2_inject 53), <- Zlt_Qlt by lia. lia. }
  assert (Hypos : (0 < y)%Q) by lra.
  destruct (ilog2_spec y Hypos) as [Hp1 Hp2].
  set (p := ilog2 y) in *.
  assert (Hp53 : p < 53).
  { apply Qpow2_lt_inv. apply Qle_lt_trans with y; [assumption | lra]. }
  assert (Hp0 : -1 < p).
  { assert (Hlt : (Qpow2 0 < Qpow2 (p + 1))%Q).
    { change (Qpow2 0) with 1%Q. lra. }
    apply Qpow2_lt_inv in Hlt. lia. }
  assert (He : ulp_exp y = p - 52) by (unfold ulp_exp; fold p; lia).
  pose proof (Qpow2_pos (p - 52)) as Pe. pose proof (Qpow2_pos (52 - p)) as Ps.
  assert (Hone : (Qpow2 (52 - p) * Qpow2 (p - 52) == 1)%Q).
  { rewrite <- Qpow2_add. now replace (52 - p + (p - 52)) with 0 by lia. }
  assert (Hscaled : (y / Qpow2 (p - 52) == inject_Z (n * 2 ^ (52 - p)))%Q).
  { rewrite inject_Z_mult, <- Qpow2_inject, Hy by lia.
    apply Qmult_inj_r with (Qpow2 (p - 52)); [lra|].
    rewrite <- Qmult_assoc, Hone. field. lra. }
  assert (Hr : round_half_even (y / Qpow2 (p - 52)) = n * 2 ^ (52 - p)).
  { apply Z.le_antisymm.
    - apply round_half_even_le. rewrite Hscaled. apply Qle_refl.
    - apply round_half_even_ge. rewrite Hscaled. apply Qle_refl. }
  assert (Hvalue : (inject_Z (n * 2 ^ (52 - p)) * Qpow2 (p - 52) == inject_Z n)%Q).
  { rewrite inject_Z_mult, <- Qpow2_inject, <- Qmult_assoc, Hone by lia. ring. }
  assert (Hfin : (inject_Z (round_half_even (y / Qpow2 (ulp_exp y))) * Qpow2 (ulp_exp y)
                  < Qpow2 1024)%Q).
  { rewrite He, Hr, Hvalue. apply Qlt_le_trans with (Qpow2 53); [assumption|].
    apply Qpow2_le. lia. }
  eexists. split; [apply (round64_positive y Hypos Hfin)|].
  rewrite Qred_correct, He, Hr. exact Hvalue.
Qed.

(** [parseFloat] reads the decimal rendering of a whole number back. *)
Lemma parseFloat_whole (n : Z) :
  0 <= n < 2 ^ 53 ->
  exists q, parseFloat (Z_toString n) = Fin q /\ (q == inject_Z n)%Q.
Proof.
  intros Hn.
  destruct n as [|p|p]; [exists 0%Q; split; reflexivity | | lia].
  pose proof (DecimalZ.of_to (Z.pos p)) as Hback.
  unfold Z_toString, NilZero.string_of_int.
  cbn [Z.to_int Z.of_int] in Hback |- *.
  set (d := Pos.to_uint p) in *.
  assert (Hd : d <> Decimal.Nil) by (intros Heq; rewrite Heq in Hback; discriminate).
  assert (Hs : NilZero.string_of_uint d = NilEmpty.string_of_uint d) by now destruct d.
  rewrite Hs. set (s := NilEmpty.string_of_uint d).
  assert (Htrim : trimStart s = s) by (subst s; now destruct d).
  assert (Hsign : read_sign s = (false, s)) by (subst s; now destruct d).
  assert (Hinf : String.prefix "Infinity" s = false) by (subst s; now destruct d).
  assert (Hlen : (1 <= String.length s)%nat) by (subst s; destruct d; cbn; [easy|lia..]).
  unfold parseFloat. rewrite Htrim, Hsign, Hinf. subst s.
  rewrite read_digits_uint, Hback.
  destruct (Z.eqb_spec
              (0 + Z.of_nat (String.length (NilEmpty.string_of_uint d)) + 0) 0)
    as [Heq|_]; [lia|].
  apply round64_whole; [exact Hn|].
  change (read_exponent "") with 0. change (Qpow10 (0 - 0)) with 1%Q. ring.
Qed.

End WholeSecondTexts.

(** X16. For a whole number of seconds the time stamp is exact: the hours,
    the minutes and the seconds are the integer quotients and remainders
    and the milliseconds are 000; and the decimal text of a whole number is
    read back as that number, so that its time stamp is exact too. *)
Theorem formatSrtTime_whole_seconds (n : Z) :
  0 <= n < 2 ^ 52 ->
  (forall q : Q,
      (q == inject_Z n)%Q ->
      srt_hours (Fin q) = IInt (n / 3600) /\
      srt_minutes (Fin q) = IInt (n mod 3600 / 60) /\
      srt_secs (Fin q) = IInt (n mod 60) /\
      srt_milliseconds (Fin q) = IInt 0 /\
      formatSrtTime (Fin q)
      = padStart 2 "0" (Z_toString (n / 3600)) +++ ":" +++
        padStart 2 "0" (Z_toString (n mod 3600 / 60)) +++ ":" +++
        padStart 2 "0" (Z_toString (n mod 60)) +++ ",000") /\
  (exists q, parseFloat (Z_toString n) = Fin q /\ (q == inject_Z n)%Q) /\
  formatSrtTime (parseFloat (Z_toString n))
  = padStart 2 "0" (Z_toString (n / 3600)) +++ ":" +++
    padStart 2 "0" (Z_toString (n mod 3600 / 60)) +++ ":" +++
    padStart 2 "0" (Z_toString (n mod 60)) +++ ",000".
Proof.
  intros Hn. split; [intros q Hq; now apply whole_seconds_format|].
  destruct (parseFloat_whole n ltac:(lia)) as (q & Hparse & Hq).
  split; [now exists q|].
  rewrite Hparse. now apply whole_seconds_format.
Qed.

Lemma formatSrtTime_whole_seconds_witness :
  formatSrtTime (parseFloat (Z_toString 3661))
  = padStart 2 "0" (Z_toString (3661 / 3600)) +++ ":" +++
    padStart 2 "0" (Z_toString (3661 mod 3600 / 60)) +++ ":" +++
    padStart 2 "0" (Z_toString (3661 mod 60)) +++ ",000".
Proof. apply (proj2 (proj2 (formatSrtTime_whole_seconds 3661 ltac:(lia)))). Defined.

(* ===================================================================== *)
(** ** Proofs: the duration *)
(* ===================================================================== *)

Section DurationFacts.
Local Open Scope Q_scope.

Lemma gt_false_trans (v acc w : number) :
  not_negative acc -> gt v acc = false -> gt w acc = true -> gt v w = false.
Proof.
  destruct acc as [|sc|c]; [easy | |].
  - cbn. intros ->. destruct w as [|sw|b]; cbn; try discriminate.
    now rewrite andb_false_r.
  - intros _. destruct w as [|sw|b]; cbn; [discriminate | |].
    + intros Hv Hw. apply negb_true_iff in Hw. subst sw.
      destruct v as [|sv|a]; cbn; [reflexivity | apply andb_false_r | reflexivity].
    + intros Hv Hw. apply negb_true_iff in Hw.
      assert (Hlt : c < b).
      { apply Qnot_le_lt. intros Hle. apply Qle_bool_iff in Hle. congruence. }
      destruct v as [|sv|a]; cbn in *; [reflexivity | exact Hv |].
      apply negb_false_iff, Qle_bool_iff in Hv. apply negb_false_iff, Qle_bool_iff. lra.
Qed.

Lemma gt_irreflexive (v : number) : gt v v = false.
Proof.
  destruct v as [|s|a]; cbn; [reflexivity | now destruct s |].
  apply negb_false_iff, Qle_bool_iff. lra.
Qed.

Lemma gt_keeps_not_negative (v acc : number) :
  not_negative acc -> gt v acc = true ->
  (forall q, v = Fin q -> representable q) -> not_negative v.
Proof.
  destruct acc as [|sc|c]; [easy | |].
  - cbn. intros ->. destruct v as [|sv|a]; cbn; try discriminate.
    now rewrite andb_false_r.
  - intros [Hc _]. destruct v as [|sv|a]; cbn; [discriminate | |].
    + intros Hv _. now apply negb_true_iff in Hv.
    + intros Hv Hrep. apply negb_true_iff in Hv. split; [|now apply Hrep].
      assert (Hlt : c < a).
      { apply Qnot_le_lt. intros Hle. apply Qle_bool_iff in Hle. congruence. }
      lra.
Qed.

Lemma later_end_cases (acc : number) (item : Item) :
  (later_end acc item = acc /\
   (truthy (end_time item) = true ->
    gt (parseFloat (or_empty (end_time item))) acc = false)) \/
  (later_end acc item = parseFloat (or_empty (end_time item)) /\
   truthy (end_time item) = true /\
   gt (parseFloat (or_empty (end_time item))) acc = true).
Proof.
  unfold later_end.
  destruct (truthy (end_time item)); [|left; split; [reflexivity | discriminate]].
  destruct (gt (parseFloat (or_empty (end_time item))) acc); cbn [andb]; auto.
Qed.

Lemma maxEndTime_fold (its : list Item) :
  forall acc : number,
    not_negative acc ->
    let final := fold_left later_end its acc in
    not_negative final /\
    gt acc final = false /\
    (forall item, In item its -> truthy (end_time item) = true ->
                  gt (parseFloat (or_empty (end_time item))) final = false) /\
    (final = acc \/
     exists item, In item its /\ truthy (end_time item) = true /\
                  final = parseFloat (or_empty (end_time item))).
Proof.
  induction its as [|item its IH]; intros acc Hacc; cbv zeta.
  - cbn [fold_left]. split; [exact Hacc|]. split; [apply gt_irreflexive|].
    split; [intros item []|]. now left.
  - cbn [fold_left].
    assert (Hnext : not_negative (later_end acc item)).
    { destruct (later_end_cases acc item) as [[-> _]|(-> & _ & Hgt)]; [exact Hacc|].
      apply (gt_keeps_not_negative _ acc Hacc Hgt).
      intros q. apply parseFloat_representable. }
    destruct (IH (later_end acc item) Hnext) as (Hfinal & Hmono & Hall & Hattained).
    cbv zeta in *. set (final := fold_left later_end its (later_end acc item)) in *.
    split; [exact Hfinal|].
    assert (Hstep : forall v, gt v (later_end acc item) = false -> gt v final = false).
    { intros v Hv.
      destruct (gt final (later_end acc item)) eqn:Hfin.
      - exact (gt_false_trans v _ final Hnext Hv Hfin).
      - destruct Hattained as [->|(it & _ & _ & Heq)]; [exact Hv|].
        destruct (later_end acc item) as [|sn|n] eqn:Hn; [easy | |].
        + cbn in Hnext. subst sn. destruct final as [|sf|f]; [easy | |].
          * cbn in Hfinal. subst sf. destruct v as [|sv|a]; cbn in *; auto.
          * cbn in Hmono. discriminate.
        + destruct final as [|sf|f]; [easy | |].
          * cbn in Hfinal. subst sf. cbn in Hfin. discriminate.
          * cbn in Hmono, Hfin. apply negb_false_iff, Qle_bool_iff in Hmono.
            apply negb_false_iff, Qle_bool_iff in Hfin.
            destruct v as [|sv|a]; cbn in *; [reflexivity | exact Hv |].
            apply negb_false_iff, Qle_bool_iff in Hv.
            apply negb_false_iff, Qle_bool_iff. lra. }
    assert (Hacc_le : gt acc (later_end acc item) = false).
    { destruct (later_end_cases acc item) as [[-> _]|(-> & _ & Hgt)];
        [apply gt_irreflexive|].
      destruct acc as [|sa|a]; [easy | |].
      - cbn in Hacc. subst sa.
        destruct (parseFloat (or_empty (end_time item))) as [|sp|p]; cbn in *;
          try discriminate. now rewrite andb_false_r in Hgt.
      - destruct (parseFloat (or_empty (end_time item))) as [|sp|p]; cbn in *;
          [discriminate | now apply negb_true_iff in Hgt |].
        apply negb_true_iff in Hgt. apply negb_false_iff, Qle_bool_iff.
        assert (Hlt : a < p).
        { apply Qnot_le_lt. intros Hle. apply Qle_bool_iff in Hle. congruence. }
        lra. }
    split; [now apply Hstep|]. split.
    + intros it [<-|Hin] Htruthy; [|now apply Hall].
      apply Hstep.
      destruct (later_end_cases acc item) as [[-> Hle]|(-> & _ & _)];
        [now apply Hle | apply gt_irreflexive].
    + destruct Hattained as [Heq|(it & Hin & Htruthy & Heq)].
      * destruct (later_end_cases acc item) as [[Hsame _]|(Hnew & Htruthy & _)].
        -- left. congruence.
        -- right. exists item. split; [now left|]. split; [exact Htruthy | congruence].
      * right. exists it. split; [now right|]. auto.
Qed.

Lemma minutes_not_negative (q : Q) :
  representable q -> 0 <= q ->
  exists m, floor (div (Fin q) n60) = IInt m /\ (0 <= m)%Z.
Proof.
  intros (m & e & Hq & Hm & He) Hq0.
  destruct constants_exact as (_ & -> & _ & _).
  unfold div, is_zero. change (Qeq_bool 60 0) with false. cbv iota.
  assert (Hdiv : q / 60 == q * (1 # 60)) by (field; lra).
  destruct (Qlt_le_dec 0 q) as [Hpos|Hzero].
  - assert (Hbound : q < Qpow2 1024).
    { rewrite Hq. pose proof (Qpow2_pos e) as Pe.
      apply Qlt_le_trans with (Qpow2 53 * Qpow2 e).
      - apply Qmult_lt_r; [assumption|].
        rewrite (Qpow2_inject 53), <- Zlt_Qlt by lia. lia.
      - rewrite <- Qpow2_add. apply Qpow2_le. lia. }
    assert (Hsplit : Qpow2 1024 == 32 * Qpow2 1019).
    { change 32 with (Qpow2 5). rewrite <- Qpow2_add. reflexivity. }
    pose proof (Qpow2_pos 1019) as P.
    destruct (round64_le_pow2 (q / 60) 1019) as (v & -> & Hv0 & _);
      try lia; rewrite ?Hdiv; try lra.
    exists (Qfloor v). split; [reflexivity|].
    change 0%Z with (Qfloor 0). now apply Qfloor_resp_le.
  - rewrite round64_zero by (rewrite Hdiv; lra).
    exists 0%Z. split; [reflexivity | lia].
Qed.

End DurationFacts.

(** X17. The duration is computed from the largest end time of the items:
    no item ends later, the largest end time is 0 or the end time of an
    item, and it is shown as minutes, a colon and two digits of seconds
    below 60, exactly so for a whole number of seconds. *)
Theorem duration_is_largest_end_time (td : TranscriptData) (res : Results)
    (its : list Item) :
  results td = Some res -> items res = Some its ->
  (forall item, In item its -> truthy (end_time item) = true ->
     gt (parseFloat (or_empty (end_time item))) (maxEndTime_of its) = false) /\
  (maxEndTime_of its = of_Z 0 \/
   exists item, In item its /\ truthy (end_time item) = true /\
                maxEndTime_of its = parseFloat (or_empty (end_time item))) /\
  match maxEndTime_of its with
  | Fin q =>
      (0 <= q)%Q /\
      (exists m s, 0 <= m /\ 0 <= s <= 59 /\
         duration_of td = toString (IInt m) +++ ":" +++ padStart 2 "0" (Z_toString s) /\
         digit_field 2 (padStart 2 "0" (Z_toString s))) /\
      (forall n, 0 <= n < 2 ^ 52 -> (q == inject_Z n)%Q ->
         duration_of td
         = Z_toString (n / 60) +++ ":" +++ padStart 2 "0" (Z_toString (n mod 60)))
  | Inf _ => duration_of td = "Infinity:NaN"
  | NaN => False
  end.
Proof.
  intros Hres Hits.
  assert (Hzero : not_negative (of_Z 0)).
  { change (of_Z 0) with (Fin 0). split; [apply Qle_refl|].
    exists 0, 0. split; [reflexivity | lia]. }
  destruct (maxEndTime_fold its (of_Z 0) Hzero) as (Hfinal & _ & Hall & Hattained).
  cbv zeta in *.
  change (fold_left later_end its (of_Z 0)) with (maxEndTime_of its) in *.
  split; [exact Hall|]. split; [exact Hattained|].
  unfold duration_of. rewrite Hres, Hits.
  destruct (maxEndTime_of its) as [|s|q]; [exact Hfinal | |].
  - cbn in Hfinal. subst s. reflexivity.
  - destruct Hfinal as [Hq Hrep]. split; [exact Hq|]. split.
    + destruct (minutes_not_negative q Hrep Hq) as (m & -> & Hm).
      destruct (secs_range q Hq) as (sec & Hsec & Hrange & _).
      unfold srt_secs in Hsec. rewrite Hsec.
      assert (Hshow : toString (IInt sec) = Z_toString sec).
      { unfold toString.
        destruct (Z.ltb_spec (Z.abs sec) (2 ^ 53)) as [_|Hbig]; [reflexivity|]. lia. }
      rewrite Hshow.
      exists m, sec. split; [exact Hm|]. split; [exact Hrange|].
      split; [reflexivity|]. apply padded_field; [now left | lia].
    + intros n Hn Hqn.
      destruct constants_exact as (_ & E60 & _ & _). rewrite E60.
      assert (Hmin : floor (div (Fin q) (Fin 60)) = IInt (n / 60)).
      { unfold div, is_zero. change (Qeq_bool 60 0) with false. cbv iota.
        apply floor_round64_quotient; [lia | lia |]. now rewrite Hqn. }
      destruct (rem_whole n 60 q ltac:(lia) ltac:(lia) Hqn) as (r & Hrem & Hr).
      change (inject_Z 60) with 60%Q in Hrem. rewrite Hmin, Hrem.
      cbn [floor]. rewrite Hr, Qfloor_Z.
      pose proof (Z.mod_pos_bound n 60 ltac:(lia)) as B.
      assert (Hsmall : forall z, 0 <= z < 2 ^ 52 -> toString (IInt z) = Z_toString z).
      { intros z Hz. unfold toString.
        destruct (Z.ltb_spec (Z.abs z) (2 ^ 53)) as [_|Hbig]; [reflexivity|]. lia. }
      rewrite (Hsmall (n / 60)), (Hsmall (n mod 60)).
      * reflexivity.
      * lia.
      * split; [apply Z.div_pos; lia|]. apply Z.div_lt_upper_bound; lia.
Qed.

Lemma duration_is_largest_end_time_witness :
  duration_of (items_with_ends ["1.5"; "75"; "soon"; "12"])
  = Z_toString (75 / 60) +++ ":" +++ padStart 2 "0" (Z_toString (75 mod 60)).
Proof.
  destruct (duration_is_largest_end_time
              (items_with_ends ["1.5"; "75"; "soon"; "12"])
              (results_ending ["1.5"; "75"; "soon"; "12"])
              (items_ending ["1.5"; "75"; "soon"; "12"])
              (@eq_refl _ (Some (results_ending ["1.5"; "75"; "soon"; "12"])))
              (@eq_refl _ (Some (items_ending ["1.5"; "75"; "soon"; "12"]))))
    as (_ & _ & H).
  assert (Hmax : maxEndTime_of (items_ending ["1.5"; "75"; "soon"; "12"]) = Fin 75)
    by (vm_compute; reflexivity).
  rewrite Hmax in H.
  apply (proj2 (proj2 H) 75); [lia | reflexivity].
Defined.

(* ===================================================================== *)
(** ** Proofs: the polling phase *)
(* ===================================================================== *)

Section PollingFacts.
Context {W : Type} `{World W} `{Platform W}.




Lemma last_event_app (a : list event) (e : event) : last_event (a ++ [e]) = Some e.
Proof. unfold last_event. rewrite map_app. apply last_last. Qed.





End PollingFacts.

(* ===================================================================== *)
(** ** Proofs: the fallback, the page and the calls of a run *)
(* ===================================================================== *)

Section FallbackFacts.
Context {W : Type} `{World W} `{Platform W}.

Lemma retry_default_all_fail {T : Type} (operation : W -> (thrown + T) * W)
    (error : thrown) (st : state) :
  (forall w, fst (operation w) = inl error) ->
  exists w',
    retryOperation_default operation st
    = (inl error,
       mkState w'
         (trace st ++ [Invoked (Some error); OperationFailed 1 3 error; Sleep 1000;
                       Invoked (Some error); OperationFailed 2 3 error; Sleep 2000;
                       Invoked (Some error); OperationFailed 3 3 error])).
Proof.
  intros Hfail. unfold retryOperation_default, retryOperation.
  change (attempt_range 3) with [1; 2; 3].
  cbn [retry_loop]. 
  pose proof (Hfail (world st)) as H1.
  destruct (operation (world st)) as [r1 w1]. cbn [fst] in H1. subst r1.
  change (1 <? 3) with true. cbv iota. unfold bind at 1, sleep at 1. cbn [world trace retry_loop].
  pose proof (Hfail (elapse (1000 * 1) w1)) as H2.
  destruct (operation (elapse (1000 * 1) w1)) as [r2 w2]. cbn [fst] in H2. subst r2.
  change (2 <? 3) with true. cbv iota. unfold bind at 1, sleep at 1. cbn [world trace retry_loop].
  pose proof (Hfail (elapse (1000 * 2) w2)) as H3.
  destruct (operation (elapse (1000 * 2) w2)) as [r3 w3]. cbn [fst] in H3. subst r3.
  change (3 <? 3) with false. cbv iota. cbn [retry_loop]. unfold throw.
  exists w3. cbn [trace]. rewrite <- !List.app_assoc. reflexivity.
Qed.

(** X19. When every upload attempt fails, the job is never started: the
    upload is tried three times with waits of one and two seconds, the
    error is shown in a toast, and after two more seconds the simulated
    result is returned. *)
Theorem upload_failure_falls_back (file : File) (language message : string) (st : state) :
  (forall params w, fst (s3_upload params w) = inl (JsError message)) ->
  valid_time_value (lastModified file) = true ->
  exists st',
    transcribeAudio file language st = (inr (simulated_result file), st') /\
    trace st' = (trace st ++ upload_failure_trace file message)%list.
Proof.
  intros Hfail Hvalid.
  unfold transcribeAudio, try_catch, transcribe_try.
  unfold bind at 1, emit at 1. unfold bind at 1, now at 1. unfold bind at 1.
  cbn [world trace].
  match goal with
  | |- context [retryOperation_default ?op ?s] =>
      destruct (retry_default_all_fail op (JsError message) s (Hfail _)) as (w' & ->)
  end.
  unfold transcribe_catch, simulateTranscription, bind, emit, lift_result,
    Date_toISOString_check, sleep, ret.
  rewrite Hvalid. cbn [world trace]. eexists. split; [reflexivity|].
  cbn [trace]. unfold upload_failure_trace. rewrite <- !List.app_assoc. reflexivity.
Qed.

End FallbackFacts.

Lemma upload_failure_falls_back_witness :
  exists st',
    @transcribeAudio _ _ upload_down_platform (sample_file 0) "ta-IN" initial_state
    = (inr (simulated_result (sample_file 0)), st') /\
    trace st' = (trace initial_state
                   ++ upload_failure_trace (sample_file 0) "Network Failure")%list.
Proof.
  apply (@upload_failure_falls_back _ _ upload_down_platform); reflexivity.
Defined.

Section PageFacts.
Context {W : Type} `{World W} `{Platform W}.

(** X20. The handler of the page never throws and always leaves the page out
    of the processing state, with the result of transcribeAudio or, when
    that threw, without a result and with its message in a toast; the
    simulated result of a failed pipeline is announced as a success. *)
Theorem handleFileSelected_settles (file : File) (page : PageState) (st : state) :
  exists page' st',
    handleFileSelected file page st = (inr page', st') /\
    isProcessing page' = false /\ selectedFile page' = Some file /\
    selectedLanguage page' = selectedLanguage page /\
    match transcribeAudio file (selectedLanguage page) st with
    | (inr result, st1) =>
        transcriptionResult page' = Some result /\
        trace st' = (trace st1 ++ [ToastSuccess "Transcription completed successfully"])%list
    | (inl error, st1) =>
        transcriptionResult page' = None /\
        trace st' = (trace st1 ++ [TranscriptionError error;
                                   ToastError (page_error_text error)])%list
    end /\
    (valid_time_value (lastModified file) = true ->
     (exists e st1, transcribe_try file (selectedLanguage page) st = (inl e, st1)) ->
     transcriptionResult page' = Some (simulated_result file) /\
     last_event (trace st') = Some (ToastSuccess "Transcription completed successfully")).
Proof.
  unfold handleFileSelected, try_catch, bind, emit, ret.
  destruct (transcribeAudio file (selectedLanguage page) st) as [[error|result] st1] eqn:Hrun.
  - eexists _, _. split; [reflexivity|].
    cbn [isProcessing selectedFile selectedLanguage transcriptionResult trace world].
    split; [reflexivity|]. split; [reflexivity|]. split; [reflexivity|]. split.
    + split; [reflexivity|]. now rewrite <- List.app_assoc.
    + intros Hvalid _.
      destruct (transcribeAudio_returns file (selectedLanguage page) st Hvalid)
        as (r & st2 & Hret & _). congruence.
  - eexists _, _. split; [reflexivity|].
    cbn [isProcessing selectedFile selectedLanguage transcriptionResult trace world].
    split; [reflexivity|]. split; [reflexivity|]. split; [reflexivity|]. split.
    + split; reflexivity.
    + intros Hvalid (e & st2 & Htry).
      destruct (transcribeAudio_returns file (selectedLanguage page) st Hvalid)
        as (r & st3 & Hret & Hsim).
      rewrite (Hsim e st2 Htry) in Hret. split; [congruence | apply last_event_app].
Qed.

End PageFacts.

Lemma handleFileSelected_settles_witness :
  exists page' st',
    @handleFileSelected _ _ upload_down_platform (sample_file 0) initial_page initial_state
    = (inr page', st') /\
    transcriptionResult page' = Some (simulated_result (sample_file 0)) /\
    last_event (trace st') = Some (ToastSuccess "Transcription completed successfully").
Proof.
  destruct (@handleFileSelected_settles _ _ upload_down_platform (sample_file 0)
              initial_page initial_state)
    as (page' & st' & Hrun & _ & _ & _ & _ & Hfallback).
  exists page', st'. split; [exact Hrun|].
  apply Hfallback; [reflexivity|].
  eexists _, _. vm_compute. reflexivity.
Defined.

Section WiringFacts.
Context {W : Type} `{World W} `{Platform W}.

Local Abbreviation RW := (@recorder_world W _) (only parsing).
Local Abbreviation RP := (@recording_platform W _) (only parsing).

Lemma invocations_cons_other (e : event) (tr : list event) :
  match e with Invoked _ => False | _ => True end ->
  invocations (e :: tr) = invocations tr.
Proof. now destruct e. Qed.














End WiringFacts.


(** The calls of a run in which every call takes a millisecond and the job
    is completed at the second poll: the key of the object holds the time
    at the start, the name of the job the time after the upload. *)
Example calls_of_a_run :
  calls (world (snd (@transcribeAudio (Recorder nat) (@recorder_world nat counter_world)
                       (@recording_platform nat happy_platform)
                       (sample_file 0) "ta-IN" (mkState (recording 0%nat) []))))
  = {| uploads := [upload_of "media" 1700000000000 (sample_file 0)];
       jobs := [job_of "media" 1700000000000 1700000000001 (sample_file 0) "ta-IN"];
       queries := [("job-1700000000001", Some (job_with "IN_PROGRESS" None None));
                   ("job-1700000000001",
                    Some (job_with "COMPLETED" None
                            (Some "https://s3.eu-west-1.amazonaws.com/media/job-1.json")))];
       reads := [("media", "job-1.json")] |}.
Proof. vm_compute. reflexivity. Qed.

Section ErrorFacts.
Context {W : Type} `{World W} `{Platform W}.

Lemma bind_inl {A B : Type} (m : @M W A) (k : A -> @M W B) (st st' : state) (e : thrown) :
  bind m k st = (inl e, st') ->
  m st = (inl e, st') \/ exists a st1, m st = (inr a, st1) /\ k a st1 = (inl e, st').
Proof.
  unfold bind. destruct (m st) as [[e0|a] st1]; intros Hk;
    [left; now injection Hk as -> -> | right; eauto].
Qed.

Lemma emit_returns (ev : event) (st st' : @state W) (e : thrown) :
  emit ev st = (inl e, st') -> False.
Proof. unfold emit. discriminate. Qed.

Lemma now_returns (st st' : @state W) (e : thrown) : now st = (inl e, st') -> False.
Proof. unfold now. discriminate. Qed.

Lemma retry_run_error_origin {T : Type} (operation : W -> (thrown + T) * W)
    (maxRetries delay a : Z) (w w' : W) (tr : list event) (r : thrown + T) (e : thrown) :
  retry_run operation maxRetries delay a w tr r w' -> r = inl e ->
  exists w0, fst (operation w0) = inl e.
Proof.
  induction 1 as [a w v w' Hle Hop | w e0 w' Hop
                 | a w e0 w1 tr r w2 Hlt Hop Hrun IH]; intros Hr.
  - discriminate.
  - injection Hr as ->. exists w. now rewrite Hop.
  - now apply IH.
Qed.

Lemma retry_default_error_origin {T : Type} (operation : W -> (thrown + T) * W)
    (st st' : state) (e : thrown) :
  retryOperation_default operation st = (inl e, st') ->
  exists w0, fst (operation w0) = inl e.
Proof.
  unfold retryOperation_default, retryOperation.
  change (attempt_range 3) with (map Z.of_nat (seq 1 3)). intros Hrun.
  destruct (retry_loop_run operation 3 1000 2 1 None st ltac:(lia))
    as (tr & r & w' & Hloop & Hrel & _).
  rewrite Hloop in Hrun. injection Hrun as -> _.
  now apply (retry_run_error_origin operation _ _ _ _ _ _ _ e Hrel).
Qed.

(** X22. The errors that reach the catch block of transcribeAudio: the error
    of an upload attempt, the error of the request that starts the job,
    the time-out of the polling, the absence of a transcript address, or a
    failure to fetch, parse or convert the transcript, wrapped with its
    text.  An error of a status query and the failure of the job itself are
    never among them. *)
Theorem transcribe_try_errors (file : File) (language : string) (st st' : state)
    (e : thrown) :
  transcribe_try file language st = (inl e, st') ->
  (exists params w, fst (s3_upload params w) = inl e) \/
  (exists params w, fst (startTranscriptionJob params w) = inl e) \/
  e = JsError "Transcription job timed out after 5 minutes" \/
  e = JsError "Could not retrieve transcription results" \/
  exists cause, e = JsError ("Failed to fetch transcript data: " +++ error_text cause).
Proof.
  unfold transcribe_try. intros Hrun.
  apply bind_inl in Hrun as [Hrun|(? & st1 & _ & Hrun)]; [now apply emit_returns in Hrun|].
  apply bind_inl in Hrun as [Hrun|(t0 & st2 & _ & Hrun)]; [now apply now_returns in Hrun|].
  apply bind_inl in Hrun as [Hrun|(? & st3 & _ & Hrun)].
  { left. apply retry_default_error_origin in Hrun as (w0 & Hw0). eauto. }
  apply bind_inl in Hrun as [Hrun|(? & st4 & _ & Hrun)]; [now apply emit_returns in Hrun|].
  apply bind_inl in Hrun as [Hrun|(? & st5 & _ & Hrun)]; [now apply emit_returns in Hrun|].
  apply bind_inl in Hrun as [Hrun|(t1 & st6 & _ & Hrun)]; [now apply now_returns in Hrun|].
  apply bind_inl in Hrun as [Hrun|(? & st7 & _ & Hrun)].
  { right. left. unfold call in Hrun.
    match type of Hrun with
    | (let '(_, _) := startTranscriptionJob ?p ?w in _) = _ =>
        exists p, w; destruct (startTranscriptionJob p w) as [r w1]
    end.
    now injection Hrun as -> _. }
  apply bind_inl in Hrun as [Hrun|(? & st8 & _ & Hrun)]; [now apply emit_returns in Hrun|].
  apply bind_inl in Hrun as [Hrun|(job & st9 & _ & Hrun)].
  { right. right. left. now apply poll_job_throws_timeout_only in Hrun. }
  right. right. right.
  match type of Hrun with
  | (if ?c then _ else _) _ = _ => destruct c
  end.
  - right. unfold try_catch, throw in Hrun.
    match type of Hrun with
    | match ?m with _ => _ end = _ => destruct m as [[cause|r] st10]
    end; [|discriminate].
    injection Hrun as <- _. eauto.
  - left. unfold throw in Hrun. now injection Hrun as <- _.
Qed.

End ErrorFacts.

Lemma transcribe_try_errors_witness :
  (exists params w, fst (@s3_upload _ job_failed_platform params w)
                    = inl (JsError "Transcription job timed out after 5 minutes")) \/
  (exists params w, fst (@startTranscriptionJob _ job_failed_platform params w)
                    = inl (JsError "Transcription job timed out after 5 minutes")) \/
  JsError "Transcription job timed out after 5 minutes"
  = JsError "Transcription job timed out after 5 minutes" \/
  JsError "Transcription job timed out after 5 minutes"
  = JsError "Could not retrieve transcription results" \/
  exists cause, JsError "Transcription job timed out after 5 minutes"
                = JsError ("Failed to fetch transcript data: " +++ error_text cause).
Proof.
  refine (@transcribe_try_errors _ _ job_failed_platform (sample_file 0) "ta-IN"
            initial_state _ _ _).
  vm_compute. reflexivity.
Defined.
